(** * Image service: tenant ledger, asset catalog and access broker

    A shallow embedding of the multi-tenant image service
    (models/Application.js, models/Image.js, middleware/auth.js,
    controllers/imageController.js) together with the properties of its
    quota accounting, visibility derivation and read-access decisions.

    Conventions of the embedding:
    - a JavaScript [Number] holding a byte size or a counter is a [Z];
    - [undefined]/[null] is [None];
    - a mongoose collection with a unique index is a [gmap] keyed by the
      indexed field;
    - [new Date()] is an explicit [now] argument;
    - an [async] handler that answers through [res] is a function returning
      the response together with the new database state;
    - a JavaScript exception is the [None]/[inl] branch of the result. *)

From Stdlib Require Import ZArith Ascii String.
From stdpp Require Import gmap strings list fin_maps sorting.

Local Open Scope string_scope.
Local Open Scope Z_scope.

(** ** Dates

    Only the calendar month and the calendar year of a [Date] are ever
    inspected (resetMonthlyUsage); the remaining part of the instant is kept
    as the number of milliseconds elapsed inside that month. *)

Record Date := mkDate {
  getFullYear : Z;
  getMonth : Z;
  msInMonth : Z
}.

#[global] Instance Date_eq_dec : EqDecision Date.
Proof. solve_decision. Defined.

(** Chronological order. *)
Definition date_leb (a b : Date) : bool :=
  (getFullYear a <? getFullYear b)
  || ((getFullYear a =? getFullYear b)
      && ((getMonth a <? getMonth b)
          || ((getMonth a =? getMonth b) && (msInMonth a <=? msInMonth b)))).

(** ** JSON values (what [toObject] and [res.json] produce) *)

#[warnings="-register-all"]
Inductive JValue :=
| JNull
| JBool (b : bool)
| JNum (n : Z)
| JStr (s : string)
| JDate (d : Date)
| JArr (items : list JValue)
| JObj (fields : list (string * JValue)).

(** [delete obj.key] on a plain object. *)
Definition js_delete (key : string) (obj : list (string * JValue))
  : list (string * JValue) :=
  filter (fun kv => kv.1 ≠ key) obj.

(** [obj.key], [None] standing for [undefined]. *)
Fixpoint js_get (key : string) (obj : list (string * JValue)) : option JValue :=
  match obj with
  | [] => None
  | (k, v) :: rest => if decide (k = key) then Some v else js_get key rest
  end.

Definition js_keys (obj : list (string * JValue)) : list string := obj.*1.

Definition opt_str (o : option string) : JValue :=
  match o with Some s => JStr s | None => JNull end.

(** * models/Application.js *)

Module Application.

Record Limits := mkLimits {
  maxFileSize : Z;
  maxImagesPerMonth : Z;
  maxStorageSize : Z
}.

Record Usage := mkUsage {
  totalImages : Z;
  totalStorageUsed : Z;
  currentMonthUploads : Z;
  lastResetDate : Date
}.

Record Settings := mkSettings {
  enablePublicAccess : bool;
  enableImageOptimization : bool;
  defaultImageQuality : Z;
  allowedFormats : list string
}.

Record RefreshToken := mkRefreshToken {
  token : string;
  createdAt : Date
}.

(** An in-memory Application document.  [isNew] and [_plainSecret] are
    properties of the document object, not schema paths: they are never
    written to the collection. *)
Record t := mk {
  _id : string;
  name : string;
  description : option string;
  domain : string;
  allowedOrigins : list string;
  apiKey : option string;
  apiSecret : option string;
  isActive : bool;
  plan : string;
  limits : Limits;
  usage : Usage;
  settings : Settings;
  refreshTokens : list RefreshToken;
  isNew : bool;
  _plainSecret : option string
}.

Definition defaultLimits : Limits := mkLimits 5242880 1000 1073741824.

Definition defaultUsage (now : Date) : Usage := mkUsage 0 0 0 now.

Definition set_usage (u : Usage) (a : t) : t :=
  mk (_id a) (name a) (description a) (domain a) (allowedOrigins a)
     (apiKey a) (apiSecret a) (isActive a) (plan a) (limits a) u
     (settings a) (refreshTokens a) (isNew a) (_plainSecret a).

(** *** resetMonthlyUsage *)
Definition resetMonthlyUsage (now : Date) (a : t) : t :=
  let lastReset := lastResetDate (usage a) in
  if negb (getMonth now =? getMonth lastReset)
     || negb (getFullYear now =? getFullYear lastReset)
  then set_usage (mkUsage (totalImages (usage a))
                          (totalStorageUsed (usage a)) 0 now) a
  else a.

(** *** canUpload *)
Record Reasons := mkReasons {
  monthlyLimit : bool;
  storageLimit : bool;
  fileSizeLimit : bool
}.

Record Remaining := mkRemaining {
  monthlyRemaining : Z;
  storageRemaining : Z;
  remMaxFileSize : Z
}.

Record Verdict := mkVerdict {
  allowed : bool;
  reasons : Reasons;
  remaining : Remaining
}.

(** [canUpload(fileSize = 0)]: the argument is optional and the method
    mutates [this] through [resetMonthlyUsage], hence the returned
    document. *)
Definition canUpload (now : Date) (fileSizeArg : option Z) (a : t)
  : Verdict * t :=
  let fileSize := default 0 fileSizeArg in
  let a := resetMonthlyUsage now a in
  let withinMonthlyLimit :=
    currentMonthUploads (usage a) <? maxImagesPerMonth (limits a) in
  let withinStorageLimit :=
    totalStorageUsed (usage a) + fileSize <=? maxStorageSize (limits a) in
  let withinFileSizeLimit := fileSize <=? maxFileSize (limits a) in
  (mkVerdict
     (withinMonthlyLimit && withinStorageLimit && withinFileSizeLimit)
     (mkReasons withinMonthlyLimit withinStorageLimit withinFileSizeLimit)
     (mkRemaining
        (maxImagesPerMonth (limits a) - currentMonthUploads (usage a))
        (maxStorageSize (limits a) - totalStorageUsed (usage a))
        (maxFileSize (limits a))),
   a).

(** *** recordUpload: the three increments; [this.save()] is performed by
    the caller of this function on the collection (see [save]). *)
Definition recordUpload (fileSize : Z) (a : t) : t :=
  set_usage (mkUsage (totalImages (usage a) + 1)
                     (totalStorageUsed (usage a) + fileSize)
                     (currentMonthUploads (usage a) + 1)
                     (lastResetDate (usage a))) a.

(** *** pre('save') hook: credentials are generated for a new document.

    [crypto.randomBytes] and [bcrypt.genSalt] are sources of randomness:
    their outputs are the fields of [Entropy].  [bcrypt.hash] is the
    library's one-way function, a parameter of the model. *)
Record Entropy := mkEntropy {
  keyHex : string;
  secretHex : string;
  salt : string
}.

(** What reaches the collection: the schema paths only. *)
Definition stored (a : t) : t :=
  mk (_id a) (name a) (description a) (domain a) (allowedOrigins a)
     (apiKey a) (apiSecret a) (isActive a) (plan a) (limits a) (usage a)
     (settings a) (refreshTokens a) false None.

Section Credentials.
Variable bcrypt_hash : string -> string -> string.

Definition preSave (e : Entropy) (a : t) : t :=
  if isNew a then
    mk (_id a) (name a) (description a) (domain a) (allowedOrigins a)
       (Some ("ak_" +:+ keyHex e))
       (Some (bcrypt_hash (secretHex e) (salt e)))
       (isActive a) (plan a) (limits a) (usage a)
       (settings a) (refreshTokens a) (isNew a)
       (Some (secretHex e))
  else a.

(** [doc.save()]: hook, then write.  The caller keeps the in-memory
    document, which still carries [_plainSecret]. *)
Definition save (e : Entropy) (a : t) (db : gmap string t)
  : t * gmap string t :=
  let a' := preSave e a in
  (a', <[_id a' := stored a']> db).
End Credentials.

(** [save()] of a document that came out of the collection: the hook
    does nothing for it, no randomness is drawn. *)
Definition update (a : t) (db : gmap string t) : gmap string t :=
  <[_id a := stored a]> db.

(** [Application.findById]: the hydrated document is not new and has no
    [_plainSecret]. *)
Definition findById (id : string) (db : gmap string t) : option t :=
  stored <$> db !! id.

(** *** toObject / toJSON *)
Definition limitsObject (l : Limits) : JValue :=
  JObj [("maxFileSize", JNum (maxFileSize l));
        ("maxImagesPerMonth", JNum (maxImagesPerMonth l));
        ("maxStorageSize", JNum (maxStorageSize l))].

Definition usageObject (u : Usage) : JValue :=
  JObj [("totalImages", JNum (totalImages u));
        ("totalStorageUsed", JNum (totalStorageUsed u));
        ("currentMonthUploads", JNum (currentMonthUploads u));
        ("lastResetDate", JDate (lastResetDate u))].

Definition settingsObject (s : Settings) : JValue :=
  JObj [("enablePublicAccess", JBool (enablePublicAccess s));
        ("enableImageOptimization", JBool (enableImageOptimization s));
        ("defaultImageQuality", JNum (defaultImageQuality s));
        ("allowedFormats", JArr (JStr <$> allowedFormats s))].

Definition refreshTokenObject (r : RefreshToken) : JValue :=
  JObj [("token", JStr (token r)); ("createdAt", JDate (createdAt r))].

(** [this.toObject()]: one entry per schema path that holds a value. *)
Definition toObject (a : t) : list (string * JValue) :=
  [("_id", JStr (_id a));
   ("name", JStr (name a));
   ("description", opt_str (description a));
   ("domain", JStr (domain a));
   ("allowedOrigins", JArr (JStr <$> allowedOrigins a));
   ("apiKey", opt_str (apiKey a));
   ("apiSecret", opt_str (apiSecret a));
   ("isActive", JBool (isActive a));
   ("plan", JStr (plan a));
   ("limits", limitsObject (limits a));
   ("usage", usageObject (usage a));
   ("settings", settingsObject (settings a));
   ("refreshTokens", JArr (refreshTokenObject <$> refreshTokens a))].

Definition toJSON (a : t) : list (string * JValue) :=
  let appObject := toObject a in
  let appObject := js_delete "apiSecret" appObject in
  let appObject := js_delete "refreshTokens" appObject in
  appObject.

End Application.

(** * models/Image.js *)

Module Image.

(** One entry of the variant manifest.  The [original] entry only has a
    storage handle; [width] and [height] are [null] there. *)
Record Variant := mkVariant {
  v_path : option string;
  v_s3Key : option string;
  v_url : option string;
  v_size : option Z;
  v_width : option Z;
  v_height : option Z;
  v_format : option string
}.

Record Version := mkVersion {
  ver_filename : string;
  ver_path : string;
  ver_s3Key : option string;
  ver_variants : option (gmap string Variant);
  ver_createdAt : Date
}.

Record Metadata := mkMetadata {
  width : option Z;
  height : option Z;
  format : option string;
  hasAlpha : option bool
}.

Record t := mk {
  imageId : string;
  originalName : string;
  filename : string;
  mimetype : string;
  size : Z;
  path : string;
  url : option string;
  s3Key : option string;
  application : string;
  entityId : option string;
  entityType : option string;
  productId : option string;
  category : string;
  tags : list string;
  alt : string;
  title : string;
  isPublic : bool;
  isDeleted : bool;
  deletedAt : option Date;
  versions : list Version;
  variants : gmap string Variant;
  metadata : Metadata;
  accessCount : Z;
  lastAccessedAt : option Date;
  createdAt : Date;
  updatedAt : Date
}.

(** JavaScript truthiness of an optional string. *)
Definition truthy (o : option string) : bool :=
  match o with
  | Some s => negb (String.eqb s "")
  | None => false
  end.

(** [o === s] *)
Definition strictEq (o : option string) (s : string) : bool :=
  match o with
  | Some s' => String.eqb s' s
  | None => false
  end.

Definition set_isPublic (b : bool) (i : t) : t :=
  mk (imageId i) (originalName i) (filename i) (mimetype i) (size i)
     (path i) (url i) (s3Key i) (application i) (entityId i) (entityType i)
     (productId i) (category i) (tags i) (alt i) (title i)
     b (isDeleted i) (deletedAt i) (versions i) (variants i)
     (metadata i) (accessCount i) (lastAccessedAt i)
     (createdAt i) (updatedAt i).

(** [timestamps: true] *)
Definition touch (now : Date) (isNew : bool) (i : t) : t :=
  mk (imageId i) (originalName i) (filename i) (mimetype i) (size i)
     (path i) (url i) (s3Key i) (application i) (entityId i) (entityType i)
     (productId i) (category i) (tags i) (alt i) (title i)
     (isPublic i) (isDeleted i) (deletedAt i) (versions i) (variants i)
     (metadata i) (accessCount i) (lastAccessedAt i)
     (if isNew then now else createdAt i) now.

(** The condition of the pre-save hook, in the order of the source. *)
Definition productLike (i : t) : bool :=
  strictEq (entityType i) "product"
  || String.eqb (category i) "product"
  || truthy (productId i)
  || String.eqb (category i) "electronics"
  || String.eqb (category i) "clothing"
  || String.eqb (category i) "accessories".

(** *** pre('save'): auto-set public for product images *)
Definition preSave (i : t) : t :=
  if productLike i then set_isPublic true i else i.

(** *** Schema validation run by [save]: the [required] paths and the
    [mimetype] enum.  A required string path rejects the empty string. *)
Definition mimetypeEnum : list string :=
  ["image/jpeg"; "image/jpg"; "image/png"; "image/webp"].

Definition present (s : string) : bool := negb (String.eqb s "").

Definition validate (i : t) : bool :=
  present (imageId i)
  && present (originalName i)
  && present (filename i)
  && bool_decide (mimetype i ∈ mimetypeEnum)
  && present (path i)
  && present (application i).

(** *** [doc.save()] on the collection, which has a unique index on
    [imageId].  [None]: the promise is rejected (validation error, or
    duplicate key on insertion).  [timestamps: true] maintains
    [createdAt]/[updatedAt]. *)
Definition save (now : Date) (isNew : bool) (i : t) (db : gmap string t)
  : option (t * gmap string t) :=
  if validate i then
    let i := preSave i in
    let i := touch now isNew i in
    if isNew && bool_decide (is_Some (db !! imageId i)) then None
    else Some (i, <[imageId i := i]> db)
  else None.

(** *** softDelete *)
Definition softDelete (now : Date) (i : t) (db : gmap string t)
  : option (t * gmap string t) :=
  let i :=
    mk (imageId i) (originalName i) (filename i) (mimetype i) (size i)
       (path i) (url i) (s3Key i) (application i) (entityId i)
       (entityType i) (productId i) (category i) (tags i) (alt i) (title i)
       (isPublic i) true (Some now) (versions i) (variants i)
       (metadata i) (accessCount i) (lastAccessedAt i)
       (createdAt i) (updatedAt i) in
  save now false i db.

(** *** recordAccess *)
Definition recordAccess (now : Date) (i : t) (db : gmap string t)
  : option (t * gmap string t) :=
  let i :=
    mk (imageId i) (originalName i) (filename i) (mimetype i) (size i)
       (path i) (url i) (s3Key i) (application i) (entityId i)
       (entityType i) (productId i) (category i) (tags i) (alt i) (title i)
       (isPublic i) (isDeleted i) (deletedAt i) (versions i) (variants i)
       (metadata i) (accessCount i + 1) (Some now)
       (createdAt i) (updatedAt i) in
  save now false i db.

(** *** Queries of the controller *)

(** [Image.findOne({ imageId, isDeleted: false })] *)
Definition findLive (id : string) (db : gmap string t) : option t :=
  match db !! id with
  | Some i => if isDeleted i then None else Some i
  | None => None
  end.

(** [Image.findOne({ imageId, application, isDeleted: false })] *)
Definition findOwned (id app : string) (db : gmap string t) : option t :=
  match db !! id with
  | Some i =>
      if negb (isDeleted i) && String.eqb (application i) app
      then Some i else None
  | None => None
  end.

End Image.

(** * Strings: the two [String.prototype] methods the service uses *)

(** [s.split(sep)] for a one-character separator. *)
Fixpoint split_on (sep : ascii) (s : string) : list string :=
  match s with
  | EmptyString => [""]
  | String c rest =>
      if Ascii.eqb c sep then "" :: split_on sep rest
      else match split_on sep rest with
           | [] => [String c ""]
           | w :: ws => String c w :: ws
           end
  end.

Definition is_space (c : ascii) : bool :=
  let n := nat_of_ascii c in
  (Nat.eqb n 32 || (Nat.leb 9 n && Nat.leb n 13))%bool.

Fixpoint trim_start (s : string) : string :=
  match s with
  | EmptyString => ""
  | String c rest => if is_space c then trim_start rest else s
  end.

Definition string_rev (s : string) : string :=
  string_of_list_ascii (rev (list_ascii_of_string s)).

(** [s.trim()] *)
Definition trim (s : string) : string :=
  string_rev (trim_start (string_rev (trim_start s))).

(** [tags.split(',').map(tag => tag.trim()).filter(tag => tag)] *)
Definition parseTags (s : string) : list string :=
  filter (fun tag => tag ≠ "") (trim <$> split_on "," s).

(** * The environment of one request

    Everything a handler obtains from outside the two collections: the
    clock, the process environment, the random identifiers, the token
    library, the [path] module, the file system, [sharp] and S3.  A call
    that can throw returns [None] (or [false]) when it does. *)

Record JwtPayload := mkJwt {
  jwt_type : option string;
  jwt_id : option string;
  jwt_imageId : option string;
  jwt_applicationId : option string
}.

(** The errors [jwt.verify] throws. *)
Inductive JwtError :=
| TokenExpiredError
| JsonWebTokenError
| NotBeforeError.

Record Rendered := mkRendered {
  r_size : Z;
  r_width : Z;
  r_height : Z
}.

Record Env := mkEnv {
  now : Date;
  STORAGE_TYPE : option string;
  UPLOAD_DIR : option string;
  (** the n-th identifier drawn by [uuidv4()] during the request *)
  uuidv4 : nat -> string;
  (** [jwt.verify(token, JWT_SECRET)]: bad signature or expiry throws *)
  jwt_verify : string -> JwtError + JwtPayload;
  (** [jwt.sign(payload, JWT_SECRET, { expiresIn: '1h' })]; a handler that
      signs runs behind a successful [jwt_verify] under the same secret *)
  jwt_sign : JwtPayload -> string;
  path_join : list string -> string;
  path_relative : string -> string;
  path_resolve : list string -> string;
  fs_mkdir : string -> bool;
  fs_access : string -> bool;
  (** resize, encode as WebP, write, stat and re-read the metadata *)
  sharp_toFile : string -> Z -> Z -> string -> option Rendered;
  s3_getObject : string -> bool;
  sharp_toBuffer : string -> Z -> Z -> option Rendered;
  (** returns [uploadResult.Location] *)
  s3_upload : string -> option string;
  s3_getSignedUrl : option string -> string;
  (** [new RegExp(pattern, 'i').test(subject)] *)
  regex_test : string -> string -> bool;
  req_protocol : string;
  req_host : string
}.

Definition usesS3 (env : Env) : bool :=
  Image.strictEq (STORAGE_TYPE env) "s3".

(** * Requests and responses *)

Record S3Info := mkS3Info {
  s3_location : string;
  s3_key : string;
  s3_bucket : string
}.

(** [req.file], as left by multer and the upload middleware. *)
Record File := mkFile {
  originalname : string;
  f_filename : option string;
  f_mimetype : string;
  f_size : Z;
  f_path : option string;
  f_s3 : option S3Info;
  f_metadata : option Image.Metadata
}.

Inductive TagsArg :=
| TagsString (s : string)
| TagsArray (l : list string).

Record Body := mkBody {
  b_entityId : option string;
  b_entityType : option string;
  b_category : option string;
  b_tags : option TagsArg;
  b_alt : option string;
  b_title : option string;
  b_productId : option string
}.

Record Query := mkQuery {
  q_token : option string;
  q_size : option string;
  (** [parseInt(req.query.page)], [None] for [NaN] *)
  q_page : option Z;
  q_limit : option Z;
  q_entityId : option string;
  q_entityType : option string;
  q_productId : option string;
  q_category : option string;
  q_tags : option string;
  q_search : option string;
  q_sort : option string
}.

(** [req.application], set by the authentication middleware. *)
Record ReqApplication := mkReqApplication {
  ra_id : string;
  ra_name : string;
  ra_domain : string;
  ra_plan : string;
  ra_limits : Application.Limits;
  ra_settings : Application.Settings
}.

Record Request := mkRequest {
  authorization : option string;
  imageIdParam : string;
  query : Query;
  body : Body;
  file : option File;
  files : list File;
  fileMetadata : option Image.Metadata;
  application : option ReqApplication;
  userId : option string
}.

Record UploadData := mkUploadData {
  u_image : Image.t;
  u_variants : gmap string Image.Variant;
  u_accessUrl : string;
  u_accessToken : string;
  u_urls : list (string * string);
  u_publicUrls : option (list (string * string))
}.

Record BulkItem := mkBulkItem {
  bi_image : Image.t;
  bi_accessUrl : string;
  bi_accessToken : string
}.

Record ReplaceData := mkReplaceData {
  rp_image : Image.t;
  rp_variants : gmap string Image.Variant;
  rp_accessUrl : string;
  rp_accessToken : string;
  rp_versionsCount : nat;
  rp_urls : list (string * string)
}.

Record ListItem := mkListItem {
  li_image : Image.t;
  li_accessUrl : string;
  li_urls : list (string * string)
}.

Record Pagination := mkPagination {
  pg_page : Z;
  pg_limit : Z;
  pg_total : Z
}.

Record InfoData := mkInfoData {
  in_image : Image.t;
  in_variants : list (string * Image.Variant);
  in_urls : list (string * string);
  in_accessToken : option string
}.

(** One line of the [details] of a quota answer; the text of the line,
    which renders the limit it carries, is not modelled. *)
Inductive QuotaError :=
| MonthlyLimitExceeded (maxImagesPerMonth : Z)
| StorageLimitExceeded (maxStorageSize : Z)
| FileSizeExceeded (maxFileSize : Z).

Inductive Payload :=
| Failure (error : string)
| QuotaFailure (error : string) (details : list QuotaError)
               (limits : Application.Remaining)
| Uploaded (d : UploadData)
| BulkUploaded (uploaded : list BulkItem) (failedFiles : list string)
| Deleted (message : string)
| Replaced (d : ReplaceData)
| Listed (items : list ListItem) (p : Pagination)
| MetadataUpdated (i : Image.t)
| Info (d : InfoData).

Inductive Response :=
| Json (status : Z) (success : bool) (payload : Payload)
| SendFile (filePath : string) (contentType : string)
| Redirect (target : string).

(** [res.sendFile] answers 200 and [res.redirect] 302. *)
Definition statusOf (r : Response) : Z :=
  match r with
  | Json status _ _ => status
  | SendFile _ _ => 200
  | Redirect _ => 302
  end.

Definition fail (status : Z) (error : string) : Response :=
  Json status false (Failure error).

(** The two collections. *)
Record World := mkWorld {
  images : gmap string Image.t;
  applications : gmap string Application.t
}.

(** * middleware/auth.js *)

Module Auth.

(** [authHeader && authHeader.split(' ')[1]], then the truthiness test of
    [if (!token)]. *)
Definition bearerToken (req : Request) : option string :=
  match authorization req with
  | None => None
  | Some authHeader =>
      if Image.truthy (Some authHeader) then
        match split_on " " authHeader !! 1%nat with
        | Some token => if Image.truthy (Some token) then Some token else None
        | None => None
        end
      else None
  end.

Definition describe (a : Application.t) : ReqApplication :=
  mkReqApplication (Application._id a) (Application.name a)
                   (Application.domain a) (Application.plan a)
                   (Application.limits a) (Application.settings a).

Definition set_application (ra : ReqApplication) (req : Request) : Request :=
  mkRequest (authorization req) (imageIdParam req) (query req) (body req)
            (file req) (files req) (fileMetadata req) (Some ra) (userId req).

(** The application a bearer token stands for, if the token verifies, is
    of type [application] and names an active application. *)
Definition bearerApplication (env : Env) (apps : gmap string Application.t)
    (token : string) : option Application.t :=
  match jwt_verify env token with
  | inl _ => None
  | inr decoded =>
      if Image.strictEq (jwt_type decoded) "application" then
        id ← jwt_id decoded;
        a ← Application.findById id apps;
        if Application.isActive a then Some a else None
      else None
  end.

(** *** authenticateApplication: answers 401 itself or lets the request
    through with [req.application] set. *)
Definition authenticateApplication (env : Env)
    (apps : gmap string Application.t) (req : Request)
  : Response + Request :=
  match bearerToken req with
  | None => inl (fail 401 "Access denied. No token provided.")
  | Some token =>
      match jwt_verify env token with
      | inl TokenExpiredError => inl (fail 401 "Token expired.")
      | inl JsonWebTokenError => inl (fail 401 "Invalid token.")
      | inl NotBeforeError => inl (fail 500 "Authentication error.")
      | inr decoded =>
          if Image.strictEq (jwt_type decoded) "application" then
            match jwt_id decoded ≫= (fun id => Application.findById id apps) with
            | Some a =>
                if Application.isActive a
                then inr (set_application (describe a) req)
                else inl (fail 401 "Invalid token or application not found.")
            | None => inl (fail 401 "Invalid token or application not found.")
            end
          else inl (fail 401 "Invalid token type.")
      end
  end.

(** *** optionalApplicationAuth: never answers; sets [req.application]
    when the bearer token identifies an active application, and leaves
    the request as it is otherwise.  It never touches [req.userId]. *)
Definition optionalApplicationAuth (env : Env)
    (apps : gmap string Application.t) (req : Request) : Request :=
  match bearerToken req with
  | None => req
  | Some token =>
      match bearerApplication env apps token with
      | Some a => set_application (describe a) req
      | None => req
      end
  end.

End Auth.

(** * controllers/imageController.js *)

Module ImageController.

(** [IMAGE_SIZES]; [None] is the [null] of [original]. *)
Definition IMAGE_SIZES : list (string * option (Z * Z)) :=
  [("thumbnail", Some (150, 150));
   ("small", Some (300, 300));
   ("medium", Some (600, 600));
   ("large", Some (1200, 1200));
   ("original", None)].

Definition originalAt (path s3Key : option string) : Image.Variant :=
  Image.mkVariant path s3Key None None None None None.

(** The box handed to [resize]; without dimensions no resize happens,
    which the renderer sees as the box (0, 0). *)
Definition box (dimensions : option (Z * Z)) : Z * Z :=
  default (0, 0) dimensions.

(** *** generateImageVariants (local storage).  [None]: the promise is
    rejected, whatever was built so far is lost with it. *)
Definition generateImageVariants (env : Env) (inputPath imageId : string)
  : option (gmap string Image.Variant) :=
  let baseDir :=
    if Image.truthy (UPLOAD_DIR env) then default "" (UPLOAD_DIR env)
    else "./uploads" in
  let variantsDir := path_join env [baseDir; "variants"; imageId] in
  if fs_mkdir env variantsDir then
    foldl (fun acc entry =>
             variants ← acc;
             let '(sizeName, dimensions) := entry in
             if String.eqb sizeName "original" then
               Some (<[sizeName := originalAt (Some inputPath) None]> variants)
             else
               let outputPath :=
                 path_join env [variantsDir; sizeName +:+ ".webp"] in
               r ← sharp_toFile env inputPath (box dimensions).1
                     (box dimensions).2 outputPath;
               Some (<[sizeName :=
                        Image.mkVariant (Some (path_relative env outputPath))
                          None None (Some (r_size r)) (Some (r_width r))
                          (Some (r_height r)) (Some "webp")]> variants))
          (Some ∅) IMAGE_SIZES
  else None.

(** *** generateS3ImageVariants *)
Definition generateS3ImageVariants (env : Env) (s3Key imageId : string)
  : option (gmap string Image.Variant) :=
  if s3_getObject env s3Key then
    foldl (fun acc entry =>
             variants ← acc;
             let '(sizeName, dimensions) := entry in
             if String.eqb sizeName "original" then
               Some (<[sizeName := originalAt None (Some s3Key)]> variants)
             else
               r ← sharp_toBuffer env s3Key (box dimensions).1
                     (box dimensions).2;
               let variantKey :=
                 "variants/" +:+ imageId +:+ "/" +:+ sizeName +:+ ".webp" in
               location ← s3_upload env variantKey;
               Some (<[sizeName :=
                        Image.mkVariant None (Some variantKey) (Some location)
                          (Some (r_size r)) (Some (r_width r))
                          (Some (r_height r)) (Some "webp")]> variants))
          (Some ∅) IMAGE_SIZES
  else None.

(** The [try { variants = await generate...() } catch { logger.warn }]
    block shared by the three writers: a failure of the generation, or of
    reading [file.s3.key] / [file.path] inside the [try], leaves
    [variants = {}]. *)
Definition buildVariants (env : Env) (f : File) (imageId : string)
  : gmap string Image.Variant :=
  let attempt :=
    if usesS3 env then
      s3 ← f_s3 f; generateS3ImageVariants env (s3_key s3) imageId
    else
      p ← f_path f; generateImageVariants env p imageId in
  default ∅ attempt.

(** The storage-specific fields [(s3Key, url, path)]; [None] when reading
    them throws ([file.s3] or [file.path] is [undefined]). *)
Definition storageFields (env : Env) (f : File)
  : option (option string * option string * string) :=
  if usesS3 env then
    s3 ← f_s3 f;
    Some (Some (s3_key s3), Some (s3_location s3), s3_key s3)
  else
    p ← f_path f;
    Some (None, None, path_relative env p).

Definition orElse (o : option string) (d : string) : string :=
  if Image.truthy o then default d o else d.

Definition keepTruthy (o : option string) : option string :=
  if Image.truthy o then o else None.

Definition accessPayload (imageId applicationId : string) : JwtPayload :=
  mkJwt None None (Some imageId) (Some applicationId).

Definition sizedUrls (baseUrl : string) (suffix : string)
  : list (string * string) :=
  [("thumbnail", baseUrl +:+ "?size=thumbnail" +:+ suffix);
   ("small", baseUrl +:+ "?size=small" +:+ suffix);
   ("medium", baseUrl +:+ "?size=medium" +:+ suffix);
   ("large", baseUrl +:+ "?size=large" +:+ suffix)].

(** [new Image(imageData)] of uploadImage: schema defaults for whatever
    [imageData] does not give.  [None] when building [imageData] throws. *)
Definition newImage (env : Env) (req : Request) (f : File)
    (ra : ReqApplication) (imageId : string)
    (variants : gmap string Image.Variant) : option Image.t :=
  md ← fileMetadata req;
  tags ← match b_tags (body req) with
         | None => Some []
         | Some (TagsString s) =>
             if String.eqb s "" then Some [] else Some (parseTags s)
         | Some (TagsArray _) => None
         end;
  '(s3Key, url, path) ← storageFields env f;
  Some (Image.mk imageId (originalname f) (default "" (f_filename f))
          (f_mimetype f) (f_size f) path url s3Key (ra_id ra)
          (keepTruthy (b_entityId (body req)))
          (keepTruthy (b_entityType (body req)))
          (keepTruthy (b_productId (body req)))
          (orElse (b_category (body req)) "uncategorized")
          tags
          (orElse (b_alt (body req)) "")
          (orElse (b_title (body req)) (originalname f))
          false false None [] variants md 0 None (now env) (now env)).

(** The [details] of a 413 answer, one entry per failed reason.  Bulk
    upload does not report the per-file limit. *)
Definition quotaDetails (v : Application.Verdict) (a : Application.t)
    (withFileSize : bool) : list QuotaError :=
  ((if Application.monthlyLimit (Application.reasons v) then []
    else [MonthlyLimitExceeded
            (Application.maxImagesPerMonth (Application.limits a))])
   ++ (if Application.storageLimit (Application.reasons v) then []
       else [StorageLimitExceeded
               (Application.maxStorageSize (Application.limits a))])
   ++ (if withFileSize
          && negb (Application.fileSizeLimit (Application.reasons v))
       then [FileSizeExceeded
               (Application.maxFileSize (Application.limits a))]
       else []))%list.

(** *** uploadImage *)
Definition uploadImage (env : Env) (w : World) (req : Request)
  : Response * World :=
  match file req with
  | None => (fail 400 "No file uploaded", w)
  | Some f =>
    match application req with
    | None => (fail 500 "Failed to upload image", w)
    | Some ra =>
      match Application.findById (ra_id ra) (applications w) with
      | None => (fail 404 "Application not found", w)
      | Some app =>
        let '(canUpload, app) :=
          Application.canUpload (now env) (Some (f_size f)) app in
        if negb (Application.allowed canUpload) then
          (Json 413 false
             (QuotaFailure "Upload limits exceeded"
                (quotaDetails canUpload app true)
                (Application.remaining canUpload)), w)
        else
          let imageId := uuidv4 env 0 in
          (* The look-up of an existing image of the same entity only
             pushes onto the [versions] of a document that is never
             saved: it leaves no trace. *)
          let variants := buildVariants env f imageId in
          match newImage env req f ra imageId variants
                ≫= (fun i => Image.save (now env) true i (images w)) with
          | None => (fail 500 "Failed to upload image", w)
          | Some (image, imgs) =>
            let app := Application.recordUpload (f_size f) app in
            let w' := mkWorld imgs (Application.update app (applications w)) in
            let accessToken :=
              jwt_sign env (accessPayload (Image.imageId image) (ra_id ra)) in
            let baseUrl := "/api/images/" +:+ Image.imageId image in
            let urlsWithToken :=
              (sizedUrls baseUrl ("&token=" +:+ accessToken)
               ++ [("original", baseUrl +:+ "?token=" +:+ accessToken)])%list in
            let publicUrls :=
              if Image.isPublic image
              then Some (sizedUrls baseUrl "" ++ [("original", baseUrl)])%list
              else None in
            (Json 201 true
               (Uploaded
                  (mkUploadData image variants
                     (if Image.isPublic image then baseUrl
                      else baseUrl +:+ "?token=" +:+ accessToken)
                     accessToken urlsWithToken publicUrls)), w')
          end
      end
    end
  end.

(** *** bulkUploadImages *)

(** [new Image(imageData)] of the bulk loop. *)
Definition newBulkImage (env : Env) (req : Request) (f : File)
    (ra : ReqApplication) (imageId : string)
    (variants : gmap string Image.Variant) : option Image.t :=
  '(s3Key, url, path) ← storageFields env f;
  Some (Image.mk imageId (originalname f) (default "" (f_filename f))
          (f_mimetype f) (f_size f) path url s3Key (ra_id ra)
          (keepTruthy (b_entityId (body req)))
          (keepTruthy (b_entityType (body req)))
          (keepTruthy (b_productId (body req)))
          (orElse (b_category (body req)) "uncategorized")
          [] "" (originalname f)
          false false None [] variants
          (default (Image.mkMetadata None None None None) (f_metadata f))
          0 None (now env) (now env)).

(** The state of the [for] loop over [req.files]. *)
Record BulkState := mkBulkState {
  bs_index : nat;
  bs_application : Application.t;
  bs_world : World;
  bs_results : list BulkItem;
  bs_errors : list string
}.

(** One iteration: a failure of this file is recorded and the loop goes
    on with the next one. *)
Definition bulkStep (env : Env) (req : Request) (ra : ReqApplication)
    (st : BulkState) (f : File) : BulkState :=
  let imageId := uuidv4 env (bs_index st) in
  let variants := buildVariants env f imageId in
  match newBulkImage env req f ra imageId variants
        ≫= (fun i => Image.save (now env) true i (images (bs_world st))) with
  | None =>
      mkBulkState (S (bs_index st)) (bs_application st) (bs_world st)
                  (bs_results st) (bs_errors st ++ [originalname f])%list
  | Some (image, imgs) =>
      let app := Application.recordUpload (f_size f) (bs_application st) in
      let accessToken :=
        jwt_sign env (accessPayload (Image.imageId image) (ra_id ra)) in
      mkBulkState (S (bs_index st)) app
        (mkWorld imgs
           (Application.update app (applications (bs_world st))))
        (bs_results st
         ++ [mkBulkItem image
               ("/api/images/" +:+ Image.imageId image
                +:+ "?token=" +:+ accessToken)
               accessToken])%list
        (bs_errors st)
  end.

Definition bulkUploadImages (env : Env) (w : World) (req : Request)
  : Response * World :=
  match files req with
  | [] => (fail 400 "No files uploaded", w)
  | _ =>
    match application req with
    | None => (fail 500 "Failed to process bulk upload", w)
    | Some ra =>
      match Application.findById (ra_id ra) (applications w) with
      | None => (fail 404 "Application not found", w)
      | Some app =>
        let totalSize := foldl (fun sum f => sum + f_size f) 0 (files req) in
        let '(canUpload, app) :=
          Application.canUpload (now env) (Some totalSize) app in
        if negb (Application.allowed canUpload) then
          (Json 413 false
             (QuotaFailure "Upload limits would be exceeded"
                (quotaDetails canUpload app false)
                (Application.remaining canUpload)), w)
        else
          let st :=
            foldl (bulkStep env req ra)
                  (mkBulkState 0 app w [] []) (files req) in
          (Json 201 true (BulkUploaded (bs_results st) (bs_errors st)),
           bs_world st)
      end
    end
  end.

(** *** getImage *)

(** [decoded.imageId === imageId] *)
Definition tokenNames (decoded : JwtPayload) (imageId : string) : bool :=
  Image.strictEq (jwt_imageId decoded) imageId.

(** The access check of getImage on a private image: [Some r] is the
    early [return res.status(..)], [None] lets the request through.  The
    bearer branch reads [req.userId] and [image.owner]; the Image schema
    has no [owner] path, so [image.owner.toString()] throws and the
    handler's [catch] answers 500. *)
Definition getImageDenial (env : Env) (req : Request) (image : Image.t)
  : option Response :=
  match keepTruthy (q_token (query req)) with
  | Some token =>
      match jwt_verify env token with
      | inr decoded =>
          if negb (tokenNames decoded (imageIdParam req))
          then Some (fail 403 "Invalid access token for this image")
          else None
      | inl _ => Some (fail 401 "Invalid or expired access token")
      end
  | None =>
      if negb (Image.truthy (userId req))
      then Some (fail 401
                   "Access token required or authenticate to access image")
      else Some (fail 500 "Failed to retrieve image")
  end.

(** The storage handle and MIME type of the requested size. *)
Definition resolveVariant (image : Image.t) (size : string)
  : option string * option string * string :=
  if negb (String.eqb size "original") then
    match Image.variants image !! size with
    | Some variant =>
        (Image.v_path variant, Image.v_s3Key variant, "image/webp")
    | None => (Some (Image.path image), Image.s3Key image,
               Image.mimetype image)
    end
  else (Some (Image.path image), Image.s3Key image, Image.mimetype image).

Definition serve (env : Env) (image : Image.t) (size : string) : Response :=
  let '(targetPath, targetS3Key, mimetype) := resolveVariant image size in
  if usesS3 env then Redirect (s3_getSignedUrl env targetS3Key)
  else
    match targetPath with
    | None => fail 500 "Failed to retrieve image"
    | Some p =>
        let imagePath := path_resolve env [p] in
        if fs_access env imagePath then SendFile imagePath mimetype
        else fail 404 "Image file not found on storage"
    end.

Definition getImage (env : Env) (w : World) (req : Request)
  : Response * World :=
  let imageId := imageIdParam req in
  let size := default "original" (q_size (query req)) in
  match Image.findLive imageId (images w) with
  | None => (fail 404 "Image not found", w)
  | Some image =>
      match (if Image.isPublic image then None
             else getImageDenial env req image) with
      | Some denial => (denial, w)
      | None =>
          match Image.recordAccess (now env) image (images w) with
          | None => (fail 500 "Failed to retrieve image", w)
          | Some (image, imgs) =>
              (serve env image size, mkWorld imgs (applications w))
          end
      end
  end.

(** *** deleteImage.  The removal of the files, scheduled with
    [setTimeout], touches the blob store only and is not part of the
    catalog state. *)
Definition deleteImage (env : Env) (w : World) (req : Request)
  : Response * World :=
  match application req with
  | None => (fail 500 "Failed to delete image", w)
  | Some ra =>
      match Image.findOwned (imageIdParam req) (ra_id ra) (images w) with
      | None => (fail 404 "Image not found or already deleted", w)
      | Some image =>
          match Image.softDelete (now env) image (images w) with
          | None => (fail 500 "Failed to delete image", w)
          | Some (_, imgs) =>
              (Json 200 true (Deleted "Image deleted successfully"),
               mkWorld imgs (applications w))
          end
      end
  end.

(** *** replaceImage *)
Definition replaceImage (env : Env) (w : World) (req : Request)
  : Response * World :=
  let imageId := imageIdParam req in
  match file req with
  | None => (fail 400 "No replacement file uploaded", w)
  | Some f =>
    match application req with
    | None => (fail 500 "Failed to replace image", w)
    | Some ra =>
      match Image.findOwned imageId (ra_id ra) (images w) with
      | None => (fail 404 "Image not found", w)
      | Some existingImage =>
        let archived :=
          Image.mkVersion (Image.filename existingImage)
            (Image.path existingImage) (Image.s3Key existingImage)
            (Some (Image.variants existingImage)) (now env) in
        let variants := buildVariants env f imageId in
        match
          md ← fileMetadata req;
          '(s3Key, url, path) ← storageFields env f;
          Image.save (now env) false
            (Image.mk (Image.imageId existingImage) (originalname f)
               (default "" (f_filename f)) (f_mimetype f) (f_size f)
               path
               (if usesS3 env then url else Image.url existingImage)
               (if usesS3 env then s3Key else Image.s3Key existingImage)
               (Image.application existingImage)
               (Image.entityId existingImage)
               (Image.entityType existingImage)
               (Image.productId existingImage)
               (Image.category existingImage) (Image.tags existingImage)
               (Image.alt existingImage) (Image.title existingImage)
               (Image.isPublic existingImage)
               (Image.isDeleted existingImage)
               (Image.deletedAt existingImage)
               (Image.versions existingImage ++ [archived])%list
               variants md
               (Image.accessCount existingImage)
               (Image.lastAccessedAt existingImage)
               (Image.createdAt existingImage)
               (Image.updatedAt existingImage))
            (images w)
        with
        | None => (fail 500 "Failed to replace image", w)
        | Some (image, imgs) =>
          let accessToken :=
            jwt_sign env (accessPayload (Image.imageId image) (ra_id ra)) in
          let base := "/api/images/" +:+ Image.imageId image in
          (Json 200 true
             (Replaced
                (mkReplaceData image variants
                   (base +:+ "?token=" +:+ accessToken) accessToken
                   (length (Image.versions image))
                   [("thumbnail", base +:+ "/thumbnail?token=" +:+ accessToken);
                    ("small", base +:+ "/small?token=" +:+ accessToken);
                    ("medium", base +:+ "/medium?token=" +:+ accessToken);
                    ("large", base +:+ "/large?token=" +:+ accessToken);
                    ("original", base +:+ "?token=" +:+ accessToken)])),
           mkWorld imgs (applications w))
        end
      end
    end
  end.

(** *** updateImageMetadata: only [category], [tags], [alt] and [title]
    are assignable; a field is assigned when it is not [undefined]. *)
Definition updateImageMetadata (env : Env) (w : World) (req : Request)
  : Response * World :=
  match application req with
  | None => (fail 500 "Failed to update image metadata", w)
  | Some ra =>
      match Image.findOwned (imageIdParam req) (ra_id ra) (images w) with
      | None => (fail 404 "Image not found", w)
      | Some image =>
          let image :=
            Image.mk (Image.imageId image) (Image.originalName image)
              (Image.filename image) (Image.mimetype image)
              (Image.size image) (Image.path image) (Image.url image)
              (Image.s3Key image) (Image.application image)
              (Image.entityId image) (Image.entityType image)
              (Image.productId image)
              (default (Image.category image) (b_category (body req)))
              (match b_tags (body req) with
               | None => Image.tags image
               | Some (TagsArray tags) => tags
               | Some (TagsString tags) => parseTags tags
               end)
              (default (Image.alt image) (b_alt (body req)))
              (default (Image.title image) (b_title (body req)))
              (Image.isPublic image) (Image.isDeleted image)
              (Image.deletedAt image) (Image.versions image)
              (Image.variants image) (Image.metadata image)
              (Image.accessCount image) (Image.lastAccessedAt image)
              (Image.createdAt image) (Image.updatedAt image) in
          match Image.save (now env) false image (images w) with
          | None => (fail 500 "Failed to update image metadata", w)
          | Some (image, imgs) =>
              (Json 200 true (MetadataUpdated image),
               mkWorld imgs (applications w))
          end
      end
  end.

(** *** getImageInfo *)

(** The outcome of the access check on a private image: an early answer,
    or [hasAccess] together with the token minted for the owner. *)
Definition infoAccess (env : Env) (req : Request) (image : Image.t)
  : Response + (bool * option string) :=
  match keepTruthy (q_token (query req)) with
  | Some token =>
      match jwt_verify env token with
      | inr decoded => inr (tokenNames decoded (imageIdParam req), None)
      | inl _ => inl (fail 401 "Invalid or expired access token")
      end
  | None =>
      match application req with
      | Some ra =>
          if Image.truthy (Some (ra_id ra)) then
            if String.eqb (Image.application image) (ra_id ra)
            then inr (true,
                      Some (jwt_sign env
                              (accessPayload (Image.imageId image) (ra_id ra))))
            else inr (false, None)
          else inr (false, None)
      | None => inr (false, None)
      end
  end.

Definition variantInfo (image : Image.t) : list (string * Image.Variant) :=
  (fun entry : string * Image.Variant =>
     let '(sizeName, variant) := entry in
     (sizeName,
      Image.mkVariant None None None (Image.v_size variant)
        (Image.v_width variant) (Image.v_height variant)
        (if Image.truthy (Image.v_format variant)
         then Image.v_format variant
         else if String.eqb sizeName "original"
              then Image.format (Image.metadata image)
              else Some "webp")))
  <$> map_to_list (Image.variants image).

Definition infoUrls (env : Env) (req : Request) (image : Image.t)
    (accessToken : option string) : list (string * string) :=
  let baseUrl :=
    req_protocol env +:+ "://" +:+ req_host env +:+ "/api/images/"
    +:+ Image.imageId image in
  if Image.isPublic image then
    (sizedUrls baseUrl ""
     ++ [("original", baseUrl); ("info", baseUrl +:+ "/info")])%list
  else
    let tokenParam :=
      match keepTruthy accessToken with
      | Some t => "token=" +:+ t
      | None =>
          match keepTruthy (q_token (query req)) with
          | Some t => "token=" +:+ t
          | None => ""
          end
      end in
    (sizedUrls baseUrl ("&" +:+ tokenParam)
     ++ [("original", baseUrl +:+ "?" +:+ tokenParam);
         ("info", baseUrl +:+ "/info"
                  +:+ (if String.eqb tokenParam "" then ""
                       else "?" +:+ tokenParam))])%list.

(** [select('-versions -__v')] only narrows what is loaded;
    [recordAccess] writes the two paths it modified, so the stored
    version history is kept. *)
Definition getImageInfo (env : Env) (w : World) (req : Request)
  : Response * World :=
  match Image.findLive (imageIdParam req) (images w) with
  | None => (fail 404 "Image not found", w)
  | Some image =>
      match (if Image.isPublic image then inr (true, None)
             else infoAccess env req image) with
      | inl denial => (denial, w)
      | inr (false, _) =>
          (fail 403
             "Access denied. Authentication required for private images.",
           w)
      | inr (true, accessToken) =>
          match Image.recordAccess (now env) image (images w) with
          | None => (fail 500 "Failed to retrieve image information", w)
          | Some (image, imgs) =>
              (Json 200 true
                 (Info (mkInfoData image (variantInfo image)
                          (infoUrls env req image accessToken)
                          (keepTruthy accessToken))),
               mkWorld imgs (applications w))
          end
      end
  end.

(** *** listImages *)

(** The filter document built from the query string; every listing is
    restricted to the caller's application and to [isDeleted: false]. *)
Definition matchesQuery (env : Env) (applicationId : string) (q : Query)
    (i : Image.t) : bool :=
  String.eqb (Image.application i) applicationId
  && negb (Image.isDeleted i)
  && match keepTruthy (q_entityId q) with
     | Some v => Image.strictEq (Image.entityId i) v
     | None => true
     end
  && match keepTruthy (q_entityType q) with
     | Some v => Image.strictEq (Image.entityType i) v
     | None => true
     end
  && match keepTruthy (q_productId q) with
     | Some v => Image.strictEq (Image.productId i) v
     | None => true
     end
  && match keepTruthy (q_category q) with
     | Some v => String.eqb (Image.category i) v
     | None => true
     end
  && match keepTruthy (q_tags q) with
     | Some v =>
         let tags := trim <$> split_on "," v in
         existsb (fun tag => bool_decide (tag ∈ tags)) (Image.tags i)
     | None => true
     end
  && match keepTruthy (q_search q) with
     | Some pattern =>
         regex_test env pattern (Image.originalName i)
         || regex_test env pattern (Image.title i)
         || regex_test env pattern (Image.alt i)
         || existsb (regex_test env pattern) (Image.tags i)
     | None => true
     end.

(** [a] may come before [b] under the requested sort option. *)
Definition sortLeb (sort : option string) (a b : Image.t) : bool :=
  let newestFirst := date_leb (Image.createdAt b) (Image.createdAt a) in
  match keepTruthy sort with
  | Some "name" => String.leb (Image.originalName a) (Image.originalName b)
  | Some "size" => Image.size b <=? Image.size a
  | Some "accessed" =>
      match Image.lastAccessedAt a, Image.lastAccessedAt b with
      | Some da, Some db => date_leb db da
      | Some _, None => true
      | None, Some _ => false
      | None, None => true
      end
  | Some "oldest" => date_leb (Image.createdAt a) (Image.createdAt b)
  | _ => newestFirst
  end.

Definition sortedBefore (sort : option string) : relation Image.t :=
  fun a b => sortLeb sort a b = true.

#[global] Instance sortedBefore_dec sort a b :
  Decision (sortedBefore sort a b).
Proof. unfold sortedBefore. apply _. Defined.

Definition listItem (env : Env) (ra : ReqApplication) (image : Image.t)
  : ListItem :=
  let accessToken :=
    jwt_sign env (accessPayload (Image.imageId image) (ra_id ra)) in
  let base := "/api/images/" +:+ Image.imageId image in
  mkListItem image (base +:+ "?token=" +:+ accessToken)
    (sizedUrls base ("&token=" +:+ accessToken)
     ++ [("original", base +:+ "?token=" +:+ accessToken)])%list.

(** [x || d] for a parsed integer: [NaN] and [0] give the default. *)
Definition intOr (x : option Z) (d : Z) : Z :=
  match x with
  | Some n => if n =? 0 then d else n
  | None => d
  end.

(** A negative [skip] is refused by the database; a negative [limit] is
    read as its absolute value. *)
Definition listImages (env : Env) (w : World) (req : Request)
  : Response * World :=
  let page := intOr (q_page (query req)) 1 in
  let limit := Z.min (intOr (q_limit (query req)) 20) 100 in
  let skip := (page - 1) * limit in
  match application req with
  | None => (fail 500 "Failed to retrieve images", w)
  | Some ra =>
      let found :=
        filter (fun i => matchesQuery env (ra_id ra) (query req) i = true)
               (map_to_list (images w)).*2 in
      if skip <? 0 then (fail 500 "Failed to retrieve images", w)
      else
        let sorted :=
          merge_sort (sortedBefore (q_sort (query req))) found in
        let shown :=
          take (Z.to_nat (Z.abs limit)) (drop (Z.to_nat skip) sorted) in
        (Json 200 true
           (Listed (listItem env ra <$> shown)
                   (mkPagination page limit (Z.of_nat (length found)))),
         w)
  end.

(** *** getCategories.  The answer is either an error envelope or the
    [categories] array of the 200 answer; [Image.distinct] yields each
    value once. *)
Definition getCategories (env : Env) (w : World) (req : Request)
  : Response + list string :=
  match application req with
  | None => inl (fail 500 "Failed to retrieve categories")
  | Some ra =>
      let categories :=
        remove_dups
          (Image.category
           <$> filter (fun i => Image.application i = ra_id ra
                                ∧ Image.isDeleted i = false)
                      (map_to_list (images w)).*2) in
      inr (filter (fun cat => cat ≠ "") categories)
  end.

End ImageController.

(** * routes/images.js

    Each route runs its authentication middleware and then its handler.  The
    other middleware of the chains (rate limits, CSRF check, validators,
    input sanitising, multer) either answer on their own, leaving both
    collections as they are, or hand the request on: a [Request] here is
    the request as they leave it. *)

Module Routes.

Inductive Route :=
| PostUpload
| PostBulkUpload
| GetList
| GetInfo
| GetImage
| PatchMetadata
| PutImage
| DeleteImage.

Definition Handler := Env -> World -> Request -> Response * World.

(** Behind [authenticateApplication]. *)
Definition protected (handler : Handler) : Handler :=
  fun env w req =>
    match Auth.authenticateApplication env (applications w) req with
    | inl answer => (answer, w)
    | inr req => handler env w req
    end.

(** Behind [optionalApplicationAuth]. *)
Definition open (handler : Handler) : Handler :=
  fun env w req =>
    handler env w (Auth.optionalApplicationAuth env (applications w) req).

Definition dispatch (route : Route) : Handler :=
  match route with
  | PostUpload => protected ImageController.uploadImage
  | PostBulkUpload => protected ImageController.bulkUploadImages
  | GetList => protected ImageController.listImages
  | GetInfo => open ImageController.getImageInfo
  | GetImage => open ImageController.getImage
  | PatchMetadata => protected ImageController.updateImageMetadata
  | PutImage => protected ImageController.replaceImage
  | DeleteImage => protected ImageController.deleteImage
  end.

(** A request as it enters the chain: nothing has authenticated it yet. *)
Definition incoming (req : Request) : Prop :=
  application req = None ∧ userId req = None.

(** One served request, and the service handling requests one after
    another. *)
Record Call := mkCall {
  c_env : Env;
  c_route : Route;
  c_request : Request
}.

Definition serveCall (w : World) (c : Call) : World :=
  (dispatch (c_route c) (c_env c) w (c_request c)).2.

Definition run (calls : list Call) (w : World) : World :=
  foldl serveCall w calls.

End Routes.

(** * middleware/upload.js *)

Module Upload.

Definition ALLOWED_MIME_TYPES : list string :=
  ["image/jpeg"; "image/jpg"; "image/png"; "image/webp"].

Definition allowedExt : list string := [".jpg"; ".jpeg"; ".png"; ".webp"].

Definition validFormats : list string := ["jpeg"; "png"; "webp"].

(** The character class [[a-zA-Z0-9.-]]. *)
Definition keptChar (c : ascii) : bool :=
  let n := nat_of_ascii c in
  (Nat.leb 65 n && Nat.leb n 90)
  || (Nat.leb 97 n && Nat.leb n 122)
  || (Nat.leb 48 n && Nat.leb n 57)
  || Nat.eqb n 46
  || Nat.eqb n 45.

(** [.replace(/[^a-zA-Z0-9.-]/g, '_')] *)
Definition replaceUnsafe (l : list ascii) : list ascii :=
  (fun c => if keptChar c then c else "_"%char) <$> l.

(** [.replace(/_{2,}/g, '_')] *)
Fixpoint collapseUnderscores (l : list ascii) : list ascii :=
  match l with
  | [] => []
  | c :: rest =>
      if Ascii.eqb c "_" then
        match rest with
        | c' :: _ =>
            if Ascii.eqb c' "_" then collapseUnderscores rest
            else c :: collapseUnderscores rest
        | [] => [c]
        end
      else c :: collapseUnderscores rest
  end.

Fixpoint dropUnderscores (l : list ascii) : list ascii :=
  match l with
  | [] => []
  | c :: rest => if Ascii.eqb c "_" then dropUnderscores rest else l
  end.

(** [.replace(/^_+|_+$/g, '')] *)
Definition trimUnderscores (l : list ascii) : list ascii :=
  rev (dropUnderscores (rev (dropUnderscores l))).

(** *** sanitizeFilename.  A JavaScript string is a sequence of UTF-16
    units and a [string] here a sequence of bytes; every unit or byte
    outside ASCII becomes an underscore and runs of underscores collapse,
    so the outcome is the same for both. *)
Definition sanitizeFilename (filename : string) : string :=
  string_of_list_ascii
    (take 100
       (trimUnderscores
          (collapseUnderscores
             (replaceUnsafe (list_ascii_of_string filename))))).

(** [s.includes(needle)] *)
Fixpoint includes (needle s : string) : bool :=
  String.prefix needle s
  || match s with
     | EmptyString => false
     | String _ rest => includes needle rest
     end.

Section Library.

(** [path.extname], [path.basename] with a suffix, and
    [String.prototype.toLowerCase]. *)
Variable extname : string -> string.
Variable basename : string -> string -> string.
Variable toLowerCase : string -> string.

(** *** generateUniqueFilename, for the identifier [uuid] that [uuidv4()]
    gives. *)
Definition generateUniqueFilename (uuid originalName : string) : string :=
  let ext := toLowerCase (extname originalName) in
  let sanitizedName := sanitizeFilename (basename originalName ext) in
  uuid +:+ "_" +:+ sanitizedName +:+ ext.

(** *** fileFilter: [None] is [cb(null, true)], [Some message] is
    [cb(new Error(message))]. *)
Definition fileFilter (file : File) : option string :=
  let ext := toLowerCase (extname (originalname file)) in
  if negb (bool_decide (ext ∈ allowedExt)) then
    Some "Invalid file extension. Only .jpg, .jpeg, .png, and .webp are allowed."
  else if negb (bool_decide (f_mimetype file ∈ ALLOWED_MIME_TYPES)) then
    Some "Invalid MIME type. Only image files are allowed."
  else if includes ".." (originalname file)
          || includes "/" (originalname file)
          || includes "\" (originalname file) then
    Some "Invalid filename. Path traversal attempts are not allowed."
  else None.

(** [sharp(imageInput).metadata()] on the buffer or the path of the file:
    [inl message] when it throws, [inr None] when it gives no metadata. *)
Variable sharp_metadata : File -> string + option Image.Metadata.

(** Whether multer kept the file in memory ([file.buffer]). *)
Variable hasBuffer : File -> bool.

(** *** validateFileType: [inl message] is the error it throws. *)
Definition validateFileType (file : File) : string + Image.Metadata :=
  if negb (bool_decide (f_mimetype file ∈ ALLOWED_MIME_TYPES)) then
    inl "Invalid file type. Only JPG, PNG, and WebP images are allowed."
  else if negb (hasBuffer file) && negb (Image.truthy (f_path file)) then
    inl "Invalid file data - no buffer or path available."
  else
    match sharp_metadata file with
    | inl message => inl message
    | inr None => inl "Invalid image file or corrupted data."
    | inr (Some metadata) =>
        if negb (Image.truthy (Image.format metadata)) then
          inl "Invalid image file or corrupted data."
        else if negb (bool_decide
                        (default "" (Image.format metadata) ∈ validFormats))
        then inl "Invalid image format detected."
        else inr metadata
    end.

(** What [upload.single('image')] hands to the callback of the
    middleware: a [MulterError] with its code, another error (the one of
    [fileFilter], for instance), or the parsed request with [req.file]. *)
Inductive MulterResult :=
| MulterError (code message : string)
| OtherError (message : string)
| Parsed (file : option File).

(** [uploadToS3(file, filename)]: [None] when [s3.upload] fails. *)
Variable uploadToS3 : File -> string -> option S3Info.

(** The text of the answer to a [MulterError], which renders
    [MAX_FILE_SIZE] in MB. *)
Variable multerText : string -> string -> string.

Definition withFile (f : File) (metadata : Image.Metadata) (req : Request)
  : Request :=
  mkRequest (authorization req) (imageIdParam req) (query req) (body req)
            (Some f) (files req) (Some metadata) (application req)
            (userId req).

(** *** uploadMiddleware, for the identifier [uuid] drawn when the file
    goes to S3: it answers 400 itself or hands the request on with
    [req.file] and [req.fileMetadata] set. *)
Definition uploadMiddleware (env : Env) (uuid : string)
    (multer : MulterResult) (req : Request) : Response + Request :=
  match multer with
  | MulterError code message => inl (fail 400 (multerText code message))
  | OtherError message => inl (fail 400 message)
  | Parsed None =>
      inl (fail 400 "No file provided. Please upload an image file.")
  | Parsed (Some f) =>
      match validateFileType f with
      | inl message => inl (fail 400 message)
      | inr metadata =>
          if usesS3 env then
            let uniqueFilename := generateUniqueFilename uuid (originalname f) in
            match uploadToS3 f uniqueFilename with
            | None => inl (fail 400 "Failed to upload file to cloud storage.")
            | Some s3Result =>
                inr (withFile
                       (mkFile (originalname f) (Some uniqueFilename)
                          (f_mimetype f) (f_size f) (f_path f) (Some s3Result)
                          (f_metadata f))
                       metadata req)
            end
          else inr (withFile f metadata req)
      end
  end.

End Library.

End Upload.

(** * middleware/security.js: the CSRF check of the writing routes

    [method] is [req.method]; [headerToken] and [bodyToken] are
    [req.headers['x-csrf-token']] and [req.body._token].  [None]: the
    request goes on. *)
Definition csrfProtection (req : Request) (method : string)
    (headerToken bodyToken : option string) : option Response :=
  if Image.truthy (authorization req) then None
  else
    let csrfToken :=
      if Image.truthy headerToken then headerToken else bodyToken in
    if bool_decide (method ∈ ["POST"; "PUT"; "DELETE"])
       && negb (Image.truthy csrfToken)
    then Some (fail 403 "CSRF token required for this operation")
    else None.

(** * A small deployment used to run the handlers on concrete requests *)

Module Example.

Definition march : Date := mkDate 2024 2 1000.
Definition april : Date := mkDate 2024 3 5000.

(** A toy token format: ["app:<id>"] is a bearer token of application
    [<id>], ["img:<imageId>"] an access token of that image, ["old"] an
    expired token; anything else has a bad signature. *)
Definition verify (token : string) : JwtError + JwtPayload :=
  match token with
  | String "a" (String "p" (String "p" (String ":" id))) =>
      inr (mkJwt (Some "application") (Some id) None None)
  | String "i" (String "m" (String "g" (String ":" id))) =>
      inr (mkJwt None None (Some id) None)
  | "old" => inl TokenExpiredError
  | _ => inl JsonWebTokenError
  end.

Definition sign (p : JwtPayload) : string :=
  "img:" +:+ default "" (jwt_imageId p).

(** Local storage; [sharpWorks] tells whether the encoder succeeds. *)
Definition env (now : Date) (sharpWorks : bool) (id : string) : Env :=
  mkEnv now None None
    (fun n => Nat.iter n (fun s => s +:+ "x") id)
    verify sign
    (String.concat "/")
    (fun p => p)
    (String.concat "/")
    (fun _ => true)
    (fun _ => true)
    (fun _ w h _ => if sharpWorks then Some (mkRendered 1000 w h) else None)
    (fun _ => true)
    (fun _ w h => if sharpWorks then Some (mkRendered 1000 w h) else None)
    (fun key => Some ("https://bucket/" +:+ key))
    (fun key => "https://signed/" +:+ default "" key)
    (fun pattern subject => String.eqb pattern subject)
    "http" "localhost:5000".

Definition acme : Application.t :=
  Application.mk "acme" "acme" None "acme.test" ["https://acme.test"]
    (Some "ak_1") (Some "$2a$12$hash") true "free"
    Application.defaultLimits (Application.defaultUsage march)
    (Application.mkSettings true true 85 ["jpeg"; "png"; "webp"])
    [] false None.

Definition globex : Application.t :=
  Application.mk "globex" "globex" None "globex.test" ["https://globex.test"]
    (Some "ak_2") (Some "$2a$12$other") true "free"
    Application.defaultLimits (Application.defaultUsage march)
    (Application.mkSettings true true 85 ["jpeg"; "png"; "webp"])
    [] false None.

(** [acme] some uploads later, last reset in March. *)
Definition busy : Application.t :=
  Application.set_usage (Application.mkUsage 5 500 5 march) acme.

Definition world0 : World :=
  mkWorld ∅ (<["acme" := acme]> (<["globex" := globex]> ∅)).

Definition noBody : Body := mkBody None None None None None None None.
Definition noQuery : Query :=
  mkQuery None None None None None None None None None None None.

Definition photo : File :=
  mkFile "cat.jpg" (Some "u1_cat.jpg") "image/jpeg" 1048576
         (Some "uploads/u1_cat.jpg") None None.

Definition photoMetadata : Image.Metadata :=
  Image.mkMetadata (Some 800) (Some 600) (Some "jpeg") (Some false).

(** An upload of [photo] by the holder of bearer token [bearer]. *)
Definition uploadRequest (bearer : string) (category : option string)
  : Request :=
  mkRequest (Some ("Bearer " +:+ bearer)) ""
    noQuery (mkBody None None category None None None None)
    (Some photo) [] (Some photoMetadata) None None.

(** A read of image [id], with an optional bearer and an optional
    [?token=]. *)
Definition readRequest (id : string) (bearer token : option string)
  : Request :=
  mkRequest ((fun b => "Bearer " +:+ b) <$> bearer) id
    (mkQuery token None None None None None None None None None None)
    noBody None [] None None None.

Definition metadataRequest (id bearer : string) (category : option string)
  : Request :=
  mkRequest (Some ("Bearer " +:+ bearer)) id noQuery
    (mkBody None None category None None None None)
    None [] None None None.

(** [acme] has uploaded one private image, ["p1"], at a moment when the
    encoder was failing. *)
Definition world1 : World :=
  (Routes.dispatch Routes.PostUpload (env march false "p1") world0
     (uploadRequest "app:acme" (Some "personal"))).2.

Definition p1 : Image.t :=
  Image.mk "p1" "cat.jpg" "u1_cat.jpg" "image/jpeg" 1048576
    "uploads/u1_cat.jpg" None None "acme" None None None "personal" [] ""
    "cat.jpg" false false None [] ∅ photoMetadata 0 None march march.

(** [acme] has also uploaded ["p2"], in category "product" ... *)
Definition world2 : World :=
  (Routes.dispatch Routes.PostUpload (env march false "p2") world1
     (uploadRequest "app:acme" (Some "product"))).2.

(** The request of that upload as the handler receives it, and the
    record it builds. *)
Definition authenticated (a : Application.t) (req : Request) : Request :=
  Auth.set_application (Auth.describe a) req.

Definition p2_draft : Image.t :=
  Image.mk "p2" "cat.jpg" "u1_cat.jpg" "image/jpeg" 1048576
    "uploads/u1_cat.jpg" None None "acme" None None None "product" [] ""
    "cat.jpg" false false None [] ∅ photoMetadata 0 None march march.

Definition p2 : Image.t :=
  Image.mk "p2" "cat.jpg" "u1_cat.jpg" "image/jpeg" 1048576
    "uploads/u1_cat.jpg" None None "acme" None None None "product" [] ""
    "cat.jpg" true false None [] ∅ photoMetadata 0 None march march.

Definition p2_moved : Image.t :=
  Image.mk "p2" "cat.jpg" "u1_cat.jpg" "image/jpeg" 1048576
    "uploads/u1_cat.jpg" None None "acme" None None None "personal" [] ""
    "cat.jpg" true false None [] ∅ photoMetadata 0 None march april.

(** ... and has then moved it to category "personal". *)
Definition world3 : World :=
  (Routes.dispatch Routes.PatchMetadata (env april true "") world2
     (metadataRequest "p2" "app:acme" (Some "personal"))).2.

End Example.

(** * Vocabulary of the properties *)

(** The calendar month of [now] is not the month of the last reset. *)
Definition newMonth (now : Date) (a : Application.t) : Prop :=
  getMonth now ≠ getMonth (Application.lastResetDate (Application.usage a))
  ∨ getFullYear now
    ≠ getFullYear (Application.lastResetDate (Application.usage a)).

#[global] Instance newMonth_dec now a : Decision (newMonth now a).
Proof. unfold newMonth. apply _. Defined.

(** The calls a pipeline makes on the ledger of one tenant. *)
Inductive LedgerOp :=
| CanUpload (now : Date) (fileSize : option Z)
| RecordUpload (fileSize : Z).

Definition applyOp (a : Application.t) (op : LedgerOp) : Application.t :=
  match op with
  | CanUpload now fileSize => (Application.canUpload now fileSize a).2
  | RecordUpload fileSize => Application.recordUpload fileSize a
  end.

(** The byte sizes of the recorded uploads, in order. *)
Definition recorded (ops : list LedgerOp) : list Z :=
  omap (fun op => match op with
                  | RecordUpload s => Some s
                  | CanUpload _ _ => None
                  end) ops.

Definition sumZ (l : list Z) : Z := foldr Z.add 0 l.

(** The visibility heuristic in the words of the specification. *)
Definition publicCategories : list string :=
  ["product"; "electronics"; "clothing"; "accessories"].

Definition productCondition (i : Image.t) : Prop :=
  Image.entityType i = Some "product"
  ∨ Image.category i ∈ publicCategories
  ∨ ∃ p, Image.productId i = Some p ∧ p ≠ "".

(** Both collections are keyed by the field their unique index is on. *)
Definition keyedImages (db : gmap string Image.t) : Prop :=
  ∀ k i, db !! k = Some i → Image.imageId i = k.

Definition keyedApplications (db : gmap string Application.t) : Prop :=
  ∀ k a, db !! k = Some a → Application._id a = k.

Definition keyed (w : World) : Prop :=
  keyedImages (images w) ∧ keyedApplications (applications w).

(** Every asset of [db] is still in [db'], under the same identifier and
    owner, and neither its public flag nor its soft-delete flag has been
    taken back. *)
Definition advances (db db' : gmap string Image.t) : Prop :=
  ∀ k i, db !! k = Some i →
    ∃ i', db' !! k = Some i'
          ∧ Image.application i' = Image.application i
          ∧ (Image.isPublic i = true → Image.isPublic i' = true)
          ∧ (Image.isDeleted i = true → Image.isDeleted i' = true).

(** Asset [id] has been soft-deleted. *)
Definition softDeleted (id : string) (w : World) : Prop :=
  ∃ i, images w !! id = Some i ∧ Image.isDeleted i = true.

(** The identifiers a listing answer shows. *)
Definition listedIds (r : Response) : list string :=
  match r with
  | Json _ _ (Listed items _) => (fun it => Image.imageId (li_image it)) <$> items
  | _ => []
  end.

(** One write to the image collection: the insertion of a new document,
    or the update of a stored one by an edit that keeps its identifier and
    owner and takes back neither flag. *)
Inductive saved (db : gmap string Image.t) : gmap string Image.t → Prop :=
| saved_new now i i' db' :
    Image.save now true i db = Some (i', db') → saved db db'
| saved_edit now k old i i' db' :
    db !! k = Some old →
    Image.imageId i = Image.imageId old →
    Image.application i = Image.application old →
    (Image.isPublic old = true → Image.isPublic i = true) →
    (Image.isDeleted old = true → Image.isDeleted i = true) →
    Image.save now false i db = Some (i', db') →
    saved db db'.

(** The variant generation of an upload of [f] under identifier [imageId]
    throws. *)
Definition variantGenerationThrows (env : Env) (f : File) (imageId : string)
  : Prop :=
  (if usesS3 env then
     s3 ← f_s3 f;
     ImageController.generateS3ImageVariants env (s3_key s3) imageId
   else
     p ← f_path f;
     ImageController.generateImageVariants env p imageId) = None.

(** The two collections after a request, against the two before: the
    keying is kept and no asset is lost or has a flag taken back. *)
Definition evolves (w w' : World) : Prop :=
  keyed w → keyed w' ∧ advances (images w) (images w').

(** The byte sizes of the uploads a response reports as accepted for
    tenant [tenant]: the asset of a single upload, the uploaded items of a
    bulk upload. *)
Definition acceptedBy (tenant : string) (r : Response) : list Z :=
  match r with
  | Json _ _ (Uploaded d) =>
      if String.eqb (Image.application (u_image d)) tenant
      then [Image.size (u_image d)] else []
  | Json _ _ (BulkUploaded items _) =>
      Image.size
      <$> filter (fun i => Image.application i = tenant) (bi_image <$> items)
  | _ => []
  end.

(** The sizes accepted for [tenant] while the service handles [calls] one
    after another from [w]. *)
Fixpoint accepted (tenant : string) (calls : list Routes.Call) (w : World)
  : list Z :=
  match calls with
  | [] => []
  | c :: calls =>
      let answer :=
        Routes.dispatch (Routes.c_route c) (Routes.c_env c) w
                        (Routes.c_request c) in
      (acceptedBy tenant answer.1 ++ accepted tenant calls answer.2)%list
  end.

(** The two running totals of a tenant. *)
Definition totals (a : Application.t) : Z * Z :=
  (Application.totalStorageUsed (Application.usage a),
   Application.totalImages (Application.usage a)).

(** [totals] grown by the uploads of sizes [sizes]. *)
Definition grown (before : Z * Z) (sizes : list Z) : Z * Z :=
  (before.1 + sumZ sizes, before.2 + Z.of_nat (length sizes)).

(** The answer is an error envelope. *)
Definition refused (r : Response) : Prop :=
  match r with
  | Json _ false (Failure _) => True
  | Json _ false (QuotaFailure _ _ _) => True
  | _ => False
  end.

(** What one answered request does to the ledger of [tenant]. *)
Definition accounted (tenant : string) (w : World) (answer : Response * World)
  : Prop :=
  ∀ a, applications w !! tenant = Some a →
    ∃ a', applications answer.2 !! tenant = Some a'
          ∧ totals a' = grown (totals a) (acceptedBy tenant answer.1).

(** The record [recordAccess] leaves for [image]. *)
Definition accessed (now : Date) (image : Image.t) : Image.t :=
  match Image.recordAccess now image ∅ with
  | Some (image', _) => image'
  | None => image
  end.

(** One write to the image collection, with what it does to the history
    of the record it touches: an insertion, or the update of a live record
    that keeps its identifier and creation date, does not lower its access
    counter and only appends to its version history. *)
Inductive written (db : gmap string Image.t) : gmap string Image.t → Prop :=
| written_new now i i' db' :
    Image.save now true i db = Some (i', db') → written db db'
| written_edit now k old i i' db' :
    db !! k = Some old →
    Image.isDeleted old = false →
    Image.imageId i = Image.imageId old →
    Image.createdAt i = Image.createdAt old →
    Image.accessCount old ≤ Image.accessCount i →
    Image.versions old `prefix_of` Image.versions i →
    Image.save now false i db = Some (i', db') →
    written db db'.

(** Every record of [db] is still in [db'] with the same creation date, an
    access counter that is not lower and a version history that extends
    the one it had; a soft-deleted record is there as it was. *)
Definition keeps (db db' : gmap string Image.t) : Prop :=
  ∀ k i, db !! k = Some i →
    ∃ i', db' !! k = Some i'
          ∧ Image.createdAt i' = Image.createdAt i
          ∧ Image.accessCount i ≤ Image.accessCount i'
          ∧ Image.versions i `prefix_of` Image.versions i'
          ∧ (Image.isDeleted i = true → i' = i).

Definition remembers (w w' : World) : Prop :=
  keyed w → keyed w' ∧ keeps (images w) (images w').

(** The application a request is authenticated as on a protected
    route. *)
Definition caller (env : Env) (w : World) (req : Request) : option string :=
  match Auth.authenticateApplication env (applications w) req with
  | inr req' => ra_id <$> application req'
  | inl _ => None
  end.

(** Two records hold the same file. *)
Definition sameFile (a b : Image.t) : Prop :=
  Image.originalName a = Image.originalName b
  ∧ Image.filename a = Image.filename b
  ∧ Image.mimetype a = Image.mimetype b
  ∧ Image.size a = Image.size b
  ∧ Image.path a = Image.path b
  ∧ Image.url a = Image.url b
  ∧ Image.s3Key a = Image.s3Key b
  ∧ Image.variants a = Image.variants b
  ∧ Image.metadata a = Image.metadata b.

(** ... are the same asset of the same application, attached to the same
    entity and product. *)
Definition sameAssociation (a b : Image.t) : Prop :=
  Image.imageId a = Image.imageId b
  ∧ Image.application a = Image.application b
  ∧ Image.entityId a = Image.entityId b
  ∧ Image.entityType a = Image.entityType b
  ∧ Image.productId a = Image.productId b.

(** ... carry the same descriptive fields. *)
Definition sameLabels (a b : Image.t) : Prop :=
  Image.category a = Image.category b
  ∧ Image.tags a = Image.tags b
  ∧ Image.alt a = Image.alt b
  ∧ Image.title a = Image.title b.

(** ... have the same access telemetry and creation date. *)
Definition sameTelemetry (a b : Image.t) : Prop :=
  Image.accessCount a = Image.accessCount b
  ∧ Image.lastAccessedAt a = Image.lastAccessedAt b
  ∧ Image.createdAt a = Image.createdAt b.

(** Two application documents are the same account: they agree on every
    path but [usage]. *)
Definition sameAccount (a b : Application.t) : Prop :=
  Application._id a = Application._id b
  ∧ Application.name a = Application.name b
  ∧ Application.description a = Application.description b
  ∧ Application.domain a = Application.domain b
  ∧ Application.allowedOrigins a = Application.allowedOrigins b
  ∧ Application.apiKey a = Application.apiKey b
  ∧ Application.apiSecret a = Application.apiSecret b
  ∧ Application.isActive a = Application.isActive b
  ∧ Application.plan a = Application.plan b
  ∧ Application.limits a = Application.limits b
  ∧ Application.settings a = Application.settings b
  ∧ Application.refreshTokens a = Application.refreshTokens b.

(** The application collection [apps'] holds the accounts of [apps] and
    no other: each with the same paths but [usage], whose image count has
    not gone down. *)
Definition settled (apps apps' : gmap string Application.t) : Prop :=
  ∀ id,
    match apps !! id with
    | Some a =>
        ∃ a', apps' !! id = Some a'
              ∧ sameAccount a' a
              ∧ Application.totalImages (Application.usage a)
                ≤ Application.totalImages (Application.usage a')
    | None => apps' !! id = None
    end.

Definition steady (w w' : World) : Prop :=
  keyedApplications (applications w) →
  keyedApplications (applications w')
  ∧ settled (applications w) (applications w').

(** The usage of [a] is within the limits of its plan. *)
Definition withinQuota (a : Application.t) : Prop :=
  Application.totalStorageUsed (Application.usage a)
  ≤ Application.maxStorageSize (Application.limits a)
  ∧ Application.currentMonthUploads (Application.usage a)
    ≤ Application.maxImagesPerMonth (Application.limits a).


(** The characters [l] hold two consecutive underscores. *)
Definition doubled (l : list ascii) : Prop :=
  ∃ l1 l2, l = (l1 ++ "_"%char :: "_"%char :: l2)%list.

(** * Properties of the tenant ledger *)

Section Ledger.
Import Application.

Lemma resetMonthlyUsage_new now a :
  newMonth now a →
  usage (resetMonthlyUsage now a)
  = mkUsage (totalImages (usage a)) (totalStorageUsed (usage a)) 0 now.
Proof.
  intros H. unfold resetMonthlyUsage.
  destruct (negb _ || negb _) eqn:E; [done|].
  apply orb_false_iff in E as [E1 E2].
  apply negb_false_iff, Z.eqb_eq in E1, E2.
  destruct H; congruence.
Qed.

Lemma resetMonthlyUsage_same now a :
  ¬ newMonth now a → resetMonthlyUsage now a = a.
Proof.
  intros H. unfold resetMonthlyUsage.
  destruct (negb _ || negb _) eqn:E; [|done].
  exfalso. apply H. unfold newMonth.
  apply orb_true_iff in E as [E|E]; apply negb_true_iff, Z.eqb_neq in E;
    auto.
Qed.

Lemma resetMonthlyUsage_totals now a :
  totalImages (usage (resetMonthlyUsage now a)) = totalImages (usage a)
  ∧ totalStorageUsed (usage (resetMonthlyUsage now a))
    = totalStorageUsed (usage a)
  ∧ limits (resetMonthlyUsage now a) = limits a
  ∧ _id (resetMonthlyUsage now a) = _id a.
Proof. unfold resetMonthlyUsage. by destruct (negb _ || negb _). Qed.

Lemma canUpload_doc now fileSize a :
  (canUpload now fileSize a).2 = resetMonthlyUsage now a.
Proof. reflexivity. Qed.

(** C7.  [canUpload] is a total function (it cannot throw); each reason
    is the outcome of its own comparison, [allowed] is their conjunction,
    and a candidate larger than [maxFileSize] is refused whatever the
    monthly and storage budgets are. *)
Theorem canUpload_verdict (now : Date) (fileSize : option Z) (a : t) :
  let v := (canUpload now fileSize a).1 in
  let a' := (canUpload now fileSize a).2 in
  allowed v
  = monthlyLimit (reasons v) && storageLimit (reasons v)
    && fileSizeLimit (reasons v)
  ∧ monthlyLimit (reasons v)
    = (currentMonthUploads (usage a') <? maxImagesPerMonth (limits a))
  ∧ storageLimit (reasons v)
    = (totalStorageUsed (usage a) + default 0 fileSize
       <=? maxStorageSize (limits a))
  ∧ fileSizeLimit (reasons v)
    = (default 0 fileSize <=? maxFileSize (limits a))
  ∧ (maxFileSize (limits a) < default 0 fileSize →
     fileSizeLimit (reasons v) = false ∧ allowed v = false).
Proof.
  destruct (resetMonthlyUsage_totals now a) as (_ & Hs & Hl & _).
  cbn. rewrite Hs, Hl. repeat split; try reflexivity.
  - by apply Z.leb_gt.
  - replace (_ <=? maxFileSize _) with false by (symmetry; by apply Z.leb_gt).
    by rewrite andb_false_r.
Qed.

(** C4, as the code has it.  [canUpload] zeroes the monthly counter and
    stamps [lastResetDate] when it runs in a new calendar month, never
    touches the two totals, changes nothing when the month and year
    match (so a second call in the same month resets nothing), and
    [recordUpload] performs no reset at all: it adds one to the monthly
    counter and keeps [lastResetDate]. *)
Theorem monthly_reset_in_canUpload (now : Date) (fileSize : option Z)
    (a : t) :
  let a' := (canUpload now fileSize a).2 in
  (newMonth now a →
   currentMonthUploads (usage a') = 0 ∧ lastResetDate (usage a') = now)
  ∧ (¬ newMonth now a → a' = a)
  ∧ totalStorageUsed (usage a') = totalStorageUsed (usage a)
  ∧ totalImages (usage a') = totalImages (usage a)
  ∧ (∀ later size, ¬ newMonth later a' →
       (canUpload later size a').2 = a')
  ∧ (∀ size,
       currentMonthUploads (usage (recordUpload size a))
       = currentMonthUploads (usage a) + 1
       ∧ lastResetDate (usage (recordUpload size a))
         = lastResetDate (usage a)).
Proof.
  cbv zeta. rewrite !canUpload_doc.
  destruct (resetMonthlyUsage_totals now a) as (Hi & Hs & _ & _).
  split_and!.
  - intros H. by rewrite (resetMonthlyUsage_new _ _ H).
  - apply resetMonthlyUsage_same.
  - done.
  - done.
  - intros later size H. rewrite canUpload_doc.
    by apply resetMonthlyUsage_same.
  - done.
Qed.

Lemma applyOp_totals a op :
  totalStorageUsed (usage (applyOp a op))
  = totalStorageUsed (usage a) + sumZ (recorded [op])
  ∧ totalImages (usage (applyOp a op))
    = totalImages (usage a) + Z.of_nat (length (recorded [op])).
Proof.
  destruct op as [now fileSize|fileSize]; unfold applyOp.
  - rewrite canUpload_doc.
    destruct (resetMonthlyUsage_totals now a) as (-> & -> & _). cbn. lia.
  - cbn. lia.
Qed.

Lemma ledger_totals ops : ∀ a,
  totalStorageUsed (usage (foldl applyOp a ops))
  = totalStorageUsed (usage a) + sumZ (recorded ops)
  ∧ totalImages (usage (foldl applyOp a ops))
    = totalImages (usage a) + Z.of_nat (length (recorded ops)).
Proof.
  induction ops as [|op ops IH]; intros a; cbn; [lia|].
  destruct (IH (applyOp a op)) as [-> ->].
  destruct (applyOp_totals a op) as [-> ->].
  destruct op; unfold recorded, sumZ; cbn; lia.
Qed.

(** The ledger on its own: from fresh counters, whatever admission
    checks are interleaved, the storage total is the sum of the recorded
    sizes and the image total is their number. *)
Lemma usage_after_uploads (a : t) (ops : list LedgerOp) :
  totalStorageUsed (usage a) = 0 →
  totalImages (usage a) = 0 →
  totalStorageUsed (usage (foldl applyOp a ops)) = sumZ (recorded ops)
  ∧ totalImages (usage (foldl applyOp a ops))
    = Z.of_nat (length (recorded ops)).
Proof.
  intros Hs Hi. destruct (ledger_totals ops a) as [-> ->]. lia.
Qed.

Lemma canUpload_verdict_witness :
  maxFileSize (limits Example.acme) < default 0 (Some 6000000)
  ∧ allowed (canUpload Example.march (Some 6000000) Example.acme).1 = false.
Proof.
  assert (maxFileSize (limits Example.acme) < default 0 (Some 6000000))
    as Hlt by (cbn; lia).
  split; [exact Hlt|].
  destruct (canUpload_verdict Example.march (Some 6000000) Example.acme)
    as (_ & _ & _ & _ & Hbig).
  exact (proj2 (Hbig Hlt)).
Defined.

Lemma monthly_reset_in_canUpload_witness :
  newMonth Example.april Example.busy
  ∧ currentMonthUploads
      (usage (canUpload Example.april (Some 10) Example.busy).2) = 0.
Proof.
  assert (newMonth Example.april Example.busy) as Hnew
    by (left; cbn; lia).
  split; [exact Hnew|].
  destruct (monthly_reset_in_canUpload Example.april (Some 10) Example.busy)
    as (Hreset & _).
  exact (proj1 (Hreset Hnew)).
Defined.

(** The reading of C4 that fails: in April, with the last reset in March,
    [recordUpload] neither zeroes the monthly counter nor moves
    [lastResetDate]. *)
Lemma recordUpload_keeps_stale_month :
  newMonth Example.april Example.busy
  ∧ currentMonthUploads (usage (recordUpload 10 Example.busy)) = 6
  ∧ lastResetDate (usage (recordUpload 10 Example.busy)) = Example.march
  ∧ Example.march ≠ Example.april.
Proof.
  split_and!; [left; cbn; lia|reflexivity|reflexivity|discriminate].
Qed.

Lemma usage_after_uploads_witness :
  let ops := [CanUpload Example.march (Some 10); RecordUpload 10;
              CanUpload Example.april None; RecordUpload 20] in
  totalStorageUsed (usage (foldl applyOp Example.acme ops)) = 30
  ∧ totalImages (usage (foldl applyOp Example.acme ops)) = 2.
Proof.
  exact (usage_after_uploads Example.acme
           [CanUpload Example.march (Some 10); RecordUpload 10;
            CanUpload Example.april None; RecordUpload 20]
           eq_refl eq_refl).
Defined.

End Ledger.

(** * Properties of the Application document *)

Section Secrets.
Import Application.

Lemma js_get_delete_eq key obj : js_get key (js_delete key obj) = None.
Proof.
  induction obj as [|[k v] obj IH]; [done|].
  unfold js_delete in *. rewrite filter_cons. cbn.
  destruct (decide (k ≠ key)) as [Hne|Heq]; [|done].
  cbn. by rewrite decide_False.
Qed.

Lemma js_get_delete_ne key key' obj :
  key ≠ key' → js_get key' (js_delete key obj) = js_get key' obj.
Proof.
  intros Hne. induction obj as [|[k v] obj IH]; [done|].
  unfold js_delete in *. rewrite filter_cons. cbn.
  destruct (decide (k ≠ key)) as [Hk|Hk]; cbn.
  - by rewrite IH.
  - apply dec_stable in Hk. subst k. by rewrite decide_False.
Qed.

Lemma js_keys_delete key obj : key ∉ js_keys (js_delete key obj).
Proof.
  unfold js_keys, js_delete. rewrite list_elem_of_fmap.
  intros ([k v] & -> & Hin). apply list_elem_of_filter in Hin as [Hne _].
  by apply Hne.
Qed.

Lemma js_keys_delete_subseteq key obj :
  js_keys (js_delete key obj) ⊆ js_keys obj.
Proof.
  unfold js_keys, js_delete. intros k. rewrite !list_elem_of_fmap.
  intros (kv & -> & Hin). apply list_elem_of_filter in Hin as [_ Hin].
  eauto.
Qed.

(** C10.  The JSON form of an Application carries neither [apiSecret] nor
    [refreshTokens] and keeps every other path of [toObject]; for a new
    document the hook stores [bcrypt.hash] of the generated secret and
    keeps the plaintext in [_plainSecret] only; a document that is not
    new goes through the hook unchanged; and what the collection holds,
    and returns on a later look-up, has no [_plainSecret]. *)
Theorem secrets_stay_out_of_json
    (bcrypt_hash : string → string → string) (e : Entropy) (a : t)
    (db : gmap string t) :
  js_get "apiSecret" (toJSON a) = None
  ∧ js_get "refreshTokens" (toJSON a) = None
  ∧ ("apiSecret" ∉ js_keys (toJSON a))
  ∧ ("refreshTokens" ∉ js_keys (toJSON a))
  ∧ ("_plainSecret" ∉ js_keys (toJSON a))
  ∧ (∀ key, key ≠ "apiSecret" → key ≠ "refreshTokens" →
       js_get key (toJSON a) = js_get key (toObject a))
  ∧ (isNew a = true →
     apiSecret (preSave bcrypt_hash e a)
     = Some (bcrypt_hash (secretHex e) (salt e))
     ∧ _plainSecret (preSave bcrypt_hash e a) = Some (secretHex e))
  ∧ (isNew a = false → preSave bcrypt_hash e a = a)
  ∧ (∀ id found,
       findById id (save bcrypt_hash e a db).2 = Some found →
       _plainSecret found = None)
  ∧ (isNew a = true →
     ∃ kept,
       findById (_id a) (save bcrypt_hash e a db).2 = Some kept
       ∧ apiSecret kept = Some (bcrypt_hash (secretHex e) (salt e))).
Proof.
  split_and!.
  - unfold toJSON. rewrite js_get_delete_ne by done.
    apply js_get_delete_eq.
  - apply js_get_delete_eq.
  - intros Hin. apply js_keys_delete_subseteq in Hin.
    by apply js_keys_delete in Hin.
  - apply js_keys_delete.
  - intros Hin. do 2 apply js_keys_delete_subseteq in Hin. cbn in Hin.
    repeat (apply elem_of_cons in Hin as [Hin|Hin]; [discriminate|]).
    by apply elem_of_nil in Hin.
  - intros key H1 H2. unfold toJSON.
    by rewrite !js_get_delete_ne by done.
  - intros Hnew. unfold preSave. by rewrite Hnew.
  - intros Hnew. unfold preSave. by rewrite Hnew.
  - intros id found. unfold findById.
    destruct (_ !! id) as [s|]; [|done]. cbn. by intros [= <-].
  - intros Hnew. unfold findById, save, preSave. rewrite Hnew. cbn.
    rewrite lookup_insert_eq. cbn. eauto.
Qed.

Lemma secrets_stay_out_of_json_witness :
  let fresh :=
    mk "initech" "initech" None "initech.test" [] None None true "free"
       defaultLimits (defaultUsage Example.march)
       (mkSettings true true 85 []) [] true None in
  let hash := fun secret salt => "$2a$12$" +:+ salt +:+ secret in
  let e := mkEntropy "00ff" "5ec2e7" "NaCl" in
  isNew fresh = true
  ∧ apiSecret (preSave hash e fresh) = Some "$2a$12$NaCl5ec2e7"
  ∧ js_get "apiSecret" (toJSON (preSave hash e fresh)) = None.
Proof.
  intros fresh hash e.
  destruct (secrets_stay_out_of_json hash e fresh ∅)
    as (_ & _ & _ & _ & _ & _ & Hhash & _).
  destruct (secrets_stay_out_of_json hash e (preSave hash e fresh) ∅)
    as (Hjson & _).
  split; [reflexivity|]. split; [exact (proj1 (Hhash eq_refl))|exact Hjson].
Defined.

End Secrets.

(** * Properties of the Image document *)

Section Visibility.

Lemma strictEq_spec o s : Image.strictEq o s = true ↔ o = Some s.
Proof.
  destruct o as [s'|]; cbn; [|done].
  rewrite String.eqb_eq. split; congruence.
Qed.

Lemma truthy_spec o : Image.truthy o = true ↔ ∃ p, o = Some p ∧ p ≠ "".
Proof.
  destruct o as [p|]; cbn.
  - rewrite negb_true_iff, String.eqb_neq. split.
    + intros Hp. by exists p.
    + by intros (p' & [= <-] & Hp).
  - split; [done|]. by intros (p & Hp & _).
Qed.

Lemma productLike_spec i : Image.productLike i = true ↔ productCondition i.
Proof.
  unfold Image.productLike, productCondition, publicCategories.
  rewrite !orb_true_iff, strictEq_spec, truthy_spec, !String.eqb_eq,
    !elem_of_cons, elem_of_nil.
  tauto.
Qed.

Lemma preSave_isPublic i :
  Image.isPublic (Image.preSave i)
  = Image.isPublic i || Image.productLike i.
Proof.
  unfold Image.preSave. destruct (Image.productLike i); cbn.
  - by rewrite orb_true_r.
  - by rewrite orb_false_r.
Qed.

Lemma preSave_productLike i :
  Image.productLike (Image.preSave i) = Image.productLike i.
Proof. unfold Image.preSave. by destruct (Image.productLike i) eqn:E. Qed.

(** What a successful [save] did. *)
Lemma save_inv now isNew i db i' db' :
  Image.save now isNew i db = Some (i', db') →
  Image.validate i = true
  ∧ i' = Image.touch now isNew (Image.preSave i)
  ∧ db' = <[Image.imageId i := i']> db
  ∧ (isNew = true → db !! Image.imageId i = None).
Proof.
  unfold Image.save. destruct (Image.validate i); [|done].
  assert (Image.imageId (Image.touch now isNew (Image.preSave i))
          = Image.imageId i) as Hid
    by (unfold Image.preSave; by destruct (Image.productLike i)).
  rewrite Hid.
  destruct isNew; cbn.
  - case_bool_decide as Hsome; [done|]. intros [= <- <-].
    split_and!; try done. intros _.
    by apply eq_None_not_Some.
  - intros [= <- <-]. by split_and!.
Qed.

Lemma saved_fields now isNew i :
  let i' := Image.touch now isNew (Image.preSave i) in
  Image.imageId i' = Image.imageId i
  ∧ Image.application i' = Image.application i
  ∧ Image.isDeleted i' = Image.isDeleted i
  ∧ Image.variants i' = Image.variants i
  ∧ Image.size i' = Image.size i
  ∧ Image.isPublic i' = Image.isPublic i || Image.productLike i
  ∧ Image.productLike i' = Image.productLike i.
Proof.
  cbv zeta. rewrite <- preSave_isPublic, <- (preSave_productLike i).
  unfold Image.preSave. by destruct (Image.productLike i).
Qed.

End Visibility.

(** * Properties of the catalog *)

Section Catalog.
Import ImageController.

Lemma findLive_Some id db i :
  Image.findLive id db = Some i →
  db !! id = Some i ∧ Image.isDeleted i = false.
Proof.
  unfold Image.findLive. destruct (db !! id) as [i'|]; [|done].
  destruct (Image.isDeleted i') eqn:E; [done|]. by intros [= <-].
Qed.

Lemma findOwned_Some id app db i :
  Image.findOwned id app db = Some i →
  db !! id = Some i ∧ Image.isDeleted i = false ∧ Image.application i = app.
Proof.
  unfold Image.findOwned. destruct (db !! id) as [i'|]; [|done].
  destruct (negb _ && _) eqn:E; [|done]. intros [= <-].
  apply andb_true_iff in E as [E1 E2].
  apply negb_true_iff in E1. by apply String.eqb_eq in E2.
Qed.

Lemma findLive_deleted id db i :
  db !! id = Some i → Image.isDeleted i = true → Image.findLive id db = None.
Proof. intros H1 H2. unfold Image.findLive. by rewrite H1, H2. Qed.

Lemma findOwned_deleted id app db i :
  db !! id = Some i → Image.isDeleted i = true →
  Image.findOwned id app db = None.
Proof. intros H1 H2. unfold Image.findOwned. by rewrite H1, H2. Qed.

Lemma advances_refl db : advances db db.
Proof. intros k i H. by exists i. Qed.

Lemma advances_trans db1 db2 db3 :
  advances db1 db2 → advances db2 db3 → advances db1 db3.
Proof.
  intros H12 H23 k i H.
  destruct (H12 k i H) as (i2 & H2 & Ha & Hp & Hd).
  destruct (H23 k i2 H2) as (i3 & H3 & Ha' & Hp' & Hd').
  exists i3. split_and!; [done|congruence|auto|auto].
Qed.

Lemma saved_sound db db' :
  keyedImages db → saved db db' → keyedImages db' ∧ advances db db'.
Proof.
  intros Hkeyed Hsaved.
  destruct Hsaved as [now i i' db' Hsave|now k old i i' db' Hold Hid Happ Hp Hd Hsave];
    apply save_inv in Hsave as (_ & -> & -> & Hfresh);
    pose proof (saved_fields now) as Hf.
  - destruct (Hf true i) as (Hi & _). specialize (Hfresh eq_refl). split.
    + intros k j. rewrite lookup_insert. case_decide as Hk.
      * intros [= <-]. by rewrite Hi.
      * apply Hkeyed.
    + intros k j Hj. exists j. rewrite lookup_insert_ne by congruence.
      by split_and!.
  - destruct (Hf false i) as (Hi & Ha & Hdel & _ & _ & Hpub & _).
    pose proof (Hkeyed _ _ Hold) as Hkold. split.
    + intros k' j. rewrite lookup_insert. case_decide as Hk.
      * intros [= <-]. by rewrite Hi.
      * apply Hkeyed.
    + intros k' j Hj. rewrite lookup_insert. case_decide as Hk.
      * assert (k' = k) as -> by congruence. rewrite Hold in Hj.
        injection Hj as <-. eexists. split; [done|].
        rewrite Ha, Hdel, Hpub. split_and!; [done| |done].
        intros Hpo. by rewrite (Hp Hpo).
      * exists j. by split_and!.
Qed.


Ltac edit_saved Hlook Hsave :=
  cbn; split; [done|]; right;
  eapply saved_edit; [exact Hlook| | | | |exact Hsave]; cbn; auto.

Lemma getImage_step env w req :
  let w' := (getImage env w req).2 in
  applications w' = applications w
  ∧ (images w' = images w ∨ saved (images w) (images w')).
Proof.
  unfold getImage.
  destruct (Image.findLive _ _) as [image|] eqn:Hfind; [|by auto].
  apply findLive_Some in Hfind as [Hlook Hlive].
  destruct (if Image.isPublic image then None else _); [by auto|].
  unfold Image.recordAccess.
  destruct (Image.save _ _ _ _) as [[i' imgs]|] eqn:Hsave; [|by auto].
  edit_saved Hlook Hsave.
Qed.

Lemma getImageInfo_step env w req :
  let w' := (getImageInfo env w req).2 in
  applications w' = applications w
  ∧ (images w' = images w ∨ saved (images w) (images w')).
Proof.
  unfold getImageInfo.
  destruct (Image.findLive _ _) as [image|] eqn:Hfind; [|by auto].
  apply findLive_Some in Hfind as [Hlook Hlive].
  destruct (if Image.isPublic image then _ else _) as [|[[] token]];
    [by auto| |by auto].
  unfold Image.recordAccess.
  destruct (Image.save _ _ _ _) as [[i' imgs]|] eqn:Hsave; [|by auto].
  edit_saved Hlook Hsave.
Qed.

Lemma deleteImage_step env w req :
  let w' := (deleteImage env w req).2 in
  applications w' = applications w
  ∧ (images w' = images w ∨ saved (images w) (images w')).
Proof.
  unfold deleteImage.
  destruct (application req) as [ra|]; [|by auto].
  destruct (Image.findOwned _ _ _) as [image|] eqn:Hfind; [|by auto].
  apply findOwned_Some in Hfind as (Hlook & Hlive & Howner).
  unfold Image.softDelete.
  destruct (Image.save _ _ _ _) as [[i' imgs]|] eqn:Hsave; [|by auto].
  edit_saved Hlook Hsave.
Qed.

Lemma updateImageMetadata_step env w req :
  let w' := (updateImageMetadata env w req).2 in
  applications w' = applications w
  ∧ (images w' = images w ∨ saved (images w) (images w')).
Proof.
  unfold updateImageMetadata.
  destruct (application req) as [ra|]; [|by auto].
  destruct (Image.findOwned _ _ _) as [image|] eqn:Hfind; [|by auto].
  apply findOwned_Some in Hfind as (Hlook & Hlive & Howner).
  destruct (Image.save _ _ _ _) as [[i' imgs]|] eqn:Hsave; [|by auto].
  edit_saved Hlook Hsave.
Qed.

Lemma replaceImage_step env w req :
  let w' := (replaceImage env w req).2 in
  applications w' = applications w
  ∧ (images w' = images w ∨ saved (images w) (images w')).
Proof.
  unfold replaceImage.
  destruct (file req) as [f|]; [|by auto].
  destruct (application req) as [ra|]; [|by auto].
  destruct (Image.findOwned _ _ _) as [image|] eqn:Hfind; [|by auto].
  apply findOwned_Some in Hfind as (Hlook & Hlive & Howner).
  destruct (fileMetadata req) as [md|]; [|by auto]. cbn.
  destruct (storageFields env f) as [[[s3Key url] path]|]; [|by auto]. cbn.
  destruct (Image.save _ _ _ _) as [[i' imgs]|] eqn:Hsave; [|by auto].
  edit_saved Hlook Hsave.
Qed.

Lemma listImages_step env w req : (listImages env w req).2 = w.
Proof.
  unfold listImages. destruct (application req); [|done].
  by destruct (_ <? 0).
Qed.

End Catalog.

(** * The catalog across requests *)

Section Evolution.
Import ImageController.

Lemma uploadImage_inv env w req r w' :
  uploadImage env w req = (r, w') →
  (w' = w ∧ refused r)
  ∨ ∃ f ra app i d,
      file req = Some f
      ∧ application req = Some ra
      ∧ Application.findById (ra_id ra) (applications w) = Some app
      ∧ Application.allowed
          (Application.canUpload (now env) (Some (f_size f)) app).1 = true
      ∧ newImage env req f ra (uuidv4 env 0)
          (buildVariants env f (uuidv4 env 0)) = Some i
      ∧ Image.save (now env) true i (images w)
        = Some (u_image d, images w')
      ∧ applications w'
        = Application.update
            (Application.recordUpload (f_size f)
               (Application.resetMonthlyUsage (now env) app))
            (applications w)
      ∧ r = Json 201 true (Uploaded d)
      ∧ u_variants d = buildVariants env f (uuidv4 env 0)
      ∧ u_accessToken d
        = jwt_sign env (accessPayload (Image.imageId (u_image d)) (ra_id ra)).
Proof.
  unfold uploadImage. intros H.
  destruct (file req) as [f|]; [|left; by simplify_eq].
  destruct (application req) as [ra|]; [|left; by simplify_eq].
  destruct (Application.findById _ _) as [app|] eqn:Hfind;
    [|left; by simplify_eq].
  destruct (Application.canUpload _ _ app) as [v app'] eqn:Hcan.
  assert (v = (Application.canUpload (now env) (Some (f_size f)) app).1)
    as Hv by (by rewrite Hcan).
  assert (app' = Application.resetMonthlyUsage (now env) app) as Happ
    by (by rewrite <- (canUpload_doc (now env) (Some (f_size f))), Hcan).
  destruct (Application.allowed v) eqn:Hallowed; cbn in H;
    [|left; by simplify_eq].
  destruct (newImage _ _ _ _ _ _) as [i|] eqn:Hnew; cbn in H;
    [|left; by simplify_eq].
  destruct (Image.save _ _ _ _) as [[image imgs]|] eqn:Hsave;
    [|left; by simplify_eq].
  right. injection H as <- <-. subst v app'.
  eexists f, ra, app, i, _. cbn. split_and!; try done. exact Hsave.
Qed.

Lemma evolves_refl w : evolves w w.
Proof. intros H. split; [done|apply advances_refl]. Qed.

Lemma evolves_trans w1 w2 w3 : evolves w1 w2 → evolves w2 w3 → evolves w1 w3.
Proof.
  intros H12 H23 H1. destruct (H12 H1) as [H2 Ha].
  destruct (H23 H2) as [H3 Ha']. split; [done|].
  by eapply advances_trans.
Qed.

Lemma evolves_images w w' :
  applications w' = applications w →
  images w' = images w ∨ saved (images w) (images w') →
  evolves w w'.
Proof.
  intros Happs Himgs [Hki Hka]. unfold keyed. rewrite Happs.
  destruct Himgs as [->|Hsaved].
  - split; [done|apply advances_refl].
  - destruct (saved_sound _ _ Hki Hsaved). by split.
Qed.

Lemma keyedApplications_insert k a db :
  keyedApplications db → Application._id a = k →
  keyedApplications (<[k := a]> db).
Proof.
  intros Hk Hid k' b. rewrite lookup_insert.
  case_decide as Hkk; [|apply Hk]. intros [= <-]. congruence.
Qed.

Lemma keyedApplications_update a db :
  keyedApplications db → keyedApplications (Application.update a db).
Proof. intros Hk. by apply keyedApplications_insert. Qed.

Lemma uploadImage_evolves env w req :
  evolves w (uploadImage env w req).2.
Proof.
  destruct (uploadImage env w req) as [r w'] eqn:Hup. cbn.
  apply uploadImage_inv in Hup
    as [[-> _]|(f & ra & app & i & d & _ & _ & _ & _ & _ & Hsave & Happs & _)].
  - apply evolves_refl.
  - intros [Hki Hka]. unfold keyed. rewrite Happs.
    destruct (saved_sound (images w) (images w') Hki) as [Hk Ha].
    { by eapply saved_new. }
    split_and!; [done| |done]. by apply keyedApplications_update.
Qed.

Lemma bulkStep_evolves env req ra st f :
  evolves (bs_world st) (bs_world (bulkStep env req ra st f)).
Proof.
  unfold bulkStep.
  destruct (_ ≫= _) as [[image imgs]|] eqn:Hsave; cbn; [|apply evolves_refl].
  destruct (newBulkImage _ _ _ _ _ _) as [i|]; [|done]. cbn in Hsave.
  intros [Hki Hka]. unfold keyed. cbn.
  destruct (saved_sound (images (bs_world st)) imgs Hki) as [Hk Ha].
  { by eapply saved_new. }
  split_and!; [done| |done]. by apply keyedApplications_insert.
Qed.

Lemma bulkLoop_evolves env req ra fs : ∀ st,
  evolves (bs_world st) (bs_world (foldl (bulkStep env req ra) st fs)).
Proof.
  induction fs as [|f fs IH]; intros st; cbn; [apply evolves_refl|].
  eapply evolves_trans; [apply bulkStep_evolves|apply IH].
Qed.

Lemma bulkUploadImages_evolves env w req :
  evolves w (bulkUploadImages env w req).2.
Proof.
  unfold bulkUploadImages.
  destruct (files req) as [|f0 fs]; [apply evolves_refl|].
  destruct (application req) as [ra|]; [|apply evolves_refl].
  destruct (Application.findById _ _) as [app|]; [|apply evolves_refl].
  destruct (Application.canUpload _ _ app) as [v app'].
  destruct (negb (Application.allowed v)); cbn; [apply evolves_refl|].
  apply (bulkLoop_evolves env req ra (f0 :: fs)
           (mkBulkState 0 app' w [] [])).
Qed.

Lemma protected_evolves handler :
  (∀ env w req, evolves w (handler env w req).2) →
  ∀ env w req, evolves w (Routes.protected handler env w req).2.
Proof.
  intros H env w req. unfold Routes.protected.
  destruct (Auth.authenticateApplication _ _ _); [apply evolves_refl|apply H].
Qed.

Lemma dispatch_evolves route env w req :
  evolves w (Routes.dispatch route env w req).2.
Proof.
  destruct route; cbn [Routes.dispatch];
    try (apply protected_evolves; clear; intros env w req);
    unfold Routes.open.
  - apply uploadImage_evolves.
  - apply bulkUploadImages_evolves.
  - rewrite listImages_step. apply evolves_refl.
  - apply evolves_images; apply getImageInfo_step.
  - apply evolves_images; apply getImage_step.
  - apply evolves_images; apply updateImageMetadata_step.
  - apply evolves_images; apply replaceImage_step.
  - apply evolves_images; apply deleteImage_step.
Qed.

Lemma run_evolves calls : ∀ w, evolves w (Routes.run calls w).
Proof.
  induction calls as [|c calls IH]; intros w; cbn; [apply evolves_refl|].
  eapply evolves_trans; [apply dispatch_evolves|apply IH].
Qed.

End Evolution.

(** * Visibility and soft deletion over the life of an asset *)

Section Lifecycle.
Import ImageController.

Lemma keyed_example : keyed Example.world0.
Proof.
  split.
  - intros k i. cbn. by rewrite lookup_empty.
  - intros k a. cbn. rewrite !lookup_insert.
    repeat case_decide; try rewrite lookup_empty; intros [= <-]; done.
Qed.

(** C9.  Once an asset is public it stays public: whatever requests the
    service handles afterwards, the asset is still in the catalog with
    [isPublic] set. *)
Theorem isPublic_monotone (calls : list Routes.Call) (w : World)
    (id : string) (i : Image.t) :
  keyed w →
  images w !! id = Some i →
  Image.isPublic i = true →
  ∃ i', images (Routes.run calls w) !! id = Some i'
        ∧ Image.isPublic i' = true.
Proof.
  intros Hk Hi Hp.
  destruct (run_evolves calls w Hk) as [_ Ha].
  destruct (Ha id i Hi) as (i' & Hi' & _ & Hp' & _).
  exists i'. auto.
Qed.

Lemma set_application_fields ra req :
  imageIdParam (Auth.set_application ra req) = imageIdParam req
  ∧ query (Auth.set_application ra req) = query req
  ∧ userId (Auth.set_application ra req) = userId req
  ∧ application (Auth.set_application ra req) = Some ra.
Proof. done. Qed.

Lemma optionalApplicationAuth_fields env apps req :
  let req' := Auth.optionalApplicationAuth env apps req in
  imageIdParam req' = imageIdParam req
  ∧ query req' = query req
  ∧ userId req' = userId req.
Proof.
  unfold Auth.optionalApplicationAuth.
  destruct (Auth.bearerToken req); [|done].
  by destruct (Auth.bearerApplication _ _ _).
Qed.

Lemma authenticateApplication_fields env apps req req' :
  Auth.authenticateApplication env apps req = inr req' →
  imageIdParam req' = imageIdParam req ∧ query req' = query req.
Proof.
  unfold Auth.authenticateApplication. intros H.
  repeat case_match; by simplify_eq.
Qed.

Lemma authenticateApplication_answer env apps req r :
  Auth.authenticateApplication env apps req = inl r →
  ∃ status error, r = fail status error.
Proof.
  unfold Auth.authenticateApplication. intros H.
  repeat case_match; simplify_eq; eauto.
Qed.

Lemma softDeleted_later calls w id :
  keyed w → softDeleted id w → softDeleted id (Routes.run calls w).
Proof.
  intros Hk (i & Hi & Hd).
  destruct (run_evolves calls w Hk) as [_ Ha].
  destruct (Ha id i Hi) as (i' & Hi' & _ & _ & Hd').
  exists i'. auto.
Qed.

Lemma softDeleted_getImage env w req :
  softDeleted (imageIdParam req) w →
  Routes.dispatch Routes.GetImage env w req = (fail 404 "Image not found", w).
Proof.
  intros (i & Hi & Hd). cbn. unfold Routes.open, getImage.
  destruct (optionalApplicationAuth_fields env (applications w) req)
    as (-> & _).
  by rewrite (findLive_deleted _ _ _ Hi Hd).
Qed.

Lemma softDeleted_getImageInfo env w req :
  softDeleted (imageIdParam req) w →
  Routes.dispatch Routes.GetInfo env w req = (fail 404 "Image not found", w).
Proof.
  intros (i & Hi & Hd). cbn. unfold Routes.open, getImageInfo.
  destruct (optionalApplicationAuth_fields env (applications w) req)
    as (-> & _).
  by rewrite (findLive_deleted _ _ _ Hi Hd).
Qed.

(** The items of a listing answer. *)
Lemma listImages_live env w req it :
  keyed w →
  it ∈ match (listImages env w req).1 with
       | Json _ _ (Listed items _) => items
       | _ => []
       end →
  images w !! Image.imageId (li_image it) = Some (li_image it)
  ∧ Image.isDeleted (li_image it) = false.
Proof.
  intros [Hk _]. unfold listImages.
  destruct (application req) as [ra|]; [|by intros ?%elem_of_nil].
  destruct (_ <? 0); [by intros ?%elem_of_nil|]. cbn.
  intros (i & -> & Hin)%list_elem_of_fmap. cbn.
  apply subseteq_take, subseteq_drop in Hin.
  rewrite merge_sort_Permutation in Hin.
  apply list_elem_of_filter in Hin as [Hmatch Hin].
  apply list_elem_of_fmap in Hin as ([k i'] & -> & Hin).
  apply elem_of_map_to_list in Hin. cbn in *.
  rewrite (Hk _ _ Hin). split; [done|].
  unfold matchesQuery in Hmatch.
  rewrite !andb_true_iff in Hmatch.
  destruct Hmatch as [[[[[[[_ Hlive] _] _] _] _] _] _].
  by apply negb_true_iff.
Qed.

Lemma softDeleted_listImages env w req id :
  keyed w → softDeleted id w →
  id ∉ listedIds (Routes.dispatch Routes.GetList env w req).1.
Proof.
  intros Hk (i & Hi & Hd). cbn. unfold Routes.protected.
  destruct (Auth.authenticateApplication _ _ _) as [r|req'] eqn:Hauth.
  { apply authenticateApplication_answer in Hauth as (? & ? & ->).
    by intros ?%elem_of_nil. }
  intros Hin. unfold listedIds in Hin.
  pose proof (listImages_live env w req') as Hlive.
  destruct (listImages env w req').1 as [status success []| |];
    try by apply elem_of_nil in Hin.
  apply list_elem_of_fmap in Hin as (it & -> & Hit).
  destruct (Hlive it Hk Hit) as [Hlook Hnot]. cbn in *. congruence.
Qed.

Lemma deleteImage_softDeletes env w req :
  keyed w →
  statusOf (Routes.dispatch Routes.DeleteImage env w req).1 = 200 →
  ∃ i, images (Routes.dispatch Routes.DeleteImage env w req).2
         !! imageIdParam req = Some i
       ∧ Image.isDeleted i = true
       ∧ Image.deletedAt i = Some (now env).
Proof.
  intros [Hk _]. cbn. unfold Routes.protected.
  destruct (Auth.authenticateApplication _ _ _) as [r|req'] eqn:Hauth.
  { unfold Auth.authenticateApplication in Hauth.
    repeat case_match; by simplify_eq. }
  apply authenticateApplication_fields in Hauth as [Hid _].
  unfold deleteImage. rewrite Hid.
  destruct (application req') as [ra|]; [|done].
  destruct (Image.findOwned _ _ _) as [image|] eqn:Hfind; [|done].
  apply findOwned_Some in Hfind as (Hlook & _).
  unfold Image.softDelete.
  destruct (Image.save _ _ _ _) as [[i' imgs]|] eqn:Hsave; [|done].
  intros _. cbn.
  apply save_inv in Hsave as (_ & -> & -> & _). cbn.
  rewrite (Hk _ _ Hlook), lookup_insert_eq. eexists. split; [done|].
  unfold Image.preSave. by destruct (Image.productLike _).
Qed.

(** C8.  Once the delete operation has answered for an asset, its flag
    and deletion timestamp are set; and whatever the service handles
    afterwards, the flag stays set, every read of that asset, with or
    without credentials, answers 404 and changes nothing, and no listing
    shows the asset. *)
Theorem soft_deleted_stays_hidden (env0 : Env) (req0 : Request) (w : World)
    (calls : list Routes.Call) :
  keyed w →
  statusOf (Routes.dispatch Routes.DeleteImage env0 w req0).1 = 200 →
  let w1 := (Routes.dispatch Routes.DeleteImage env0 w req0).2 in
  let w' := Routes.run calls w1 in
  (∃ i, images w1 !! imageIdParam req0 = Some i
        ∧ Image.isDeleted i = true
        ∧ Image.deletedAt i = Some (now env0))
  ∧ softDeleted (imageIdParam req0) w'
  ∧ ∀ env req,
      (imageIdParam req = imageIdParam req0 →
       Routes.dispatch Routes.GetImage env w' req
       = (fail 404 "Image not found", w')
       ∧ Routes.dispatch Routes.GetInfo env w' req
         = (fail 404 "Image not found", w'))
      ∧ imageIdParam req0
        ∉ listedIds (Routes.dispatch Routes.GetList env w' req).1.
Proof.
  intros Hk Hok w1 w'.
  destruct (deleteImage_softDeletes env0 w req0 Hk Hok)
    as (i & Hi & Hd & Hat).
  destruct (dispatch_evolves Routes.DeleteImage env0 w req0 Hk) as [Hk1 _].
  assert (softDeleted (imageIdParam req0) w') as Hgone.
  { apply softDeleted_later; [done|]. by exists i. }
  destruct (run_evolves calls w1 Hk1) as [Hk' _].
  split_and!; [by exists i|done|].
  intros env req. split.
  - intros Hid. rewrite <- Hid in Hgone.
    by rewrite softDeleted_getImage, softDeleted_getImageInfo.
  - by apply softDeleted_listImages.
Qed.

End Lifecycle.

(** * The ingestion pipeline *)

Section Creation.
Import ImageController.

Lemma newImage_fields env req f ra id vs i :
  newImage env req f ra id vs = Some i →
  Image.imageId i = id
  ∧ Image.variants i = vs
  ∧ Image.isPublic i = false
  ∧ Image.isDeleted i = false
  ∧ Image.size i = f_size f
  ∧ Image.application i = ra_id ra.
Proof.
  unfold newImage. intros H.
  destruct (fileMetadata req) as [md|]; [|done]. cbn in H.
  destruct (match b_tags (body req) with Some _ => _ | None => _ end)
    as [tags|]; [|done]. cbn in H.
  destruct (storageFields env f) as [[[s3Key url] path]|]; [|done].
  cbn in H. by injection H as <-.
Qed.

Lemma save_new_ok now i db :
  Image.validate i = true →
  db !! Image.imageId i = None →
  let i' := Image.touch now true (Image.preSave i) in
  Image.save now true i db = Some (i', <[Image.imageId i := i']> db).
Proof.
  intros Hvalid Hfresh. cbv zeta. unfold Image.save. rewrite Hvalid.
  destruct (saved_fields now true i) as (Hid & _). cbv zeta in Hid.
  rewrite Hid, Hfresh. rewrite bool_decide_eq_false_2; [done|].
  by intros [? ?].
Qed.

Lemma buildVariants_throws env f id :
  variantGenerationThrows env f id → buildVariants env f id = ∅.
Proof. unfold variantGenerationThrows, buildVariants. by intros ->. Qed.

(** C6.  An upload that has passed validation (its record can be built
    and satisfies the schema, under an unused identifier) and admission,
    and whose variant generation throws, is answered 201 with success:
    the record is in the catalog with an empty variant map, the usage of
    the tenant has been recorded once, and a token has been issued. *)
Theorem upload_survives_variant_failure (env : Env) (w : World)
    (req : Request) (f : File) (ra : ReqApplication) (app : Application.t)
    (i : Image.t) :
  file req = Some f →
  application req = Some ra →
  Application.findById (ra_id ra) (applications w) = Some app →
  Application.allowed
    (Application.canUpload (now env) (Some (f_size f)) app).1 = true →
  variantGenerationThrows env f (uuidv4 env 0) →
  newImage env req f ra (uuidv4 env 0) ∅ = Some i →
  Image.validate i = true →
  images w !! uuidv4 env 0 = None →
  ∃ d w',
    uploadImage env w req = (Json 201 true (Uploaded d), w')
    ∧ u_variants d = ∅
    ∧ images w' !! uuidv4 env 0 = Some (u_image d)
    ∧ Image.variants (u_image d) = ∅
    ∧ applications w'
      = Application.update
          (Application.recordUpload (f_size f)
             (Application.canUpload (now env) (Some (f_size f)) app).2)
          (applications w)
    ∧ u_accessToken d
      = jwt_sign env (accessPayload (uuidv4 env 0) (ra_id ra)).
Proof.
  intros Hfile Hra Hfind Hallowed Hthrows Hnew Hvalid Hfresh.
  destruct (newImage_fields _ _ _ _ _ _ _ Hnew) as (Hid & Hvs & _).
  rewrite <- Hid in Hfresh.
  pose proof (save_new_ok (now env) i (images w) Hvalid Hfresh) as Hsave.
  cbv zeta in Hsave.
  destruct (saved_fields (now env) true i) as (Hid' & _ & _ & Hvs' & _).
  cbv zeta in Hid', Hvs'.
  unfold uploadImage. rewrite Hfile, Hra, Hfind.
  destruct (Application.canUpload _ _ app) as [v app'] eqn:Hcan.
  cbn in Hallowed. rewrite Hallowed. cbn [negb].
  rewrite (buildVariants_throws _ _ _ Hthrows), Hnew. cbn [mbind option_bind].
  rewrite Hsave. eexists _, _. split; [reflexivity|].
  cbn -[Image.touch Image.preSave Application.update
        Application.recordUpload].
  rewrite Hid', Hid, lookup_insert_eq, Hvs', Hvs. by split_and!.
Qed.

End Creation.

(** * The access broker *)

Section Access.
Import ImageController.

Lemma keepTruthy_None o : Image.truthy o = false → keepTruthy o = None.
Proof. unfold keepTruthy. by intros ->. Qed.

Lemma keepTruthy_Some o s : keepTruthy o = Some s → o = Some s.
Proof. unfold keepTruthy. by destruct (Image.truthy o). Qed.

(** C1, on the byte-serving read.  A private asset read without
    [?token=] is answered 401 whatever bearer the request carries:
    [optionalApplicationAuth] fills [req.application], the handler looks
    at [req.userId], which no middleware of the route sets. *)
Theorem getImage_ignores_bearer (env : Env) (w : World) (req : Request)
    (image : Image.t) :
  Routes.incoming req →
  Image.findLive (imageIdParam req) (images w) = Some image →
  Image.isPublic image = false →
  Image.truthy (q_token (query req)) = false →
  Routes.dispatch Routes.GetImage env w req
  = (fail 401 "Access token required or authenticate to access image", w).
Proof.
  intros [_ Huser] Hfind Hprivate Htoken.
  cbn. unfold Routes.open, getImage.
  destruct (optionalApplicationAuth_fields env (applications w) req)
    as (Hid & Hq & Hu).
  cbv zeta in Hid, Hq, Hu.
  rewrite Hid, Hfind, Hprivate. unfold getImageDenial.
  by rewrite Hq, (keepTruthy_None _ Htoken), Hu, Huser.
Qed.

(** The metadata read does grant the owner. *)
Lemma getImageInfo_grants_owner env w req image ra :
  application req = Some ra →
  Image.findLive (imageIdParam req) (images w) = Some image →
  Image.isPublic image = false →
  Image.truthy (q_token (query req)) = false →
  ra_id ra = Image.application image →
  Image.validate image = true →
  ∃ d w',
    getImageInfo env w req = (Json 200 true (Info d), w')
    ∧ in_accessToken d
      = keepTruthy
          (Some (jwt_sign env
                   (accessPayload (Image.imageId image) (ra_id ra)))).
Proof.
  intros Hra Hfind Hprivate Htoken Howner Hvalid.
  unfold getImageInfo. rewrite Hfind, Hprivate.
  unfold infoAccess. rewrite (keepTruthy_None _ Htoken), Hra, Howner.
  assert (Image.truthy (Some (Image.application image)) = true) as ->.
  { unfold Image.validate in Hvalid. rewrite !andb_true_iff in Hvalid.
    by destruct Hvalid as [_ Hpresent]. }
  rewrite String.eqb_refl.
  unfold Image.recordAccess, Image.save.
  assert (∀ a b, Image.validate
            (Image.mk (Image.imageId image) (Image.originalName image)
               (Image.filename image) (Image.mimetype image)
               (Image.size image) (Image.path image) (Image.url image)
               (Image.s3Key image) (Image.application image)
               (Image.entityId image) (Image.entityType image)
               (Image.productId image) (Image.category image)
               (Image.tags image) (Image.alt image) (Image.title image)
               (Image.isPublic image) (Image.isDeleted image)
               (Image.deletedAt image) (Image.versions image)
               (Image.variants image) (Image.metadata image) a b
               (Image.createdAt image) (Image.updatedAt image)) = true)
    as -> by done.
  cbn [andb]. eexists _, _. split; [reflexivity|]. done.
Qed.

(** C2, on the metadata read.  A private asset read with neither a
    bearer nor a token is answered 403, not 401. *)
Theorem getImageInfo_anonymous_forbidden (env : Env) (w : World)
    (req : Request) (image : Image.t) :
  Routes.incoming req →
  Auth.bearerToken req = None →
  Image.findLive (imageIdParam req) (images w) = Some image →
  Image.isPublic image = false →
  Image.truthy (q_token (query req)) = false →
  Routes.dispatch Routes.GetInfo env w req
  = (fail 403 "Access denied. Authentication required for private images.",
     w).
Proof.
  intros [Happ _] Hbearer Hfind Hprivate Htoken.
  cbn. unfold Routes.open, Auth.optionalApplicationAuth. rewrite Hbearer.
  unfold getImageInfo. rewrite Hfind, Hprivate.
  unfold infoAccess. by rewrite (keepTruthy_None _ Htoken), Happ.
Qed.

(** Both reads answer 403 to a valid token minted for another asset. *)
Lemma foreign_token_forbidden env w req image token decoded :
  Image.findLive (imageIdParam req) (images w) = Some image →
  Image.isPublic image = false →
  keepTruthy (q_token (query req)) = Some token →
  jwt_verify env token = inr decoded →
  jwt_imageId decoded ≠ Some (imageIdParam req) →
  Routes.dispatch Routes.GetImage env w req
  = (fail 403 "Invalid access token for this image", w)
  ∧ Routes.dispatch Routes.GetInfo env w req
    = (fail 403
         "Access denied. Authentication required for private images.", w).
Proof.
  intros Hfind Hprivate Htoken Hverify Hother.
  assert (tokenNames decoded (imageIdParam req) = false) as Hnames.
  { unfold tokenNames. apply not_true_is_false.
    by rewrite strictEq_spec. }
  cbn. unfold Routes.open, getImage, getImageInfo.
  destruct (optionalApplicationAuth_fields env (applications w) req)
    as (Hid & Hq & _).
  cbv zeta in Hid, Hq. rewrite Hid, Hfind, Hprivate.
  unfold getImageDenial, infoAccess.
  by rewrite Hq, Htoken, Hverify, Hid, Hnames.
Qed.

End Access.

(** * The properties on the example deployment *)

Section Scenarios.
Import ImageController Example.

Lemma world1_keyed : keyed world1.
Proof. by destruct (dispatch_evolves Routes.PostUpload (env march false "p1") world0 (uploadRequest "app:acme" (Some "personal")) keyed_example). Qed.

Lemma world2_keyed : keyed world2.
Proof. by destruct (dispatch_evolves Routes.PostUpload (env march false "p2") world1 (uploadRequest "app:acme" (Some "product")) world1_keyed). Qed.

Lemma getImage_ignores_bearer_witness :
  let req := readRequest "p1" (Some "app:acme") None in
  ra_id <$> application
              (Auth.optionalApplicationAuth (env april true "")
                 (applications world1) req)
  = Some (Image.application p1)
  ∧ Routes.dispatch Routes.GetImage (env april true "") world1 req
    = (fail 401 "Access token required or authenticate to access image",
       world1)
  ∧ statusOf (Routes.dispatch Routes.GetInfo (env april true "") world1 req).1
    = 200.
Proof.
  split; [reflexivity|]. split; [|reflexivity].
  apply (getImage_ignores_bearer (env april true "") world1
           (readRequest "p1" (Some "app:acme") None) p1).
  - split; reflexivity.
  - reflexivity.
  - reflexivity.
  - reflexivity.
Defined.

Lemma getImageInfo_anonymous_forbidden_witness :
  let req := readRequest "p1" None None in
  Routes.dispatch Routes.GetInfo (env april true "") world1 req
  = (fail 403 "Access denied. Authentication required for private images.",
     world1)
  ∧ statusOf (Routes.dispatch Routes.GetImage (env april true "") world1 req).1
    = 401.
Proof.
  split; [|reflexivity].
  apply (getImageInfo_anonymous_forbidden (env april true "") world1
           (readRequest "p1" None None) p1).
  - split; reflexivity.
  - reflexivity.
  - reflexivity.
  - reflexivity.
  - reflexivity.
Defined.

Lemma upload_survives_variant_failure_witness :
  let e := env march false "p2" in
  let req := authenticated acme (uploadRequest "app:acme" (Some "product")) in
  variantGenerationThrows e photo "p2"
  ∧ ∃ d w',
      uploadImage e world1 req = (Json 201 true (Uploaded d), w')
      ∧ u_variants d = ∅
      ∧ images w' !! "p2" = Some (u_image d)
      ∧ Image.variants (u_image d) = ∅
      ∧ (Application.totalImages ∘ Application.usage
         <$> applications w' !! "acme") = Some 2.
Proof.
  intros e req.
  assert (variantGenerationThrows e photo "p2") as Hthrows by reflexivity.
  split; [exact Hthrows|].
  destruct (upload_survives_variant_failure e world1 req photo
              (Auth.describe acme)
              (Application.recordUpload 1048576 acme) p2_draft)
    as (d & w' & Hup & Hvs & Hin & Hvs' & Happs & _);
    [reflexivity|reflexivity|reflexivity|reflexivity|exact Hthrows
    |reflexivity|reflexivity|reflexivity|].
  exists d, w'. split_and!; [exact Hup|exact Hvs|exact Hin|exact Hvs'|].
  rewrite Happs. reflexivity.
Defined.

Lemma isPublic_monotone_witness :
  let calls :=
    [Routes.mkCall (env april true "") Routes.PatchMetadata
       (metadataRequest "p2" "app:acme" (Some "personal"));
     Routes.mkCall (env april true "") Routes.GetImage
       (readRequest "p2" None None);
     Routes.mkCall (env april false "p3") Routes.PutImage
       (mkRequest (Some "Bearer app:acme") "p2" noQuery noBody
          (Some photo) [] (Some photoMetadata) None None)] in
  ∃ i', images (Routes.run calls world2) !! "p2" = Some i'
        ∧ Image.isPublic i' = true.
Proof.
  intros calls.
  apply (isPublic_monotone calls world2 "p2" p2 world2_keyed);
    reflexivity.
Defined.

Lemma soft_deleted_stays_hidden_witness :
  let delete := metadataRequest "p1" "app:acme" None in
  let calls :=
    [Routes.mkCall (env april true "") Routes.PatchMetadata
       (metadataRequest "p1" "app:acme" (Some "product"));
     Routes.mkCall (env april false "p3") Routes.PostUpload
       (uploadRequest "app:acme" None)] in
  let w' :=
    Routes.run calls
      (Routes.dispatch Routes.DeleteImage (env april true "") world1
         delete).2 in
  Routes.dispatch Routes.GetImage (env april true "") w'
    (readRequest "p1" (Some "app:acme") (Some "img:p1"))
  = (fail 404 "Image not found", w')
  ∧ "p1" ∉ listedIds
             (Routes.dispatch Routes.GetList (env april true "") w'
                (readRequest "" (Some "app:acme") None)).1.
Proof.
  intros delete calls w'.
  destruct (soft_deleted_stays_hidden (env april true "") delete world1
              calls world1_keyed eq_refl) as (_ & _ & Hhidden).
  split.
  - destruct (Hhidden (env april true "")
                (readRequest "p1" (Some "app:acme") (Some "img:p1")))
      as [Hread _].
    exact (proj1 (Hread eq_refl)).
  - destruct (Hhidden (env april true "")
                (readRequest "" (Some "app:acme") None)) as [_ Hlist].
    exact Hlist.
Defined.

End Scenarios.

(** * The visibility derivation *)

Section Derivation.
Import ImageController.

Lemma save_visibility now isNew i i' db db' :
  Image.save now isNew i db = Some (i', db') →
  (productCondition i' ↔ productCondition i)
  ∧ (Image.isPublic i' = true
     ↔ Image.isPublic i = true ∨ productCondition i').
Proof.
  intros (_ & -> & _)%save_inv.
  destruct (saved_fields now isNew i) as (_ & _ & _ & _ & _ & Hp & Hl).
  cbv zeta in Hp, Hl.
  by rewrite <- !productLike_spec, Hp, Hl, orb_true_iff.
Qed.

(** C3, as the code has it.  A save never clears the flag: after any
    save an asset is public exactly when it was public before the save
    or the product condition holds; so an asset that was not public
    before the save, as every new asset is by the schema default, is
    public after it exactly when the product condition holds. *)
Theorem visibility_after_save (now : Date) (isNew : bool)
    (i i' : Image.t) (db db' : gmap string Image.t) :
  Image.save now isNew i db = Some (i', db') →
  (productCondition i' ↔ productCondition i)
  ∧ (Image.isPublic i' = true
     ↔ Image.isPublic i = true ∨ productCondition i')
  ∧ (Image.isPublic i = false →
     (Image.isPublic i' = true ↔ productCondition i')).
Proof.
  intros Hsave. destruct (save_visibility _ _ _ _ _ _ Hsave) as [Hc Hp].
  split_and!; [done|done|].
  rewrite Hp. intros ->. split; [|by right]. by intros [?|?].
Qed.

Lemma visibility_after_save_witness :
  Image.save Example.march true Example.p2_draft (images Example.world1)
  = Some (Example.p2, <["p2" := Example.p2]> (images Example.world1))
  ∧ Image.isPublic Example.p2_draft = false
  ∧ Image.isPublic Example.p2 = true
  ∧ productCondition Example.p2.
Proof.
  assert (Image.save Example.march true Example.p2_draft
            (images Example.world1)
          = Some (Example.p2, <["p2" := Example.p2]> (images Example.world1)))
    as Hsave by (vm_compute; reflexivity).
  split; [exact Hsave|]. split; [reflexivity|]. split; [reflexivity|].
  destruct (visibility_after_save _ _ _ _ _ _ Hsave) as (_ & _ & Hnew).
  apply (Hnew eq_refl). reflexivity.
Defined.

(** An upload creates its asset from the schema default: the asset it
    answers with is public exactly when the product condition holds. *)
Lemma created_visibility env w req d w' :
  uploadImage env w req = (Json 201 true (Uploaded d), w') →
  (Image.isPublic (u_image d) = true ↔ productCondition (u_image d)).
Proof.
  intros Hup. apply uploadImage_inv in Hup as [[_ Hrefused]|Hup]; [done|].
  destruct Hup as (f & ra & app & i0 & d0 & _ & _ & _ & _ & Hnew & Hsaved
                   & _ & [= <-] & _).
  apply newImage_fields in Hnew as (_ & _ & Hprivate & _).
  destruct (save_visibility _ _ _ _ _ _ Hsaved) as [_ Hiff].
  rewrite Hiff, Hprivate. split; [|by right]. by intros [?|?].
Qed.

(** The reading of C3 that fails: ["p2"] was uploaded in category
    "product" and then moved to "personal"; after that save it is public
    although the product condition does not hold. *)
Lemma public_after_recategorising :
  ∃ i, images Example.world3 !! "p2" = Some i
       ∧ Image.isPublic i = true
       ∧ ¬ productCondition i.
Proof.
  exists Example.p2_moved. split; [vm_compute; reflexivity|].
  split; [reflexivity|].
  rewrite <- productLike_spec. discriminate.
Qed.

End Derivation.

(** * Usage accounting across requests *)

Section Accounting.
Import ImageController.

Lemma sumZ_app l1 l2 : sumZ (l1 ++ l2) = sumZ l1 + sumZ l2.
Proof. unfold sumZ. induction l1 as [|x l1 IH]; cbn; lia. Qed.

Lemma grown_nil t : grown t [] = t.
Proof. destruct t as [s n]. unfold grown. cbn. f_equal; lia. Qed.

Lemma grown_app t l1 l2 : grown t (l1 ++ l2) = grown (grown t l1) l2.
Proof.
  unfold grown. cbn. rewrite sumZ_app, length_app. f_equal; lia.
Qed.

Lemma totals_stored a : totals (Application.stored a) = totals a.
Proof. done. Qed.

Lemma totals_reset now a :
  totals (Application.resetMonthlyUsage now a) = totals a.
Proof.
  unfold totals.
  by destruct (resetMonthlyUsage_totals now a) as (-> & -> & _).
Qed.

Lemma totals_recordUpload size a :
  totals (Application.recordUpload size a) = grown (totals a) [size].
Proof. unfold totals, grown, sumZ. cbn. f_equal; lia. Qed.

Lemma findById_keyed id apps app :
  keyedApplications apps →
  Application.findById id apps = Some app →
  ∃ a, apps !! id = Some a ∧ app = Application.stored a
       ∧ Application._id app = id.
Proof.
  intros Hk. unfold Application.findById.
  destruct (apps !! id) as [a|] eqn:Ha; [|done]. intros [= <-].
  exists a. split_and!; [done|done|]. cbn. by apply Hk.
Qed.

Lemma accounted_quiet tenant w r w' :
  applications w' = applications w →
  acceptedBy tenant r = [] →
  accounted tenant w (r, w').
Proof.
  intros Happs Hnone a Ha. exists a. cbn. rewrite Happs, Hnone.
  by rewrite grown_nil.
Qed.

Lemma refused_acceptedBy tenant r : refused r → acceptedBy tenant r = [].
Proof. by destruct r as [status [] []| |]. Qed.

Lemma accounted_insert tenant (apps : gmap string Application.t) id a a0
    sizes :
  apps !! id = Some a0 →
  totals a = grown (totals a0) sizes →
  ∀ b, apps !! tenant = Some b →
    ∃ b', <[id := a]> apps !! tenant = Some b'
          ∧ totals b'
            = grown (totals b) (if decide (id = tenant) then sizes else []).
Proof.
  intros Ha0 Ha b Hb. rewrite lookup_insert.
  destruct (decide (id = tenant)) as [->|Hne].
  - exists a. split; [done|]. congruence.
  - exists b. by rewrite grown_nil.
Qed.

Lemma uploadImage_accounted tenant env w req :
  keyed w → accounted tenant w (uploadImage env w req).
Proof.
  intros [_ Hk].
  destruct (uploadImage env w req) as [r w'] eqn:Hup.
  apply uploadImage_inv in Hup
    as [[-> Hrefused]|(f & ra & app & i & d & _ & _ & Hfind & _ & Hnew
                       & Hsave & Happs & -> & _)].
  - apply accounted_quiet; [done|]. by apply refused_acceptedBy.
  - apply (findById_keyed _ _ _ Hk) in Hfind as (a0 & Ha0 & -> & Hid).
    apply newImage_fields in Hnew as (_ & _ & _ & _ & Hsize & Howner).
    apply save_inv in Hsave as (_ & Himage & _).
    destruct (saved_fields (now env) true i)
      as (_ & Howner' & _ & _ & Hsize' & _).
    cbv zeta in Howner', Hsize'. rewrite <- Himage in Howner', Hsize'.
    intros b Hb. cbn [fst snd]. rewrite Happs. unfold Application.update.
    destruct (accounted_insert tenant (applications w) (ra_id ra)
                (Application.stored
                   (Application.recordUpload (f_size f)
                      (Application.resetMonthlyUsage (now env)
                         (Application.stored a0))))
                a0 [f_size f] Ha0) with (b := b) as (b' & Hb' & Htot);
      [|done|].
    { by rewrite totals_stored, totals_recordUpload, totals_reset,
        totals_stored. }
    exists b'. split.
    + rewrite <- Hb'. f_equal. cbn.
      destruct (resetMonthlyUsage_totals (now env) (Application.stored a0))
        as (_ & _ & _ & Hres). by rewrite Hres, Hid.
    + rewrite Htot. unfold acceptedBy. rewrite Howner', Howner, Hsize', Hsize.
      destruct (decide (ra_id ra = tenant)) as [->|Hne].
      * by rewrite String.eqb_refl.
      * by apply String.eqb_neq in Hne as ->.
Qed.

Lemma newBulkImage_fields env req f ra id vs i :
  newBulkImage env req f ra id vs = Some i →
  Image.size i = f_size f ∧ Image.application i = ra_id ra.
Proof.
  unfold newBulkImage. intros H.
  destruct (storageFields env f) as [[[s3Key url] path]|]; [|done].
  cbn in H. by injection H as <-.
Qed.

Lemma bulkStep_cases env req ra st f :
  bulkStep env req ra st f
  = mkBulkState (S (bs_index st)) (bs_application st) (bs_world st)
      (bs_results st) (bs_errors st ++ [originalname f])
  ∨ ∃ i image imgs,
      newBulkImage env req f ra (uuidv4 env (bs_index st))
        (buildVariants env f (uuidv4 env (bs_index st))) = Some i
      ∧ Image.save (now env) true i (images (bs_world st))
        = Some (image, imgs)
      ∧ bulkStep env req ra st f
        = mkBulkState (S (bs_index st))
            (Application.recordUpload (f_size f) (bs_application st))
            (mkWorld imgs
               (Application.update
                  (Application.recordUpload (f_size f) (bs_application st))
                  (applications (bs_world st))))
            (bs_results st
             ++ [mkBulkItem image
                   ("/api/images/" +:+ Image.imageId image +:+ "?token="
                    +:+ jwt_sign env
                          (accessPayload (Image.imageId image) (ra_id ra)))
                   (jwt_sign env
                      (accessPayload (Image.imageId image) (ra_id ra)))])
            (bs_errors st).
Proof.
  unfold bulkStep.
  destruct (newBulkImage _ _ _ _ _ _) as [i|] eqn:Hnew; [|by left].
  cbn [mbind option_bind].
  destruct (Image.save _ _ _ _) as [[image imgs]|] eqn:Hsave; [|by left].
  right. exists i, image, imgs. split_and!; [done|exact Hsave|reflexivity].
Qed.

Lemma bulkLoop_accounted env req ra fs : ∀ st a0,
  Application._id (bs_application st) = ra_id ra →
  applications (bs_world st) !! ra_id ra = Some a0 →
  totals a0 = totals (bs_application st) →
  ∃ a1 more,
    applications (bs_world (foldl (bulkStep env req ra) st fs)) !! ra_id ra
    = Some a1
    ∧ bs_results (foldl (bulkStep env req ra) st fs)
      = (bs_results st ++ more)%list
    ∧ totals a1 = grown (totals a0) (Image.size ∘ bi_image <$> more)
    ∧ (∀ it, it ∈ more → Image.application (bi_image it) = ra_id ra)
    ∧ (∀ t, t ≠ ra_id ra →
         applications (bs_world (foldl (bulkStep env req ra) st fs)) !! t
         = applications (bs_world st) !! t).
Proof.
  induction fs as [|f fs IH]; intros st a0 Hid Ha0 Htot; cbn [foldl].
  { exists a0, []. rewrite app_nil_r, grown_nil.
    split_and!; try done. by intros it ?%elem_of_nil. }
  destruct (bulkStep_cases env req ra st f)
    as [->|(i & image & imgs & Hnew & Hsave & ->)].
  { exact (IH (mkBulkState _ _ _ _ _) a0 Hid Ha0 Htot). }
  apply newBulkImage_fields in Hnew as [Hsize Howner].
  apply save_inv in Hsave as (_ & Himage & _).
  destruct (saved_fields (now env) true i)
    as (_ & Howner' & _ & _ & Hsize' & _).
  cbv zeta in Howner', Hsize'. rewrite <- Himage in Howner', Hsize'.
  set (app1 := Application.recordUpload (f_size f) (bs_application st)).
  set (item := mkBulkItem image _ _).
  assert (Application._id app1 = ra_id ra) as Hid1 by done.
  edestruct (IH (mkBulkState (S (bs_index st)) app1
                   (mkWorld imgs
                      (Application.update app1
                         (applications (bs_world st))))
                   (bs_results st ++ [item]) (bs_errors st))
                (Application.stored app1))
    as (a1 & more & Ha1 & Hres & Htot1 & Hown & Hother).
  - done.
  - cbn [bs_world applications]. unfold Application.update.
    rewrite Hid1. apply lookup_insert_eq.
  - done.
  - exists a1, (item :: more).
    cbn [bs_results bs_world applications] in *.
    split_and!.
    + done.
    + by rewrite Hres, <- app_assoc.
    + rewrite Htot1, totals_stored. unfold app1.
      rewrite totals_recordUpload, <- Htot.
      change (Image.size ∘ bi_image <$> item :: more)
        with ([Image.size image]
              ++ (Image.size ∘ bi_image <$> more))%list.
      by rewrite grown_app, Hsize', Hsize.
    + intros it [->|Hit]%elem_of_cons; [cbn; congruence|by apply Hown].
    + intros t Ht. rewrite (Hother t Ht). unfold Application.update.
      rewrite Hid1. apply lookup_insert_ne. congruence.
Qed.

Lemma filter_all {A} (P : A → Prop) `{∀ x, Decision (P x)} (l : list A) :
  (∀ x, x ∈ l → P x) → filter P l = l.
Proof.
  induction l as [|x l IH]; intros Hall; [done|].
  rewrite filter_cons_True by (apply Hall; left).
  f_equal. apply IH. intros y Hy. apply Hall. by right.
Qed.

Lemma filter_none {A} (P : A → Prop) `{∀ x, Decision (P x)} (l : list A) :
  (∀ x, x ∈ l → ¬ P x) → filter P l = [].
Proof.
  induction l as [|x l IH]; intros Hall; [done|].
  rewrite filter_cons_False by (apply Hall; left).
  apply IH. intros y Hy. apply Hall. by right.
Qed.

Lemma bulkUploadImages_accounted tenant env w req :
  keyed w → accounted tenant w (bulkUploadImages env w req).
Proof.
  intros [_ Hk]. unfold bulkUploadImages.
  destruct (files req) as [|f0 fs] eqn:Hfiles;
    [by apply accounted_quiet|].
  destruct (application req) as [ra|]; [|by apply accounted_quiet].
  destruct (Application.findById _ _) as [app|] eqn:Hfind;
    [|by apply accounted_quiet].
  apply (findById_keyed _ _ _ Hk) in Hfind as (a0 & Ha0 & -> & Hid).
  destruct (Application.canUpload _ _ _) as [v app'] eqn:Hcan.
  assert (app' = Application.resetMonthlyUsage (now env)
                   (Application.stored a0)) as ->.
  { by rewrite <- (canUpload_doc (now env)
                     (Some (foldl (λ sum f, sum + f_size f) 0 (f0 :: fs)))),
      Hcan. }
  destruct (Application.allowed v); cbn [negb]; [|by apply accounted_quiet].
  destruct (bulkLoop_accounted env req ra (f0 :: fs)
              (mkBulkState 0
                 (Application.resetMonthlyUsage (now env)
                    (Application.stored a0)) w [] []) a0)
    as (a1 & more & Ha1 & Hres & Htot & Hown & Hother).
  { cbn. by destruct (resetMonthlyUsage_totals (now env)
                        (Application.stored a0)) as (_ & _ & _ & ->). }
  { done. }
  { cbn. by rewrite totals_reset, totals_stored. }
  cbn [bs_results bs_world app] in *.
  intros b Hb. cbn [fst snd]. unfold acceptedBy. rewrite Hres.
  cbn [app]. destruct (decide (tenant = ra_id ra)) as [->|Hne].
  - exists a1. split; [done|]. rewrite Htot.
    replace b with a0 by congruence.
    rewrite filter_all, <- list_fmap_compose; [done|].
    intros i (it & -> & Hit)%list_elem_of_fmap. by apply Hown.
  - exists b. split; [by rewrite Hother|].
    rewrite filter_none; [by rewrite grown_nil|].
    intros i (it & -> & Hit)%list_elem_of_fmap. rewrite (Hown it Hit).
    congruence.
Qed.

(** The handlers that do not upload report no accepted upload and leave
    the ledger alone. *)
Lemma getImage_quiet tenant env w req :
  acceptedBy tenant (getImage env w req).1 = [].
Proof.
  unfold getImage, getImageDenial, serve.
  repeat case_match; simplify_eq; done.
Qed.

Lemma getImageInfo_quiet tenant env w req :
  acceptedBy tenant (getImageInfo env w req).1 = [].
Proof.
  unfold getImageInfo, infoAccess.
  repeat case_match; simplify_eq; done.
Qed.

Lemma deleteImage_quiet tenant env w req :
  acceptedBy tenant (deleteImage env w req).1 = [].
Proof. unfold deleteImage. repeat case_match; simplify_eq; done. Qed.

Lemma updateImageMetadata_quiet tenant env w req :
  acceptedBy tenant (updateImageMetadata env w req).1 = [].
Proof.
  unfold updateImageMetadata.
  destruct (application req); [|done].
  destruct (Image.findOwned _ _ _); [|done].
  by destruct (Image.save _ _ _ _) as [[? ?]|].
Qed.

Lemma replaceImage_quiet tenant env w req :
  acceptedBy tenant (replaceImage env w req).1 = [].
Proof.
  unfold replaceImage.
  destruct (file req); [|done].
  destruct (application req); [|done].
  destruct (Image.findOwned _ _ _); [|done].
  by destruct (_ ≫= _) as [[? ?]|].
Qed.

Lemma listImages_quiet tenant env w req :
  acceptedBy tenant (listImages env w req).1 = [].
Proof.
  unfold listImages. destruct (application req); [|done].
  by destruct (_ <? 0).
Qed.

Lemma dispatch_accounted tenant route env w req :
  keyed w → accounted tenant w (Routes.dispatch route env w req).
Proof.
  intros Hk.
  assert (∀ handler : Routes.Handler,
            (∀ req', accounted tenant w (handler env w req')) →
            accounted tenant w (Routes.protected handler env w req))
    as Hprotected.
  { intros handler H. unfold Routes.protected.
    destruct (Auth.authenticateApplication _ _ _) as [r|req'] eqn:Hauth;
      [|apply H].
    apply authenticateApplication_answer in Hauth as (? & ? & ->).
    by apply accounted_quiet. }
  assert (∀ handler : Routes.Handler,
            (∀ req', applications (handler env w req').2 = applications w) →
            (∀ req', acceptedBy tenant (handler env w req').1 = []) →
            ∀ req', accounted tenant w (handler env w req')) as Hquiet.
  { intros handler Happs Hnone req'.
    destruct (handler env w req') as [r w'] eqn:Hh.
    apply accounted_quiet.
    - by rewrite <- (Happs req'), Hh.
    - by rewrite <- (Hnone req'), Hh. }
  destruct route; cbn [Routes.dispatch]; try apply Hprotected;
    unfold Routes.open.
  - intros req'. by apply uploadImage_accounted.
  - intros req'. by apply bulkUploadImages_accounted.
  - apply Hquiet; intros req'.
    + by rewrite listImages_step.
    + apply listImages_quiet.
  - apply Hquiet; intros req'.
    + apply getImageInfo_step.
    + apply getImageInfo_quiet.
  - apply Hquiet; intros req'.
    + apply getImage_step.
    + apply getImage_quiet.
  - apply Hquiet; intros req'.
    + apply updateImageMetadata_step.
    + apply updateImageMetadata_quiet.
  - apply Hquiet; intros req'.
    + apply replaceImage_step.
    + apply replaceImage_quiet.
  - apply Hquiet; intros req'.
    + apply deleteImage_step.
    + apply deleteImage_quiet.
Qed.

Lemma run_accounted tenant calls : ∀ w a,
  keyed w →
  applications w !! tenant = Some a →
  ∃ a', applications (Routes.run calls w) !! tenant = Some a'
        ∧ totals a' = grown (totals a) (accepted tenant calls w).
Proof.
  induction calls as [|c calls IH]; intros w a Hk Ha; cbn [accepted].
  { exists a. by rewrite grown_nil. }
  destruct (dispatch_accounted tenant (Routes.c_route c) (Routes.c_env c) w
              (Routes.c_request c) Hk a Ha) as (a1 & Ha1 & Htot1).
  destruct (dispatch_evolves (Routes.c_route c) (Routes.c_env c) w
              (Routes.c_request c) Hk) as [Hk1 _].
  destruct (IH _ a1 Hk1 Ha1) as (a' & Ha' & Htot').
  exists a'. split; [done|]. by rewrite grown_app, <- Htot1.
Qed.

(** C5.  Whatever requests the service handles one after another, the
    storage total of a tenant that started from fresh counters is the sum
    of the byte sizes of its accepted uploads, and its image total is
    their number: [recordUpload] runs exactly once for each of them. *)
Theorem usage_matches_accepted_uploads (tenant : string)
    (calls : list Routes.Call) (w : World) (a : Application.t) :
  keyed w →
  applications w !! tenant = Some a →
  Application.totalStorageUsed (Application.usage a) = 0 →
  Application.totalImages (Application.usage a) = 0 →
  ∃ a', applications (Routes.run calls w) !! tenant = Some a'
        ∧ Application.totalStorageUsed (Application.usage a')
          = sumZ (accepted tenant calls w)
        ∧ Application.totalImages (Application.usage a')
          = Z.of_nat (length (accepted tenant calls w)).
Proof.
  intros Hk Ha Hs Hn.
  destruct (run_accounted tenant calls w a Hk Ha) as (a' & Ha' & Htot).
  exists a'. split; [done|].
  unfold totals, grown in Htot. rewrite Hs, Hn in Htot. cbn in Htot.
  by injection Htot as -> ->.
Qed.

Lemma usage_matches_accepted_uploads_witness :
  let calls :=
    [Routes.mkCall (Example.env Example.march true "p1") Routes.PostUpload
       (Example.uploadRequest "app:acme" (Some "personal"));
     Routes.mkCall (Example.env Example.march true "g1") Routes.PostUpload
       (Example.uploadRequest "app:globex" None);
     Routes.mkCall (Example.env Example.april true "") Routes.GetInfo
       (Example.readRequest "p1" (Some "app:acme") None);
     Routes.mkCall (Example.env Example.april false "p2") Routes.PostUpload
       (Example.uploadRequest "app:acme" (Some "product"));
     Routes.mkCall (Example.env Example.april true "p3") Routes.PostUpload
       (Example.uploadRequest "bad" None)] in
  accepted "acme" calls Example.world0 = [1048576; 1048576]
  ∧ ∃ a', applications (Routes.run calls Example.world0) !! "acme" = Some a'
          ∧ Application.totalStorageUsed (Application.usage a') = 2097152
          ∧ Application.totalImages (Application.usage a') = 2.
Proof.
  intros calls.
  assert (accepted "acme" calls Example.world0 = [1048576; 1048576])
    as Haccepted by (vm_compute; reflexivity).
  split; [exact Haccepted|].
  destruct (usage_matches_accepted_uploads "acme" calls Example.world0
              Example.acme keyed_example eq_refl eq_refl eq_refl)
    as (a' & Ha' & Hs & Hn).
  exists a'. rewrite Haccepted in Hs, Hn. by split_and!.
Defined.

End Accounting.

(** * The two reads *)

Section Reads.
Import ImageController.

Lemma recordAccess_ok now image db :
  Image.validate image = true →
  Image.recordAccess now image db
  = Some (accessed now image,
          <[Image.imageId image := accessed now image]> db).
Proof.
  intros Hvalid. unfold accessed, Image.recordAccess, Image.save.
  replace (Image.validate _) with true by (by rewrite <- Hvalid).
  cbn [andb]. unfold Image.preSave.
  by destruct (Image.productLike _).
Qed.

Lemma accessed_fields now image :
  Image.validate image = true →
  Image.accessCount (accessed now image) = Image.accessCount image + 1
  ∧ Image.lastAccessedAt (accessed now image) = Some now
  ∧ Image.imageId (accessed now image) = Image.imageId image
  ∧ Image.application (accessed now image) = Image.application image
  ∧ Image.category (accessed now image) = Image.category image
  ∧ Image.isDeleted (accessed now image) = Image.isDeleted image
  ∧ Image.versions (accessed now image) = Image.versions image
  ∧ Image.variants (accessed now image) = Image.variants image
  ∧ Image.path (accessed now image) = Image.path image
  ∧ Image.mimetype (accessed now image) = Image.mimetype image.
Proof.
  intros Hvalid. unfold accessed, Image.recordAccess, Image.save.
  replace (Image.validate _) with true by (by rewrite <- Hvalid).
  cbn [andb]. unfold Image.preSave.
  by destruct (Image.productLike _).
Qed.

Lemma getImageDenial_auth env apps req image :
  getImageDenial env (Auth.optionalApplicationAuth env apps req) image
  = getImageDenial env req image.
Proof.
  destruct (optionalApplicationAuth_fields env apps req) as (Hid & Hq & Hu).
  cbv zeta in Hid, Hq, Hu. unfold getImageDenial. by rewrite Hid, Hq, Hu.
Qed.




(** X2.  On a private asset a [?token=] that does not verify ends the
    request with 401 on both reads, whoever the bearer is: the token is
    looked at first and the bearer is not consulted after it. *)
Theorem bad_token_overrides_bearer (env : Env) (w : World) (req : Request)
    (image : Image.t) (token : string) (e : JwtError) :
  Image.findLive (imageIdParam req) (images w) = Some image →
  Image.isPublic image = false →
  keepTruthy (q_token (query req)) = Some token →
  jwt_verify env token = inl e →
  Routes.dispatch Routes.GetImage env w req
  = (fail 401 "Invalid or expired access token", w)
  ∧ Routes.dispatch Routes.GetInfo env w req
    = (fail 401 "Invalid or expired access token", w).
Proof.
  intros Hfind Hprivate Htoken Hverify.
  cbn. unfold Routes.open, getImage, getImageInfo.
  destruct (optionalApplicationAuth_fields env (applications w) req)
    as (Hid & Hq & _).
  cbv zeta in Hid, Hq. rewrite Hid, Hfind, Hprivate.
  unfold getImageDenial, infoAccess.
  by rewrite Hq, Htoken, Hverify.
Qed.



Lemma recordAccess_inv now image db i' db' :
  Image.recordAccess now image db = Some (i', db') →
  Image.validate image = true
  ∧ i' = accessed now image
  ∧ db' = <[Image.imageId image := accessed now image]> db.
Proof.
  intros Hrec.
  assert (Image.validate image = true) as Hvalid.
  { unfold Image.recordAccess, Image.save in Hrec.
    destruct (Image.validate _) eqn:Hv in Hrec; [|done]. by rewrite <- Hv. }
  rewrite (recordAccess_ok now image db Hvalid) in Hrec.
  by injection Hrec as <- <-.
Qed.

Lemma serve_status env image size :
  statusOf (serve env image size) ≠ 401
  ∧ statusOf (serve env image size) ≠ 403.
Proof. unfold serve. repeat case_match; by cbn. Qed.

(** X5.  A read changes nothing but the access telemetry of the asset it
    reads: the ledger is left alone; either both collections are as
    before, or the one record read has been replaced by itself with the
    access counted; and a read answered 401 or 403 has changed
    nothing. *)
Theorem read_counts_or_changes_nothing (route : Routes.Route) (env : Env)
    (w : World) (req : Request) :
  route = Routes.GetImage ∨ route = Routes.GetInfo →
  let answer := Routes.dispatch route env w req in
  applications answer.2 = applications w
  ∧ (answer.2 = w
     ∨ ∃ image,
         Image.findLive (imageIdParam req) (images w) = Some image
         ∧ images answer.2
           = <[Image.imageId image := accessed (now env) image]> (images w)
         ∧ Image.accessCount (accessed (now env) image)
           = Image.accessCount image + 1
         ∧ Image.lastAccessedAt (accessed (now env) image) = Some (now env))
  ∧ (statusOf answer.1 = 401 ∨ statusOf answer.1 = 403 → answer.2 = w).
Proof.
  intros Hroute.
  destruct (optionalApplicationAuth_fields env (applications w) req)
    as (Hid & _).
  cbv zeta in Hid.
  assert (∀ image i' db',
            Image.findLive (imageIdParam req) (images w) = Some image →
            Image.recordAccess (now env) image (images w) = Some (i', db') →
            ∃ image0,
              Image.findLive (imageIdParam req) (images w) = Some image0
              ∧ db' = <[Image.imageId image0 := accessed (now env) image0]>
                        (images w)
              ∧ Image.accessCount (accessed (now env) image0)
                = Image.accessCount image0 + 1
              ∧ Image.lastAccessedAt (accessed (now env) image0)
                = Some (now env)) as Hcounted.
  { intros image i' db' Hfind (Hvalid & _ & ->)%recordAccess_inv.
    destruct (accessed_fields (now env) image Hvalid) as (? & ? & _).
    by exists image. }
  destruct Hroute as [-> | ->]; cbn [Routes.dispatch]; unfold Routes.open.
  - unfold getImage. rewrite Hid.
    destruct (Image.findLive _ _) as [image|] eqn:Hfind; [|by auto].
    destruct (if Image.isPublic image then None else _) as [denial|];
      [by auto|].
    destruct (Image.recordAccess _ _ _) as [[i' db']|] eqn:Hrec; [|by auto].
    cbn [fst snd images applications]. split_and!; [done| |].
    + right. by eapply Hcounted.
    + intros Hstatus. destruct (serve_status env i'
        (default "original"
           (q_size (query (Auth.optionalApplicationAuth env
                             (applications w) req))))). tauto.
  - unfold getImageInfo. rewrite Hid.
    destruct (Image.findLive _ _) as [image|] eqn:Hfind; [|by auto].
    destruct (if Image.isPublic image then _ else _) as [|[[] token]];
      [by auto| |by auto].
    destruct (Image.recordAccess _ _ _) as [[i' db']|] eqn:Hrec; [|by auto].
    cbn [fst snd images applications]. split_and!; [done| |].
    + right. by eapply Hcounted.
    + cbn. intros [?|?]; lia.
Qed.


Lemma bad_token_overrides_bearer_witness :
  let e := Example.env Example.april true "" in
  let req := Example.readRequest "p1" (Some "app:acme") (Some "old") in
  Routes.dispatch Routes.GetInfo e Example.world1 req
  = (fail 401 "Invalid or expired access token", Example.world1).
Proof.
  intros e req.
  apply (bad_token_overrides_bearer e Example.world1 req Example.p1 "old"
           TokenExpiredError); reflexivity.
Defined.



Lemma read_counts_or_changes_nothing_witness :
  let e := Example.env Example.april true "" in
  let req := Example.readRequest "p1" None None in
  (Routes.dispatch Routes.GetInfo e Example.world1 req).2 = Example.world1.
Proof.
  intros e req.
  destruct (read_counts_or_changes_nothing Routes.GetInfo e Example.world1
              req (or_intror eq_refl)) as (_ & _ & Hdenied).
  apply Hdenied. right. reflexivity.
Defined.

End Reads.

(** * The history of a record *)

Section History.
Import ImageController.

Lemma keeps_refl db : keeps db db.
Proof. intros k i H. exists i. by split_and!. Qed.

Lemma keeps_trans db1 db2 db3 : keeps db1 db2 → keeps db2 db3 → keeps db1 db3.
Proof.
  intros H12 H23 k i H.
  destruct (H12 k i H) as (i2 & H2 & Hc & Ha & Hv & Hd).
  destruct (H23 k i2 H2) as (i3 & H3 & Hc' & Ha' & Hv' & Hd').
  exists i3. split_and!; [done|congruence|lia|by etrans|].
  intros Hdel. specialize (Hd Hdel). subst i2. by apply Hd'.
Qed.

Lemma touch_fields now isNew i :
  let i' := Image.touch now isNew (Image.preSave i) in
  Image.accessCount i' = Image.accessCount i
  ∧ Image.versions i' = Image.versions i
  ∧ (isNew = false → Image.createdAt i' = Image.createdAt i).
Proof.
  cbv zeta. unfold Image.preSave.
  destruct (Image.productLike i), isNew; by cbn.
Qed.

Lemma written_sound db db' :
  keyedImages db → written db db' → keyedImages db' ∧ keeps db db'.
Proof.
  intros Hkeyed Hwritten.
  destruct Hwritten
    as [now i i' db' Hsave
       |now k old i i' db' Hold Hlive Hid Hcreated Hcount Hvers Hsave];
    apply save_inv in Hsave as (_ & -> & -> & Hfresh).
  - destruct (saved_fields now true i) as (Hi & _). cbv zeta in Hi.
    specialize (Hfresh eq_refl). split.
    + intros k j. rewrite lookup_insert. case_decide as Hk.
      * intros [= <-]. by rewrite Hi.
      * apply Hkeyed.
    + intros k j Hj. exists j. rewrite lookup_insert_ne by congruence.
      by split_and!.
  - destruct (saved_fields now false i) as (Hi & _). cbv zeta in Hi.
    destruct (touch_fields now false i) as (Hc & Hv & Hcr).
    cbv zeta in Hc, Hv, Hcr. specialize (Hcr eq_refl).
    pose proof (Hkeyed _ _ Hold) as Hkold. split.
    + intros k' j. rewrite lookup_insert. case_decide as Hk.
      * intros [= <-]. by rewrite Hi.
      * apply Hkeyed.
    + intros k' j Hj. rewrite lookup_insert. case_decide as Hk.
      * assert (k' = k) as -> by congruence. rewrite Hold in Hj.
        injection Hj as <-. eexists. split; [done|].
        rewrite Hc, Hv, Hcr. split_and!; [done|done|done|]. congruence.
      * exists j. by split_and!.
Qed.

Ltac edit_written Hlook Hlive Hsave :=
  cbn; right;
  eapply written_edit; [exact Hlook|exact Hlive| | | | |exact Hsave]; cbn;
  try done; try lia.

Lemma getImage_written env w req :
  images (getImage env w req).2 = images w
  ∨ written (images w) (images (getImage env w req).2).
Proof.
  unfold getImage.
  destruct (Image.findLive _ _) as [image|] eqn:Hfind; [|by auto].
  apply findLive_Some in Hfind as [Hlook Hlive].
  destruct (if Image.isPublic image then None else _); [by auto|].
  unfold Image.recordAccess.
  destruct (Image.save _ _ _ _) as [[i' imgs]|] eqn:Hsave; [|by auto].
  edit_written Hlook Hlive Hsave.
Qed.

Lemma getImageInfo_written env w req :
  images (getImageInfo env w req).2 = images w
  ∨ written (images w) (images (getImageInfo env w req).2).
Proof.
  unfold getImageInfo.
  destruct (Image.findLive _ _) as [image|] eqn:Hfind; [|by auto].
  apply findLive_Some in Hfind as [Hlook Hlive].
  destruct (if Image.isPublic image then _ else _) as [|[[] token]];
    [by auto| |by auto].
  unfold Image.recordAccess.
  destruct (Image.save _ _ _ _) as [[i' imgs]|] eqn:Hsave; [|by auto].
  edit_written Hlook Hlive Hsave.
Qed.

Lemma deleteImage_written env w req :
  images (deleteImage env w req).2 = images w
  ∨ written (images w) (images (deleteImage env w req).2).
Proof.
  unfold deleteImage.
  destruct (application req) as [ra|]; [|by auto].
  destruct (Image.findOwned _ _ _) as [image|] eqn:Hfind; [|by auto].
  apply findOwned_Some in Hfind as (Hlook & Hlive & Howner).
  unfold Image.softDelete.
  destruct (Image.save _ _ _ _) as [[i' imgs]|] eqn:Hsave; [|by auto].
  edit_written Hlook Hlive Hsave.
Qed.

Lemma updateImageMetadata_written env w req :
  images (updateImageMetadata env w req).2 = images w
  ∨ written (images w) (images (updateImageMetadata env w req).2).
Proof.
  unfold updateImageMetadata.
  destruct (application req) as [ra|]; [|by auto].
  destruct (Image.findOwned _ _ _) as [image|] eqn:Hfind; [|by auto].
  apply findOwned_Some in Hfind as (Hlook & Hlive & Howner).
  destruct (Image.save _ _ _ _) as [[i' imgs]|] eqn:Hsave; [|by auto].
  edit_written Hlook Hlive Hsave.
Qed.

Lemma replaceImage_written env w req :
  images (replaceImage env w req).2 = images w
  ∨ written (images w) (images (replaceImage env w req).2).
Proof.
  unfold replaceImage.
  destruct (file req) as [f|]; [|by auto].
  destruct (application req) as [ra|]; [|by auto].
  destruct (Image.findOwned _ _ _) as [image|] eqn:Hfind; [|by auto].
  apply findOwned_Some in Hfind as (Hlook & Hlive & Howner).
  destruct (fileMetadata req) as [md|]; [|by auto]. cbn.
  destruct (storageFields env f) as [[[s3Key url] path]|]; [|by auto]. cbn.
  destruct (Image.save _ _ _ _) as [[i' imgs]|] eqn:Hsave; [|by auto].
  edit_written Hlook Hlive Hsave. by apply prefix_app_r.
Qed.

Lemma remembers_refl w : remembers w w.
Proof. intros H. split; [done|apply keeps_refl]. Qed.

Lemma remembers_trans w1 w2 w3 :
  remembers w1 w2 → remembers w2 w3 → remembers w1 w3.
Proof.
  intros H12 H23 H1. destruct (H12 H1) as [H2 Ha].
  destruct (H23 H2) as [H3 Ha']. split; [done|]. by eapply keeps_trans.
Qed.

Lemma remembers_images w w' :
  applications w' = applications w →
  images w' = images w ∨ written (images w) (images w') →
  remembers w w'.
Proof.
  intros Happs Himgs [Hki Hka]. unfold keyed. rewrite Happs.
  destruct Himgs as [->|Hw].
  - split; [done|apply keeps_refl].
  - destruct (written_sound _ _ Hki Hw). by split.
Qed.

Lemma uploadImage_remembers env w req :
  remembers w (uploadImage env w req).2.
Proof.
  destruct (uploadImage env w req) as [r w'] eqn:Hup. cbn.
  apply uploadImage_inv in Hup
    as [[-> _]|(f & ra & app & i & d & _ & _ & _ & _ & _ & Hsave & Happs & _)].
  - apply remembers_refl.
  - intros [Hki Hka]. unfold keyed. rewrite Happs.
    destruct (written_sound (images w) (images w') Hki) as [Hk Ha].
    { by eapply written_new. }
    split_and!; [done| |done]. by apply keyedApplications_update.
Qed.

Lemma bulkStep_remembers env req ra st f :
  remembers (bs_world st) (bs_world (bulkStep env req ra st f)).
Proof.
  destruct (bulkStep_cases env req ra st f)
    as [->|(i & image & imgs & _ & Hsave & ->)]; [apply remembers_refl|].
  intros [Hki Hka]. unfold keyed. cbn [bs_world images applications].
  destruct (written_sound (images (bs_world st)) imgs Hki) as [Hk Ha].
  { by eapply written_new. }
  split_and!; [done| |done]. by apply keyedApplications_update.
Qed.

Lemma bulkLoop_remembers env req ra fs : ∀ st,
  remembers (bs_world st) (bs_world (foldl (bulkStep env req ra) st fs)).
Proof.
  induction fs as [|f fs IH]; intros st; cbn; [apply remembers_refl|].
  eapply remembers_trans; [apply bulkStep_remembers|apply IH].
Qed.

Lemma bulkUploadImages_remembers env w req :
  remembers w (bulkUploadImages env w req).2.
Proof.
  unfold bulkUploadImages.
  destruct (files req) as [|f0 fs]; [apply remembers_refl|].
  destruct (application req) as [ra|]; [|apply remembers_refl].
  destruct (Application.findById _ _) as [app|]; [|apply remembers_refl].
  destruct (Application.canUpload _ _ app) as [v app'].
  destruct (negb (Application.allowed v)); cbn; [apply remembers_refl|].
  apply (bulkLoop_remembers env req ra (f0 :: fs)
           (mkBulkState 0 app' w [] [])).
Qed.

Lemma dispatch_remembers route env w req :
  remembers w (Routes.dispatch route env w req).2.
Proof.
  assert (∀ handler : Routes.Handler,
            (∀ env w req, remembers w (handler env w req).2) →
            ∀ env w req, remembers w (Routes.protected handler env w req).2)
    as Hprotected.
  { intros handler H env' w' req'. unfold Routes.protected.
    destruct (Auth.authenticateApplication _ _ _);
      [apply remembers_refl|apply H]. }
  destruct route; cbn [Routes.dispatch];
    try (apply Hprotected; clear; intros env w req);
    unfold Routes.open.
  - apply uploadImage_remembers.
  - apply bulkUploadImages_remembers.
  - rewrite listImages_step. apply remembers_refl.
  - apply remembers_images;
      [apply getImageInfo_step|apply getImageInfo_written].
  - apply remembers_images; [apply getImage_step|apply getImage_written].
  - apply remembers_images;
      [apply updateImageMetadata_step|apply updateImageMetadata_written].
  - apply remembers_images;
      [apply replaceImage_step|apply replaceImage_written].
  - apply remembers_images;
      [apply deleteImage_step|apply deleteImage_written].
Qed.

Lemma run_remembers calls : ∀ w, remembers w (Routes.run calls w).
Proof.
  induction calls as [|c calls IH]; intros w; cbn; [apply remembers_refl|].
  eapply remembers_trans; [apply dispatch_remembers|apply IH].
Qed.

(** X6.  A soft-deleted record is frozen: whatever requests the service
    handles afterwards, on any of the eight image routes, the record stays
    in the collection exactly as the delete left it.  No read counts an
    access on it, no update or replacement touches it, and nothing
    restores it. *)
Theorem deleted_record_is_frozen (calls : list Routes.Call) (w : World)
    (id : string) (i : Image.t) :
  keyed w →
  images w !! id = Some i →
  Image.isDeleted i = true →
  images (Routes.run calls w) !! id = Some i.
Proof.
  intros Hkeyed Hlook Hdeleted.
  destruct (run_remembers calls w Hkeyed) as [_ Hkeeps].
  destruct (Hkeeps id i Hlook) as (i' & Hlook' & _ & _ & _ & Hsame).
  by rewrite Hlook', (Hsame Hdeleted).
Qed.

Lemma deleted_record_is_frozen_witness :
  let e := Example.env Example.april true "" in
  let w :=
    (Routes.dispatch Routes.DeleteImage e Example.world1
       (Example.metadataRequest "p1" "app:acme" None)).2 in
  let calls :=
    [Routes.mkCall e Routes.GetImage
       (Example.readRequest "p1" None (Some "img:p1"));
     Routes.mkCall e Routes.PatchMetadata
       (Example.metadataRequest "p1" "app:acme" (Some "product"));
     Routes.mkCall e Routes.DeleteImage
       (Example.metadataRequest "p1" "app:acme" None)] in
  images (Routes.run calls w) !! "p1" = images w !! "p1".
Proof.
  intros e w calls.
  assert (keyed w) as Hkeyed.
  { apply (dispatch_evolves Routes.DeleteImage e Example.world1
             (Example.metadataRequest "p1" "app:acme" None)).
    apply world1_keyed. }
  destruct (images w !! "p1") as [i|] eqn:Hlook; [|by vm_compute in Hlook].
  apply (deleted_record_is_frozen calls w "p1" i Hkeyed Hlook).
  vm_compute in Hlook. injection Hlook as <-. reflexivity.
Defined.

(** X7.  The history of a record only grows: over any sequence of requests
    a record of the catalog stays in it under the same identifier, with
    the same owning application and creation date, an access counter that
    is not lower, and a version history that extends the one it had. *)
Theorem record_history_only_grows (calls : list Routes.Call) (w : World)
    (id : string) (i : Image.t) :
  keyed w →
  images w !! id = Some i →
  ∃ i', images (Routes.run calls w) !! id = Some i'
        ∧ Image.imageId i' = Image.imageId i
        ∧ Image.application i' = Image.application i
        ∧ Image.createdAt i' = Image.createdAt i
        ∧ Image.accessCount i ≤ Image.accessCount i'
        ∧ Image.versions i `prefix_of` Image.versions i'.
Proof.
  intros Hkeyed Hlook.
  destruct (run_remembers calls w Hkeyed) as [[Hkeyed' _] Hkeeps].
  destruct (run_evolves calls w Hkeyed) as [_ Hadvances].
  destruct (Hkeeps id i Hlook) as (i' & Hlook' & Hcreated & Hcount & Hvers & _).
  destruct (Hadvances id i Hlook) as (i'' & Hlook'' & Howner & _).
  assert (i'' = i') as -> by congruence.
  exists i'. split_and!; try done.
  destruct Hkeyed as [Hk _]. by rewrite (Hkeyed' _ _ Hlook'), (Hk _ _ Hlook).
Qed.

Lemma record_history_only_grows_witness :
  let e := Example.env Example.april true "" in
  let calls :=
    [Routes.mkCall e Routes.GetImage (Example.readRequest "p2" None None);
     Routes.mkCall (Example.env Example.april false "p3") Routes.PutImage
       (mkRequest (Some "Bearer app:acme") "p2" Example.noQuery
          Example.noBody (Some Example.photo) []
          (Some Example.photoMetadata) None None)] in
  ∃ i', images (Routes.run calls Example.world2) !! "p2" = Some i'
        ∧ Image.application i' = "acme"
        ∧ 0 ≤ Image.accessCount i'.
Proof.
  intros e calls.
  destruct (record_history_only_grows calls Example.world2 "p2" Example.p2
              world2_keyed eq_refl)
    as (i' & Hlook & _ & Howner & _ & Hcount & _).
  exists i'. split_and!; [exact Hlook|exact Howner|exact Hcount].
Defined.

End History.

(** * The three writes to a stored asset *)

Section Writes.
Import ImageController.

Lemma authenticateApplication_inr env apps req req' :
  Auth.authenticateApplication env apps req = inr req' →
  ∃ id a, apps !! id = Some a
          ∧ Application.isActive a = true
          ∧ req' = Auth.set_application
                     (Auth.describe (Application.stored a)) req.
Proof.
  unfold Auth.authenticateApplication. intros H.
  destruct (Auth.bearerToken req) as [token|]; [|done].
  destruct (jwt_verify env token) as [[]|decoded]; try done.
  destruct (Image.strictEq _ _); [|done].
  destruct (jwt_id decoded) as [id|]; [|done]. cbn in H.
  unfold Application.findById in H.
  destruct (apps !! id) as [a|] eqn:Ha; [|done]. cbn in H.
  destruct (Application.isActive a) eqn:Hactive; [|done].
  injection H as <-. by exists id, a.
Qed.

Lemma caller_Some env w req tenant :
  caller env w req = Some tenant →
  ∃ req', Auth.authenticateApplication env (applications w) req = inr req'
          ∧ imageIdParam req' = imageIdParam req
          ∧ body req' = body req
          ∧ file req' = file req
          ∧ ∃ ra, application req' = Some ra ∧ ra_id ra = tenant.
Proof.
  unfold caller.
  destruct (Auth.authenticateApplication _ _ _) as [|req'] eqn:Hauth; [done|].
  intros Hcaller. exists req'. split; [done|].
  apply authenticateApplication_inr in Hauth as (id & a & _ & _ & ->).
  cbn in *. split_and!; try done. injection Hcaller as <-. eauto.
Qed.

Lemma findOwned_foreign id tenant db :
  (∀ image, db !! id = Some image → Image.application image ≠ tenant) →
  Image.findOwned id tenant db = None.
Proof.
  intros Hforeign. unfold Image.findOwned.
  destruct (db !! id) as [image|]; [|done].
  destruct (negb _); [|done]. cbn.
  destruct (String.eqb_spec (Image.application image) tenant); [|done].
  by destruct (Hforeign image).
Qed.

(** X8.  Tenant isolation of the writes: an application that addresses
    an asset which is not its own gets, from the metadata update, the
    replacement and the delete, the 404 of an unknown identifier (the
    replacement asks for its file first), and neither collection is
    changed. *)
Theorem writes_require_ownership (env : Env) (w : World) (req : Request)
    (tenant : string) :
  caller env w req = Some tenant →
  (∀ image, images w !! imageIdParam req = Some image →
            Image.application image ≠ tenant) →
  Routes.dispatch Routes.PatchMetadata env w req
  = (fail 404 "Image not found", w)
  ∧ Routes.dispatch Routes.DeleteImage env w req
    = (fail 404 "Image not found or already deleted", w)
  ∧ Routes.dispatch Routes.PutImage env w req
    = (match file req with
       | Some _ => fail 404 "Image not found"
       | None => fail 400 "No replacement file uploaded"
       end, w).
Proof.
  intros (req' & Hauth & Hid & _ & Hfile & ra & Hra & <-)%caller_Some
         Hforeign.
  apply findOwned_foreign in Hforeign.
  cbn [Routes.dispatch]. unfold Routes.protected. rewrite Hauth.
  unfold updateImageMetadata, deleteImage, replaceImage.
  rewrite Hra, Hid, Hforeign, Hfile. split_and!; [done|done|].
  by destruct (file req).
Qed.

Lemma writes_require_ownership_witness :
  let e := Example.env Example.april true "" in
  let req := Example.metadataRequest "p1" "app:globex" (Some "product") in
  Routes.dispatch Routes.DeleteImage e Example.world1 req
  = (fail 404 "Image not found or already deleted", Example.world1).
Proof.
  intros e req.
  destruct (writes_require_ownership e Example.world1 req "globex")
    as (_ & Hdelete & _).
  - reflexivity.
  - intros image Hlook. vm_compute in Hlook. injection Hlook as <-.
    discriminate.
  - exact Hdelete.
Defined.

Lemma edit_fields now i :
  let i' := Image.touch now false (Image.preSave i) in
  sameFile i' i ∧ sameAssociation i' i ∧ sameLabels i' i
  ∧ sameTelemetry i' i
  ∧ Image.versions i' = Image.versions i
  ∧ Image.isDeleted i' = Image.isDeleted i
  ∧ Image.deletedAt i' = Image.deletedAt i
  ∧ Image.updatedAt i' = now.
Proof.
  cbv zeta. unfold Image.preSave, sameFile, sameAssociation, sameLabels,
    sameTelemetry.
  destruct (Image.productLike i); cbn; by split_and!.
Qed.





(** X11.  A successful delete only marks the record: it stays in the
    catalog with its file, manifest, version history, associations,
    descriptive fields and telemetry, now flagged deleted at the time of
    the request; and the ledger of the tenant is left as it was, so the
    storage the asset was charged for is not given back. *)
Theorem delete_only_marks_the_record (env : Env) (w : World)
    (req : Request) :
  statusOf (deleteImage env w req).1 = 200 →
  ∃ ra old new,
    application req = Some ra
    ∧ Image.findOwned (imageIdParam req) (ra_id ra) (images w) = Some old
    ∧ images (deleteImage env w req).2
      = <[Image.imageId old := new]> (images w)
    ∧ Image.isDeleted new = true
    ∧ Image.deletedAt new = Some (now env)
    ∧ sameFile new old
    ∧ sameAssociation new old
    ∧ sameLabels new old
    ∧ sameTelemetry new old
    ∧ Image.versions new = Image.versions old
    ∧ applications (deleteImage env w req).2 = applications w.
Proof.
  unfold deleteImage.
  destruct (application req) as [ra|]; [|done].
  destruct (Image.findOwned _ _ _) as [old|] eqn:Hfind; [|done].
  unfold Image.softDelete.
  destruct (Image.save _ _ _ _) as [[image imgs]|] eqn:Hsave; [|done].
  intros _. apply save_inv in Hsave as (_ & -> & -> & _).
  exists ra, old.
  match goal with
  | |- context [Image.touch ?n false (Image.preSave ?i)] =>
      exists (Image.touch n false (Image.preSave i));
      destruct (edit_fields n i)
        as (Hf & Ha & Hl & Ht & Hv & Hd & Hat & _);
      cbv zeta in Hf, Ha, Hl, Ht, Hv, Hd, Hat;
      revert Hf Ha Hl Ht Hv Hd Hat;
      generalize (Image.touch n false (Image.preSave i))
  end.
  intros new Hf Ha Hl Ht Hv Hd Hat. cbn in *. by split_and!.
Qed.

Lemma delete_only_marks_the_record_witness :
  let e := Example.env Example.april true "" in
  let req :=
    Example.authenticated Example.acme
      (Example.metadataRequest "p1" "app:acme" None) in
  applications (deleteImage e Example.world1 req).2
  = applications Example.world1.
Proof.
  intros e req.
  destruct (delete_only_marks_the_record e Example.world1 req)
    as (ra & old & new & _ & _ & _ & _ & _ & _ & _ & _ & _ & _ & Happs).
  - reflexivity.
  - exact Happs.
Defined.

End Writes.

(** * The accounts under the image routes *)

Section Tenants.
Import ImageController.

Lemma sameAccount_refl a : sameAccount a a.
Proof. unfold sameAccount. by split_and!. Qed.

Lemma sameAccount_trans a b c :
  sameAccount a b → sameAccount b c → sameAccount a c.
Proof.
  unfold sameAccount. intros H1 H2. split_and!; etrans; apply H1 || apply H2.
Qed.

Lemma sameAccount_stored a : sameAccount (Application.stored a) a.
Proof. unfold sameAccount. by split_and!. Qed.

Lemma sameAccount_reset now a :
  sameAccount (Application.resetMonthlyUsage now a) a.
Proof.
  unfold Application.resetMonthlyUsage. destruct (_ || _);
    unfold sameAccount; by split_and!.
Qed.

Lemma sameAccount_recordUpload size a :
  sameAccount (Application.recordUpload size a) a.
Proof. unfold sameAccount. by split_and!. Qed.

Lemma settled_refl apps : settled apps apps.
Proof.
  intros id. destruct (apps !! id) as [a|] eqn:Ha; [|done].
  exists a. split_and!; [done|apply sameAccount_refl|lia].
Qed.

Lemma settled_trans apps1 apps2 apps3 :
  settled apps1 apps2 → settled apps2 apps3 → settled apps1 apps3.
Proof.
  intros H12 H23 id. specialize (H12 id). specialize (H23 id).
  destruct (apps1 !! id) as [a1|].
  - destruct H12 as (a2 & Ha2 & Hs & Hn). rewrite Ha2 in H23.
    destruct H23 as (a3 & Ha3 & Hs' & Hn'). exists a3.
    split_and!; [done|by eapply sameAccount_trans|lia].
  - by rewrite H12 in H23.
Qed.

Lemma settled_update apps x a0 :
  apps !! Application._id x = Some a0 →
  sameAccount x a0 →
  Application.totalImages (Application.usage a0)
  ≤ Application.totalImages (Application.usage x) →
  settled apps (Application.update x apps).
Proof.
  intros Ha0 Hsame Hcount id. unfold Application.update.
  rewrite lookup_insert. case_decide as Hid.
  - subst id. rewrite Ha0. exists (Application.stored x).
    split_and!; [done| |done].
    eapply sameAccount_trans; [apply sameAccount_stored|done].
  - destruct (apps !! id) as [a|] eqn:Ha; [|done].
    exists a. split_and!; [done|apply sameAccount_refl|lia].
Qed.

Lemma steady_refl w : steady w w.
Proof. intros H. split; [done|apply settled_refl]. Qed.

Lemma steady_trans w1 w2 w3 : steady w1 w2 → steady w2 w3 → steady w1 w3.
Proof.
  intros H12 H23 H1. destruct (H12 H1) as [H2 Hs].
  destruct (H23 H2) as [H3 Hs']. split; [done|by eapply settled_trans].
Qed.

Lemma steady_same w w' : applications w' = applications w → steady w w'.
Proof. intros Happs Hk. rewrite Happs. split; [done|apply settled_refl]. Qed.

Lemma totalImages_reset now a :
  Application.totalImages
    (Application.usage (Application.resetMonthlyUsage now a))
  = Application.totalImages (Application.usage a).
Proof. by destruct (resetMonthlyUsage_totals now a) as (-> & _). Qed.

Lemma uploadImage_steady env w req : steady w (uploadImage env w req).2.
Proof.
  destruct (uploadImage env w req) as [r w'] eqn:Hup. cbn.
  apply uploadImage_inv in Hup
    as [[-> _]|(f & ra & app & i & d & _ & _ & Hfind & _ & _ & _ & Happs & _)].
  - apply steady_refl.
  - intros Hk. rewrite Happs. split; [by apply keyedApplications_update|].
    apply (findById_keyed _ _ _ Hk) in Hfind as (a0 & Ha0 & -> & Hid).
    eapply settled_update.
    + cbn [Application.recordUpload Application.set_usage Application._id].
      destruct (sameAccount_reset (now env) (Application.stored a0))
        as (-> & _).
      by rewrite Hid.
    + eapply sameAccount_trans; [apply sameAccount_recordUpload|].
      eapply sameAccount_trans; [apply sameAccount_reset|].
      apply sameAccount_stored.
    + cbn [Application.recordUpload Application.set_usage Application.usage
           Application.totalImages].
      rewrite totalImages_reset. cbn. lia.
Qed.

Lemma sum_sizes fs : ∀ acc,
  foldl (fun sum f => sum + f_size f) acc fs = acc + sumZ (f_size <$> fs).
Proof.
  induction fs as [|f fs IH]; intros acc; cbn; [lia|].
  rewrite IH. unfold sumZ. cbn. lia.
Qed.

Ltac conjuncts := repeat lazymatch goal with |- _ ∧ _ => split end.

(** What the loop of the bulk upload has done when it ends. *)
Lemma bulkLoop_summary env req ra fs : ∀ st,
  Application._id (bs_application st) = ra_id ra →
  ∃ more bad,
    bs_results (foldl (bulkStep env req ra) st fs)
    = (bs_results st ++ more)%list
    ∧ bs_errors (foldl (bulkStep env req ra) st fs)
      = (bs_errors st ++ bad)%list
    ∧ (length more + length bad = length fs)%nat
    ∧ (Image.size ∘ bi_image <$> more) `sublist_of` (f_size <$> fs)
    ∧ bad `sublist_of` (originalname <$> fs)
    ∧ images (bs_world st)
      ⊆ images (bs_world (foldl (bulkStep env req ra) st fs))
    ∧ (∀ it, it ∈ more →
         images (bs_world (foldl (bulkStep env req ra) st fs))
           !! Image.imageId (bi_image it) = Some (bi_image it)
         ∧ images (bs_world st) !! Image.imageId (bi_image it) = None
         ∧ Image.application (bi_image it) = ra_id ra
         ∧ Image.isDeleted (bi_image it) = false)
    ∧ sameAccount (bs_application (foldl (bulkStep env req ra) st fs))
                  (bs_application st)
    ∧ Application.usage (bs_application (foldl (bulkStep env req ra) st fs))
      = Application.mkUsage
          (Application.totalImages (Application.usage (bs_application st))
           + Z.of_nat (length more))
          (Application.totalStorageUsed
             (Application.usage (bs_application st))
           + sumZ (Image.size ∘ bi_image <$> more))
          (Application.currentMonthUploads
             (Application.usage (bs_application st))
           + Z.of_nat (length more))
          (Application.lastResetDate
             (Application.usage (bs_application st)))
    ∧ applications (bs_world (foldl (bulkStep env req ra) st fs))
      = match more with
        | [] => applications (bs_world st)
        | _ =>
            <[ra_id ra :=
                Application.stored
                  (bs_application (foldl (bulkStep env req ra) st fs))]>
              (applications (bs_world st))
        end.
Proof.
  induction fs as [|f fs IH]; intros st Hid; cbn [foldl].
  { exists [], []. rewrite !app_nil_r. cbn.
    split_and!; try done; try apply sameAccount_refl;
      try (by intros it ?%elem_of_nil).
    destruct (Application.usage (bs_application st)). cbn. f_equal; lia. }
  destruct (bulkStep_cases env req ra st f)
    as [->|(i & image & imgs & Hnew & Hsave & ->)].
  { destruct (IH (mkBulkState (S (bs_index st)) (bs_application st)
                    (bs_world st) (bs_results st)
                    (bs_errors st ++ [originalname f])) Hid)
      as (more & bad & Hres & Herr & Hlen & Hsub & Hbad & Himgs & Hin
          & Hsame & Husage & Happs).
    cbn [bs_results bs_errors bs_world bs_application] in *.
    exists more, (originalname f :: bad). rewrite Herr, <- app_assoc.
    conjuncts; try done.
    - cbn. lia.
    - cbn. by apply sublist_cons.
    - cbn. by apply sublist_skip. }
  set (app1 := Application.recordUpload (f_size f) (bs_application st)).
  assert (Application._id app1 = ra_id ra) as Hid1 by done.
  destruct (IH (mkBulkState (S (bs_index st)) app1
                  (mkWorld imgs
                     (Application.update app1 (applications (bs_world st))))
                  (bs_results st
                   ++ [mkBulkItem image
                         ("/api/images/" +:+ Image.imageId image
                          +:+ "?token="
                          +:+ jwt_sign env
                                (accessPayload (Image.imageId image)
                                   (ra_id ra)))
                         (jwt_sign env
                            (accessPayload (Image.imageId image)
                               (ra_id ra)))])
                  (bs_errors st)) Hid1)
    as (more & bad & Hres & Herr & Hlen & Hsub & Hbad & Himgs & Hin
        & Hsame & Husage & Happs).
  fold app1. cbn [bs_results bs_errors bs_world bs_application images
                    applications] in *.
  set (final := foldl (bulkStep env req ra) _ fs) in *.
  set (item := mkBulkItem image _ _) in *.
  unfold newBulkImage in Hnew.
  destruct (storageFields env f) as [[[s3Key url] path]|]; [|done].
  cbn in Hnew. injection Hnew as <-.
  apply save_inv in Hsave as (_ & Himage & -> & Hfresh).
  specialize (Hfresh eq_refl). cbn [Image.imageId] in Hfresh, Himgs.
  match type of Himage with
  | _ = Image.touch ?n true (Image.preSave ?i) =>
      destruct (saved_fields n true i)
        as (Hi & Howner & Hdel & _ & Hsize & _);
      cbv zeta in Hi, Howner, Hdel, Hsize;
      rewrite <- Himage in Hi, Howner, Hdel, Hsize;
      cbn [Image.imageId Image.application Image.isDeleted Image.size]
        in Hi, Howner, Hdel, Hsize
  end.
  assert (images (bs_world st) ⊆ images (bs_world final)) as Hgrow.
  { etrans; [|exact Himgs]. by apply insert_subseteq. }
  exists (item :: more), bad. rewrite Hres, <- app_assoc.
  conjuncts; try done.
  - cbn. lia.
  - cbn. rewrite Hsize. by apply sublist_skip.
  - by apply sublist_cons.
  - intros it [->|Hit]%elem_of_cons.
    + cbn [bi_image item]. split_and!; [|by rewrite Hi|done|done].
      eapply lookup_weaken; [|exact Himgs]. rewrite Hi.
      by rewrite lookup_insert_eq.
    + destruct (Hin it Hit) as (Hfinal & Hnone & Howner' & Hlive).
      split_and!; [done| |done|done].
      eapply lookup_weaken_None; [exact Hnone|]. by apply insert_subseteq.
  - rewrite Husage. cbn. unfold sumZ. cbn. rewrite Hsize.
    f_equal; lia.
  - rewrite Happs. unfold Application.update. rewrite Hid1.
    destruct more; [|by rewrite insert_insert_eq].
    f_equal. unfold Application.stored.
    destruct Hsame as (-> & -> & -> & -> & -> & -> & -> & -> & -> & -> & ->
                       & ->).
    rewrite Husage. do 3 f_equal.
    destruct (Application.usage app1). cbn. unfold sumZ. cbn. f_equal; lia.
Qed.

Lemma bulkUploadImages_inv env w req :
  ((bulkUploadImages env w req).2 = w
   ∧ statusOf (bulkUploadImages env w req).1 ≠ 201)
  ∨ ∃ ra app,
      files req ≠ []
      ∧ application req = Some ra
      ∧ Application.findById (ra_id ra) (applications w) = Some app
      ∧ Application.allowed
          (Application.canUpload (now env)
             (Some (sumZ (f_size <$> files req))) app).1 = true
      ∧ bulkUploadImages env w req
        = let st :=
            foldl (bulkStep env req ra)
              (mkBulkState 0 (Application.resetMonthlyUsage (now env) app)
                 w [] [])
              (files req) in
          (Json 201 true (BulkUploaded (bs_results st) (bs_errors st)),
           bs_world st).
Proof.
  unfold bulkUploadImages.
  destruct (files req) as [|f0 fs] eqn:Hfiles; [by left|].
  destruct (application req) as [ra|]; [|by left].
  destruct (Application.findById _ _) as [app|] eqn:Hfind; [|by left].
  rewrite sum_sizes, Z.add_0_l.
  destruct (Application.canUpload _ _ app) as [v app'] eqn:Hcan.
  assert (app' = Application.resetMonthlyUsage (now env) app) as ->
    by (by rewrite <- (canUpload_doc (now env)
                         (Some (sumZ (f_size <$> f0 :: fs))) app), Hcan).
  destruct (Application.allowed v) eqn:Hallowed; cbn [negb]; [|by left].
  right. exists ra, app. rewrite Hcan. by split_and!.
Qed.

Lemma bulkUploadImages_steady env w req :
  steady w (bulkUploadImages env w req).2.
Proof.
  destruct (bulkUploadImages_inv env w req)
    as [[-> _]|(ra & app & _ & _ & Hfind & _ & ->)]; [apply steady_refl|].
  cbv zeta. cbn [snd]. intros Hk.
  apply (findById_keyed _ _ _ Hk) in Hfind as (a0 & Ha0 & -> & Hid).
  set (st0 := mkBulkState 0 _ w [] []).
  assert (Application._id (bs_application st0) = ra_id ra) as Hid0.
  { cbn. by destruct (sameAccount_reset (now env) (Application.stored a0))
      as (-> & _). }
  destruct (bulkLoop_summary env req ra (files req) st0 Hid0)
    as (more & bad & _ & _ & _ & _ & _ & _ & _ & Hsame & Husage & ->).
  destruct more as [|it more]; [split; [done|apply settled_refl]|].
  cbn [bs_world applications st0]. split.
  { apply keyedApplications_insert; [done|].
    cbn. by destruct Hsame as (-> & _). }
  set (final := bs_application (foldl _ _ _)) in *.
  assert (<[ra_id ra := Application.stored final]> (applications w)
          = Application.update final (applications w)) as ->.
  { unfold Application.update. destruct Hsame as (-> & _). by rewrite Hid0. }
  eapply settled_update.
  - destruct Hsame as (-> & _). by rewrite Hid0.
  - eapply sameAccount_trans; [exact Hsame|].
    eapply sameAccount_trans; [apply sameAccount_reset|].
    apply sameAccount_stored.
  - rewrite Husage. cbn [Application.totalImages bs_application st0].
    rewrite totalImages_reset. cbn. lia.
Qed.

Lemma dispatch_steady route env w req :
  steady w (Routes.dispatch route env w req).2.
Proof.
  assert (∀ handler : Routes.Handler,
            (∀ env w req, steady w (handler env w req).2) →
            ∀ env w req, steady w (Routes.protected handler env w req).2)
    as Hprotected.
  { intros handler H env' w' req'. unfold Routes.protected.
    destruct (Auth.authenticateApplication _ _ _);
      [apply steady_refl|apply H]. }
  destruct route; cbn [Routes.dispatch];
    try (apply Hprotected; clear; intros env w req);
    unfold Routes.open.
  - apply uploadImage_steady.
  - apply bulkUploadImages_steady.
  - rewrite listImages_step. apply steady_refl.
  - apply steady_same, getImageInfo_step.
  - apply steady_same, getImage_step.
  - apply steady_same, updateImageMetadata_step.
  - apply steady_same, replaceImage_step.
  - apply steady_same, deleteImage_step.
Qed.

Lemma run_steady calls : ∀ w, steady w (Routes.run calls w).
Proof.
  induction calls as [|c calls IH]; intros w; cbn; [apply steady_refl|].
  eapply steady_trans; [apply dispatch_steady|apply IH].
Qed.

(** X12.  The image routes touch nothing of an account but its usage:
    over any sequence of requests every application stays in the
    collection with the same name, domain, origins, credentials, active
    flag, plan, limits, settings and refresh tokens, its image count does
    not go down, and no application appears. *)
Theorem accounts_keep_all_but_usage (calls : list Routes.Call) (w : World)
    (id : string) :
  keyed w →
  match applications w !! id with
  | Some a =>
      ∃ a', applications (Routes.run calls w) !! id = Some a'
            ∧ sameAccount a' a
            ∧ Application.totalImages (Application.usage a)
              ≤ Application.totalImages (Application.usage a')
  | None => applications (Routes.run calls w) !! id = None
  end.
Proof.
  intros [_ Hk]. destruct (run_steady calls w Hk) as [_ Hsettled].
  apply Hsettled.
Qed.

Lemma accounts_keep_all_but_usage_witness :
  let calls :=
    [Routes.mkCall (Example.env Example.april true "p3") Routes.PostUpload
       (Example.uploadRequest "app:acme" None);
     Routes.mkCall (Example.env Example.april true "") Routes.DeleteImage
       (Example.metadataRequest "p1" "app:acme" None)] in
  ∃ a', applications (Routes.run calls Example.world1) !! "acme" = Some a'
        ∧ Application.limits a' = Application.defaultLimits
        ∧ Application.apiKey a' = Some "ak_1".
Proof.
  intros calls.
  pose proof (accounts_keep_all_but_usage calls Example.world1 "acme"
                world1_keyed) as H.
  destruct (applications Example.world1 !! "acme") as [a|] eqn:Ha;
    [|by vm_compute in Ha].
  destruct H as (a' & Ha' & Hsame & _). exists a'.
  vm_compute in Ha. injection Ha as <-.
  destruct Hsame as (_ & _ & _ & _ & _ & Hkey & _ & _ & _ & Hlimits & _).
  split_and!; [exact Ha'|exact Hlimits|exact Hkey].
Defined.

Lemma authenticateApplication_status env apps req r :
  Auth.authenticateApplication env apps req = inl r →
  statusOf r = 401 ∨ statusOf r = 500.
Proof.
  unfold Auth.authenticateApplication. intros H.
  repeat case_match; simplify_eq; cbn; auto.
Qed.

(** An answer of a protected route that is neither 401 nor 500 comes
    from the handler, run on the request with [req.application] set. *)
Lemma protected_passes (handler : Routes.Handler) env w req :
  statusOf (Routes.protected handler env w req).1 ≠ 401 →
  statusOf (Routes.protected handler env w req).1 ≠ 500 →
  ∃ id a,
    let req' :=
      Auth.set_application (Auth.describe (Application.stored a)) req in
    applications w !! id = Some a
    ∧ Application.isActive a = true
    ∧ caller env w req = Some (Application._id a)
    ∧ Auth.authenticateApplication env (applications w) req = inr req'
    ∧ Routes.protected handler env w req = handler env w req'.
Proof.
  unfold Routes.protected, caller.
  destruct (Auth.authenticateApplication _ _ _) as [r|req'] eqn:Hauth.
  { apply authenticateApplication_status in Hauth. cbn. tauto. }
  intros _ _.
  destruct (authenticateApplication_inr _ _ _ _ Hauth)
    as (id & a & Ha & Hactive & ->).
  by exists id, a.
Qed.

Lemma uploadImage_201 env w req :
  statusOf (uploadImage env w req).1 = 201 →
  ¬ refused (uploadImage env w req).1.
Proof.
  unfold uploadImage.
  destruct (file req) as [f|]; [|done].
  destruct (application req) as [ra|]; [|done].
  destruct (Application.findById _ _) as [app|]; [|done].
  destruct (Application.canUpload _ _ app) as [v app'].
  destruct (negb _); [done|].
  destruct (_ ≫= _) as [[image imgs]|]; [|done].
  intros _ [].
Qed.

Lemma allowed_spec now size a :
  Application.allowed (Application.canUpload now (Some size) a).1 = true →
  let a' := Application.resetMonthlyUsage now a in
  Application.currentMonthUploads (Application.usage a')
  < Application.maxImagesPerMonth (Application.limits a)
  ∧ Application.totalStorageUsed (Application.usage a) + size
    ≤ Application.maxStorageSize (Application.limits a)
  ∧ size ≤ Application.maxFileSize (Application.limits a).
Proof.
  unfold Application.canUpload. cbn [fst Application.allowed default].
  destruct (resetMonthlyUsage_totals now a) as (_ & -> & -> & _).
  rewrite !andb_true_iff, Z.ltb_lt, !Z.leb_le. tauto.
Qed.

(** X13.  An upload answered 201 was within every limit of the plan and
    leaves the account within its quota: the stored file is no larger
    than [maxFileSize], the account keeps its limits, its storage total
    has grown by exactly the size of the file and its image count by
    one, and after the upload the storage used is at most
    [maxStorageSize] and the uploads of the month at most
    [maxImagesPerMonth].  The asset is in the catalog, live, under the
    identifier the answer gives, owned by the caller. *)
Theorem accepted_upload_fits_the_quota (env : Env) (w : World)
    (req : Request) :
  keyed w →
  statusOf (Routes.dispatch Routes.PostUpload env w req).1 = 201 →
  ∃ d tenant a a',
    Routes.dispatch Routes.PostUpload env w req
    = (Json 201 true (Uploaded d),
       mkWorld (<[Image.imageId (u_image d) := u_image d]> (images w))
               (<[tenant := a']> (applications w)))
    ∧ caller env w req = Some tenant
    ∧ applications w !! tenant = Some a
    ∧ images w !! Image.imageId (u_image d) = None
    ∧ Image.application (u_image d) = tenant
    ∧ Image.isDeleted (u_image d) = false
    ∧ sameAccount a' a
    ∧ Image.size (u_image d)
      ≤ Application.maxFileSize (Application.limits a)
    ∧ Application.totalStorageUsed (Application.usage a')
      = Application.totalStorageUsed (Application.usage a)
        + Image.size (u_image d)
    ∧ Application.totalImages (Application.usage a')
      = Application.totalImages (Application.usage a) + 1
    ∧ withinQuota a'.
Proof.
  intros [Hki Hka] Hstatus. cbn [Routes.dispatch] in *.
  destruct (protected_passes uploadImage env w req)
    as (id & a & _ & Hactive & Hcaller & Hauth & Hrun); [lia|lia|].
  cbv zeta in Hrun, Hauth. rewrite Hrun in Hstatus |- *.
  set (req' := Auth.set_application _ req) in *.
  apply uploadImage_201 in Hstatus.
  destruct (uploadImage env w req') as [r w'] eqn:Hup.
  apply uploadImage_inv in Hup
    as [[_ Hrefused]|(f & ra & app & i & d & _ & Hra & Hfind & Hallowed
                      & Hnew & Hsave & Happs & -> & _)]; [done|].
  injection Hra as <-. cbn [ra_id Auth.describe Application._id
                             Application.stored] in *.
  apply (findById_keyed _ _ _ Hka) in Hfind as (a0 & Ha0 & -> & _).
  apply newImage_fields in Hnew as (_ & _ & _ & Hlive & Hsize & Howner).
  apply save_inv in Hsave as (_ & Himage & Himgs & Hfresh).
  specialize (Hfresh eq_refl).
  destruct (saved_fields (now env) true i)
    as (Hid' & Howner' & Hlive' & _ & Hsize' & _).
  cbv zeta in Hid', Howner', Hlive', Hsize'.
  rewrite <- Himage in Hid', Howner', Hlive', Hsize'.
  apply allowed_spec in Hallowed. cbv zeta in Hallowed.
  destruct Hallowed as (Hmonth & Hstorage & Hfile).
  set (a' := Application.recordUpload (f_size f)
               (Application.resetMonthlyUsage (now env)
                  (Application.stored a0))) in *.
  assert (sameAccount (Application.stored a') a0) as Hsame.
  { eapply sameAccount_trans; [apply sameAccount_stored|].
    eapply sameAccount_trans; [apply sameAccount_recordUpload|].
    eapply sameAccount_trans; [apply sameAccount_reset|].
    apply sameAccount_stored. }
  destruct (resetMonthlyUsage_totals (now env) (Application.stored a0))
    as (Htotal & Hused & Hlimits & Hida).
  exists d, (Application._id a), a0, (Application.stored a').
  destruct w' as [imgs' apps']. cbn [images applications] in *.
  subst imgs' apps'.
  assert (Application._id a' = Application._id a) as Hid_a.
  { change (Application._id a')
      with (Application._id
              (Application.resetMonthlyUsage (now env)
                 (Application.stored a0))).
    rewrite Hida. cbn. by apply Hka in Ha0. }
  rewrite Hsize in Hsize'. cbn in Hfile, Hused, Htotal, Hstorage, Hmonth.
  conjuncts.
  - unfold Application.update. by rewrite Hid', Hid_a.
  - done.
  - done.
  - by rewrite Hid'.
  - by rewrite Howner', Howner.
  - congruence.
  - done.
  - lia.
  - cbn. lia.
  - cbn. lia.
  - split; cbn; rewrite Hlimits; cbn; lia.
Qed.

Lemma accepted_upload_fits_the_quota_witness :
  let e := Example.env Example.april true "p3" in
  let req := Example.uploadRequest "app:acme" None in
  ∃ a', applications (Routes.dispatch Routes.PostUpload e Example.world1
                        req).2 !! "acme" = Some a'
        ∧ withinQuota a'.
Proof.
  intros e req.
  destruct (accepted_upload_fits_the_quota e Example.world1 req)
    as (d & tenant & a & a' & Hrun & Hcaller & _ & _ & _ & _ & _ & _ & _ & _
        & Hquota).
  - exact world1_keyed.
  - reflexivity.
  - injection Hcaller as <-. exists a'. split; [|exact Hquota].
    rewrite Hrun. cbn [snd applications]. apply lookup_insert_eq.
Defined.

(** X14.  An upload that is not answered 201 leaves no trace: whatever
    the reason (no credentials, no file, quota, a failing save), after a
    single or a bulk upload answered with another status both collections
    are exactly as before.  In particular the monthly reset that
    [canUpload] performs on the document in memory is not persisted by a
    refused upload. *)
Theorem refused_upload_changes_nothing (route : Routes.Route) (env : Env)
    (w : World) (req : Request) :
  route = Routes.PostUpload ∨ route = Routes.PostBulkUpload →
  statusOf (Routes.dispatch route env w req).1 ≠ 201 →
  (Routes.dispatch route env w req).2 = w.
Proof.
  intros [-> | ->]; cbn [Routes.dispatch]; unfold Routes.protected;
    (destruct (Auth.authenticateApplication _ _ _) as [r|req']; [done|]).
  - destruct (uploadImage env w req') as [r w'] eqn:Hup. cbn.
    apply uploadImage_inv in Hup
      as [[-> _]|(f & ra & app & i & d & _ & _ & _ & _ & _ & _ & _ & -> & _)];
      done.
  - destruct (bulkUploadImages_inv env w req')
      as [[-> _]|(ra & app & _ & _ & _ & _ & ->)]; done.
Qed.

Lemma refused_upload_changes_nothing_witness :
  let e := Example.env Example.april true "p3" in
  let req :=
    mkRequest (Some "Bearer app:acme") "" Example.noQuery Example.noBody
      None [] None None None in
  (Routes.dispatch Routes.PostUpload e Example.world1 req).2
  = Example.world1.
Proof.
  intros e req.
  apply (refused_upload_changes_nothing Routes.PostUpload e Example.world1
           req (or_introl eq_refl)).
  vm_compute. discriminate.
Defined.

(** X15.  The 413 answer of a single upload itemises the refusal: its
    [details] hold one line per exceeded limit and nothing else (the
    monthly count, after the monthly reset, has reached
    [maxImagesPerMonth]; the storage used plus the file exceeds
    [maxStorageSize]; the file exceeds [maxFileSize]), at least one line
    is there, [limits] reports what is left of each quota, and the
    collections are unchanged. *)
Theorem quota_answer_itemises_the_refusal (env : Env) (w : World)
    (req : Request) :
  statusOf (uploadImage env w req).1 = 413 →
  ∃ f ra app details,
    file req = Some f
    ∧ application req = Some ra
    ∧ Application.findById (ra_id ra) (applications w) = Some app
    ∧ let a := Application.resetMonthlyUsage (now env) app in
      let used := Application.totalStorageUsed (Application.usage a) in
      let month := Application.currentMonthUploads (Application.usage a) in
      let limits := Application.limits a in
      uploadImage env w req
      = (Json 413 false
           (QuotaFailure "Upload limits exceeded" details
              (Application.mkRemaining
                 (Application.maxImagesPerMonth limits - month)
                 (Application.maxStorageSize limits - used)
                 (Application.maxFileSize limits))), w)
      ∧ details ≠ []
      ∧ (∀ line, line ∈ details ↔
           (line = MonthlyLimitExceeded
                     (Application.maxImagesPerMonth limits)
            ∧ Application.maxImagesPerMonth limits ≤ month)
           ∨ (line = StorageLimitExceeded
                       (Application.maxStorageSize limits)
              ∧ Application.maxStorageSize limits < used + f_size f)
           ∨ (line = FileSizeExceeded (Application.maxFileSize limits)
              ∧ Application.maxFileSize limits < f_size f)).
Proof.
  unfold uploadImage.
  destruct (file req) as [f|]; [|done].
  destruct (application req) as [ra|]; [|done].
  destruct (Application.findById _ _) as [app|] eqn:Hfind; [|done].
  unfold Application.canUpload.
  change (default 0 (Some (f_size f))) with (f_size f).
  set (a := Application.resetMonthlyUsage (now env) app).
  cbn [negb Application.allowed].
  destruct (Z.ltb_spec (Application.currentMonthUploads (Application.usage a))
              (Application.maxImagesPerMonth (Application.limits a)))
    as [Hmonth|Hmonth];
    destruct (Z.leb_spec
                (Application.totalStorageUsed (Application.usage a)
                 + f_size f)
                (Application.maxStorageSize (Application.limits a)))
      as [Hstorage|Hstorage];
    destruct (Z.leb_spec (f_size f)
                (Application.maxFileSize (Application.limits a)))
      as [Hfile|Hfile];
    cbn [andb negb].
  1:{ destruct (_ ≫= _) as [[image imgs]|]; done. }
  all: intros _; exists f, ra, app; eexists;
    (split_and!; [done|done|done|reflexivity|done|]);
    intros line; unfold quotaDetails; cbn;
    rewrite ?elem_of_cons, ?elem_of_nil; fold a; intuition lia.
Qed.

Lemma quota_answer_itemises_the_refusal_witness :
  let e := Example.env Example.april true "p3" in
  let big :=
    mkFile "big.jpg" (Some "u2_big.jpg") "image/jpeg" 6000000
           (Some "uploads/u2_big.jpg") None None in
  let req :=
    Example.authenticated Example.acme
      (mkRequest (Some "Bearer app:acme") "" Example.noQuery Example.noBody
         (Some big) [] (Some Example.photoMetadata) None None) in
  (uploadImage e Example.world1 req).2 = Example.world1.
Proof.
  intros e big req.
  destruct (quota_answer_itemises_the_refusal e Example.world1 req)
    as (f & ra & app & details & _ & _ & _ & Hanswer & _).
  - reflexivity.
  - cbv zeta in Hanswer. rewrite Hanswer. reflexivity.
Defined.

Lemma sumZ_sublist (l1 l2 : list Z) :
  l1 `sublist_of` l2 → Forall (fun x => 0 ≤ x) l2 → sumZ l1 ≤ sumZ l2.
Proof.
  unfold sumZ. induction 1 as [|x l1 l2 _ IH|x l1 l2 _ IH];
    intros Hpos; cbn; [lia| |];
    apply Forall_cons in Hpos as [Hx Hpos]; specialize (IH Hpos); lia.
Qed.

Lemma sumZ_elem (x : Z) (l : list Z) :
  x ∈ l → Forall (fun x => 0 ≤ x) l → x ≤ sumZ l.
Proof.
  unfold sumZ. induction l as [|y l IH]; [by intros ?%elem_of_nil|].
  intros [->|Hin]%elem_of_cons [Hy Hpos]%Forall_cons; cbn.
  - assert (0 ≤ foldr Z.add 0 l); [|lia].
    clear -Hpos. induction Hpos; cbn; lia.
  - specialize (IH Hin Hpos). lia.
Qed.

(** The bulk handler behind its authentication, when it answers 201. *)
Lemma bulk_201 env w req :
  keyed w →
  statusOf (Routes.dispatch Routes.PostBulkUpload env w req).1 = 201 →
  ∃ tenant a more bad,
    let app0 :=
      Application.resetMonthlyUsage (now env) (Application.stored a) in
    caller env w req = Some tenant
    ∧ applications w !! tenant = Some a
    ∧ Application.allowed
        (Application.canUpload (now env)
           (Some (sumZ (f_size <$> files req))) (Application.stored a)).1
      = true
    ∧ (length more + length bad = length (files req))%nat
    ∧ (Image.size ∘ bi_image <$> more) `sublist_of` (f_size <$> files req)
    ∧ bad `sublist_of` (originalname <$> files req)
    ∧ (∃ final account,
         Routes.dispatch Routes.PostBulkUpload env w req
         = (Json 201 true (BulkUploaded more bad),
            mkWorld final
              match more with
              | [] => applications w
              | _ => <[tenant := account]> (applications w)
              end)
         ∧ sameAccount account a
         ∧ Application.usage account
           = Application.mkUsage
               (Application.totalImages (Application.usage app0)
                + Z.of_nat (length more))
               (Application.totalStorageUsed (Application.usage app0)
                + sumZ (Image.size ∘ bi_image <$> more))
               (Application.currentMonthUploads (Application.usage app0)
                + Z.of_nat (length more))
               (Application.lastResetDate (Application.usage app0))
         ∧ images w ⊆ final
         ∧ ∀ it, it ∈ more →
             final !! Image.imageId (bi_image it) = Some (bi_image it)
             ∧ images w !! Image.imageId (bi_image it) = None
             ∧ Image.application (bi_image it) = tenant
             ∧ Image.isDeleted (bi_image it) = false).
Proof.
  intros [_ Hka] Hstatus. cbn [Routes.dispatch] in *.
  destruct (protected_passes bulkUploadImages env w req)
    as (id & a & Ha & Hactive & Hcaller & Hauth & Hrun); [lia|lia|].
  cbv zeta in Hrun, Hauth. rewrite Hrun in Hstatus |- *.
  assert (Application._id a = id) as Hid by (by apply Hka in Ha).
  rewrite Hid in Hcaller.
  set (req' := Auth.set_application _ req) in *.
  destruct (bulkUploadImages_inv env w req')
    as [[_ ?]|(ra & app & _ & Hra & Hfind & Hallowed & Hbulk)]; [done|].
  injection Hra as <-.
  cbn [ra_id Auth.describe Application._id Application.stored] in *.
  change (files req') with (files req) in *.
  unfold Application.findById in Hfind. rewrite Hid, Ha in Hfind.
  injection Hfind as <-.
  set (st0 := mkBulkState 0 _ w [] []) in Hbulk.
  assert (Application._id (bs_application st0)
          = ra_id (Auth.describe (Application.stored a))) as Hid0.
  { cbn. by destruct (sameAccount_reset (now env) (Application.stored a))
      as (-> & _). }
  destruct (bulkLoop_summary env req' _ (files req) st0 Hid0)
    as (more & bad & Hres & Herr & Hlen & Hsub & Hbad & Himgs & Hin
        & Hsame & Husage & Happs).
  cbn [app_nil_l bs_results bs_errors st0 bs_world images applications
         bs_application] in Hres, Herr, Himgs, Hin, Hsame, Husage, Happs.
  cbn [ra_id Auth.describe Application._id Application.stored] in Hin, Happs.
  rewrite Hid in Hin, Happs.
  exists id, a, more, bad. cbv zeta.
  conjuncts; [done|done|done|done|done|done|].
  rewrite Hbulk. cbv zeta. rewrite Hres, Herr.
  match goal with
  | |- context [(Json 201 true _, bs_world ?st)] =>
      exists (images (bs_world st)),
             (Application.stored (bs_application st));
      destruct (bs_world st) as [imgs apps]
  end.
  cbn [images applications] in *. subst apps.
  conjuncts; [done| |done|done|done].
  eapply sameAccount_trans; [apply sameAccount_stored|].
  eapply sameAccount_trans; [exact Hsame|].
  eapply sameAccount_trans; [apply sameAccount_reset|].
  apply sameAccount_stored.
Qed.



(** X17.  A bulk upload is admitted as if the batch were one file: when
    it is answered 201 (file sizes being byte counts, none negative) the
    sizes of the whole batch add up to at most [maxFileSize], so every
    file of it is within that limit, and to at most what was left of the
    storage quota, so the storage used after the batch is at most
    [maxStorageSize]; the storage total and the image count of the
    account have grown by the sizes and the number of the uploaded
    items. *)
Theorem bulk_batch_is_checked_as_one_file (env : Env) (w : World)
    (req : Request) :
  keyed w →
  Forall (fun f => 0 ≤ f_size f) (files req) →
  statusOf (Routes.dispatch Routes.PostBulkUpload env w req).1 = 201 →
  ∃ tenant a a' items failed,
    (Routes.dispatch Routes.PostBulkUpload env w req).1
    = Json 201 true (BulkUploaded items failed)
    ∧ caller env w req = Some tenant
    ∧ applications w !! tenant = Some a
    ∧ applications (Routes.dispatch Routes.PostBulkUpload env w req).2
        !! tenant = Some a'
    ∧ Application.limits a' = Application.limits a
    ∧ sumZ (f_size <$> files req)
      ≤ Application.maxFileSize (Application.limits a)
    ∧ Forall (fun f => f_size f
                       ≤ Application.maxFileSize (Application.limits a))
             (files req)
    ∧ Application.totalStorageUsed (Application.usage a')
      = Application.totalStorageUsed (Application.usage a)
        + sumZ (Image.size ∘ bi_image <$> items)
    ∧ Application.totalImages (Application.usage a')
      = Application.totalImages (Application.usage a)
        + Z.of_nat (length items)
    ∧ Application.totalStorageUsed (Application.usage a')
      ≤ Application.maxStorageSize (Application.limits a').
Proof.
  intros Hkeyed Hsizes Hstatus.
  destruct (bulk_201 env w req Hkeyed Hstatus)
    as (tenant & a & more & bad & Hcaller & Ha & Hallowed & _ & Hsub & _
        & final & account & -> & Hsame & Husage & _ & _).
  apply allowed_spec in Hallowed. cbv zeta in Hallowed.
  destruct Hallowed as (_ & Hstorage & Hfile). cbn in Hstorage, Hfile.
  destruct (resetMonthlyUsage_totals (now env) (Application.stored a))
    as (Htotal & Hused & _).
  cbn in Htotal, Hused. rewrite Htotal, Hused in Husage.
  assert (Forall (fun x => 0 ≤ x) (f_size <$> files req)) as Hpos
    by (by apply Forall_fmap).
  pose proof (sumZ_sublist _ _ Hsub Hpos) as Hsum.
  assert (Forall (fun f => f_size f
                           ≤ Application.maxFileSize (Application.limits a))
                 (files req)) as Heach.
  { apply Forall_forall. intros f Hf.
    assert (f_size f ≤ sumZ (f_size <$> files req)); [|lia].
    apply sumZ_elem; [|done]. by apply list_elem_of_fmap_2. }
  destruct more as [|it more].
  - exists tenant, a, a, [], bad. cbn [fst snd applications].
    conjuncts; try done.
    + unfold sumZ. cbn. lia.
    + cbn. lia.
    + unfold sumZ in *. cbn in Hsum. lia.
  - exists tenant, a, account, (it :: more), bad.
    cbn [fst snd applications].
    destruct Hsame as (_ & _ & _ & _ & _ & _ & _ & _ & _ & Hlimits & _).
    conjuncts; try done.
    + apply lookup_insert_eq.
    + by rewrite Husage.
    + by rewrite Husage.
    + rewrite Husage, Hlimits. cbn [Application.totalStorageUsed]. lia.
Qed.

Lemma bulk_batch_is_checked_as_one_file_witness :
  let e := Example.env Example.april true "b" in
  let req :=
    mkRequest (Some "Bearer app:acme") "" Example.noQuery Example.noBody
      None [Example.photo; Example.photo] None None None in
  Forall (fun f => f_size f ≤ 5242880) (files req).
Proof.
  intros e req.
  destruct (bulk_batch_is_checked_as_one_file e Example.world1 req)
    as (tenant & a & a' & items & failed & _ & Hcaller & Ha & _ & _ & _
        & Heach & _).
  - exact world1_keyed.
  - repeat constructor; cbn; lia.
  - reflexivity.
  - injection Hcaller as <-. vm_compute in Ha. injection Ha as <-.
    exact Heach.
Defined.

End Tenants.

(** * Access tokens from the answers *)

Section Tokens.
Import ImageController.








End Tokens.

(** * The two authentication middlewares and the CSRF check *)

Section Authentication.
Import ImageController.

Lemma optionalApplicationAuth_agrees env apps req req' :
  Auth.authenticateApplication env apps req = inr req' →
  Auth.optionalApplicationAuth env apps req = req'.
Proof.
  unfold Auth.authenticateApplication, Auth.optionalApplicationAuth,
    Auth.bearerApplication.
  destruct (Auth.bearerToken req) as [token|]; [|done].
  destruct (jwt_verify env token) as [[]|decoded]; try done.
  destruct (Image.strictEq _ _); [|done].
  destruct (jwt_id decoded) as [id|]; [|done]. cbn.
  destruct (Application.findById id apps) as [a|]; [|done]. cbn.
  destruct (Application.isActive a); [|done]. by intros [= <-].
Qed.

Lemma optionalApplicationAuth_anonymous env apps req r :
  Auth.authenticateApplication env apps req = inl r →
  Auth.optionalApplicationAuth env apps req = req.
Proof.
  unfold Auth.authenticateApplication, Auth.optionalApplicationAuth,
    Auth.bearerApplication.
  destruct (Auth.bearerToken req) as [token|]; [|done].
  destruct (jwt_verify env token) as [[]|decoded]; try done.
  destruct (Image.strictEq _ _); [|done].
  destruct (jwt_id decoded) as [id|]; [|done]. cbn.
  destruct (Application.findById id apps) as [a|]; [|done]. cbn.
  by destruct (Application.isActive a).
Qed.

Lemma bearerToken_authorization req token :
  Auth.bearerToken req = Some token →
  Image.truthy (authorization req) = true ∧ token ≠ "".
Proof.
  unfold Auth.bearerToken.
  destruct (authorization req) as [header|]; [|done].
  destruct (Image.truthy (Some header)) eqn:Hheader; [|done].
  destruct (split_on " " header !! 1%nat) as [t|]; [|done].
  destruct (Image.truthy (Some t)) eqn:Ht; [|done].
  intros [= <-]. split; [done|].
  apply truthy_spec in Ht as (p & [= <-] & Hp). done.
Qed.

(** X19.  The two authentication middlewares identify the same callers.
    A request is accepted by [authenticateApplication] exactly when its
    bearer token verifies, is of type [application] and names an active
    application of the collection; [optionalApplicationAuth] then hands on
    the very same request, with [req.application] describing that
    application and nothing else changed.  Every request the strict
    middleware refuses (with 401, or 500 for a token not yet valid, and an
    error envelope) goes through the optional one untouched, as
    anonymous. *)
Theorem auth_middlewares_agree (env : Env) (apps : gmap string Application.t)
    (req : Request) :
  match Auth.authenticateApplication env apps req with
  | inr req' =>
      Auth.optionalApplicationAuth env apps req = req'
      ∧ ∃ token decoded id a,
          Auth.bearerToken req = Some token
          ∧ jwt_verify env token = inr decoded
          ∧ jwt_type decoded = Some "application"
          ∧ jwt_id decoded = Some id
          ∧ apps !! id = Some a
          ∧ Application.isActive a = true
          ∧ req'
            = mkRequest (authorization req) (imageIdParam req) (query req)
                (body req) (file req) (files req) (fileMetadata req)
                (Some (mkReqApplication (Application._id a)
                         (Application.name a) (Application.domain a)
                         (Application.plan a) (Application.limits a)
                         (Application.settings a)))
                (userId req)
  | inl r =>
      Auth.optionalApplicationAuth env apps req = req
      ∧ (statusOf r = 401 ∨ statusOf r = 500)
      ∧ refused r
      ∧ ¬ ∃ token decoded id a,
            Auth.bearerToken req = Some token
            ∧ jwt_verify env token = inr decoded
            ∧ jwt_type decoded = Some "application"
            ∧ jwt_id decoded = Some id
            ∧ apps !! id = Some a
            ∧ Application.isActive a = true
  end.
Proof.
  destruct (Auth.authenticateApplication env apps req) as [r|req'] eqn:Hauth.
  - split; [by eapply optionalApplicationAuth_anonymous|].
    split; [by eapply authenticateApplication_status|].
    split.
    { apply authenticateApplication_answer in Hauth as (s & e & ->). done. }
    intros (token & decoded & id & a & Htoken & Hverify & Htype & Hid & Ha
            & Hactive).
    unfold Auth.authenticateApplication in Hauth.
    rewrite Htoken, Hverify in Hauth.
    rewrite (proj2 (strictEq_spec _ _) Htype), Hid in Hauth. cbn in Hauth.
    unfold Application.findById in Hauth. rewrite Ha in Hauth.
    cbn in Hauth. by rewrite Hactive in Hauth.
  - split; [by apply optionalApplicationAuth_agrees|].
    unfold Auth.authenticateApplication in Hauth.
    destruct (Auth.bearerToken req) as [token|]; [|done].
    destruct (jwt_verify env token) as [[]|decoded] eqn:Hverify; try done.
    destruct (Image.strictEq _ _) eqn:Htype; [|done].
    apply strictEq_spec in Htype.
    destruct (jwt_id decoded) as [id|] eqn:Hid; [|done]. cbn in Hauth.
    unfold Application.findById in Hauth.
    destruct (apps !! id) as [a|] eqn:Ha; [|done]. cbn in Hauth.
    destruct (Application.isActive a) eqn:Hactive; [|done].
    injection Hauth as <-.
    exists token, decoded, id, a. by split_and!.
Qed.

(** X20.  On the protected routes the CSRF check is moot: a request that
    [authenticateApplication] accepts carries an [Authorization] header,
    so [csrfProtection] lets it through whatever its method and whether
    or not it has a CSRF token; and so does every request that
    [optionalApplicationAuth] identifies. *)
Theorem csrf_never_stops_a_bearer (env : Env)
    (apps : gmap string Application.t) (req req' : Request)
    (method : string) (headerToken bodyToken : option string) :
  Auth.authenticateApplication env apps req = inr req'
  ∨ (Auth.optionalApplicationAuth env apps req = req'
     ∧ application req = None ∧ is_Some (application req')) →
  csrfProtection req method headerToken bodyToken = None
  ∧ csrfProtection req' method headerToken bodyToken = None.
Proof.
  intros Hbearer.
  assert (∃ token, Auth.bearerToken req = Some token) as [token Htoken].
  { destruct Hbearer as [Hauth|(Hopt & Hnone & Hsome)].
    - unfold Auth.authenticateApplication in Hauth.
      destruct (Auth.bearerToken req) as [token|]; [by eauto|done].
    - unfold Auth.optionalApplicationAuth in Hopt.
      destruct (Auth.bearerToken req) as [token|]; [by eauto|].
      subst req'. rewrite Hnone in Hsome. by destruct Hsome. }
  apply bearerToken_authorization in Htoken as [Hheader _].
  assert (authorization req' = authorization req) as Hsame.
  { destruct Hbearer as [Hauth|(Hopt & _)].
    - by apply authenticateApplication_inr in Hauth as (? & ? & _ & _ & ->).
    - subst req'. unfold Auth.optionalApplicationAuth.
      destruct (Auth.bearerToken req); [|done].
      by destruct (Auth.bearerApplication _ _ _). }
  unfold csrfProtection. by rewrite Hsame, Hheader.
Qed.

Lemma csrf_never_stops_a_bearer_witness :
  csrfProtection (Example.metadataRequest "p1" "app:acme" None) "DELETE"
    None None = None.
Proof.
  apply (csrf_never_stops_a_bearer (Example.env Example.april true "")
           (applications Example.world1)
           (Example.metadataRequest "p1" "app:acme" None)
           (Example.authenticated (Application.stored Example.acme)
              (Example.metadataRequest "p1" "app:acme" None))
           "DELETE" None None).
  left. reflexivity.
Defined.

End Authentication.

(** * The owner's way to the bytes *)

Section Owner.
Import ImageController.



End Owner.

(** * Listings *)

Section Listing.
Import ImageController.

Lemma keyed_ids (db : gmap string Image.t) :
  keyedImages db →
  Image.imageId <$> (map_to_list db).*2 = (map_to_list db).*1.
Proof.
  intros Hk. rewrite <- list_fmap_compose.
  apply list_fmap_ext. intros n [k i] Hin. cbn.
  apply Hk, elem_of_map_to_list. by eapply list_elem_of_lookup_2.
Qed.

(** X22.  A listing answered 200 shows the caller its own live assets
    and nothing else: every item is a record of the catalog owned by the
    authenticated application and not soft-deleted, no asset is shown
    twice, the page holds at most [limit] items with [limit] never above
    100, the reported total counts at least the items shown and at most
    the records of the catalog, and the listing changes neither
    collection. *)
Theorem listing_is_scoped_and_bounded (env : Env) (w : World)
    (req : Request) :
  keyed w →
  statusOf (Routes.dispatch Routes.GetList env w req).1 = 200 →
  ∃ tenant items p,
    Routes.dispatch Routes.GetList env w req
    = (Json 200 true (Listed items p), w)
    ∧ caller env w req = Some tenant
    ∧ (∀ it, it ∈ items →
         images w !! Image.imageId (li_image it) = Some (li_image it)
         ∧ Image.application (li_image it) = tenant
         ∧ Image.isDeleted (li_image it) = false)
    ∧ NoDup ((fun it => Image.imageId (li_image it)) <$> items)
    ∧ pg_limit p ≤ 100
    ∧ Z.of_nat (length items) ≤ Z.abs (pg_limit p)
    ∧ Z.of_nat (length items) ≤ pg_total p
    ∧ pg_total p ≤ Z.of_nat (size (images w)).
Proof.
  intros [Hki Hka] Hstatus. cbn [Routes.dispatch] in *.
  destruct (protected_passes listImages env w req)
    as (id & a & _ & _ & Hcaller & _ & Hrun); [lia|lia|].
  cbv zeta in Hrun. rewrite Hrun in Hstatus |- *.
  set (req' := Auth.set_application _ req) in *.
  unfold listImages in *.
  change (application req')
    with (Some (Auth.describe (Application.stored a))) in *.
  cbn [ra_id Auth.describe Application._id Application.stored] in *.
  change (query req') with (query req) in *.
  destruct (_ <? 0); [done|]. cbn [fst] in Hstatus.
  set (limit := Z.min (intOr (q_limit (query req)) 20) 100).
  set (found := filter _ (map_to_list (images w)).*2).
  set (sorted := merge_sort _ found).
  set (shown := take _ (drop _ sorted)).
  assert (shown `sublist_of` sorted) as Hshown.
  { etrans; [apply sublist_take|apply sublist_drop]. }
  assert (sorted ≡ₚ found) as Hsorted by apply merge_sort_Permutation.
  assert (found `sublist_of` (map_to_list (images w)).*2) as Hfound
    by apply sublist_filter.
  assert (NoDup (Image.imageId <$> (map_to_list (images w)).*2)) as Hnodup.
  { rewrite (keyed_ids _ Hki). apply NoDup_fst_map_to_list. }
  exists (Application._id a), (listItem env (Auth.describe
                                               (Application.stored a))
                               <$> shown),
    (mkPagination (intOr (q_page (query req)) 1) limit
       (Z.of_nat (length found))).
  split_and!; [reflexivity|done|..]; cbn [pg_limit pg_total].
  - intros it (i & -> & Hin)%list_elem_of_fmap. cbn [li_image listItem].
    eapply elem_of_sublist in Hin; [|exact Hshown]. rewrite Hsorted in Hin.
    apply list_elem_of_filter in Hin as [Hmatch Hin].
    apply list_elem_of_fmap in Hin as ([k i'] & -> & Hin).
    apply elem_of_map_to_list in Hin. cbn in *.
    rewrite (Hki _ _ Hin). unfold matchesQuery in Hmatch.
    rewrite !andb_true_iff in Hmatch.
    destruct Hmatch as [[[[[[[Howner Hlive] _] _] _] _] _] _].
    apply String.eqb_eq in Howner. apply negb_true_iff in Hlive.
    by split_and!.
  - rewrite <- list_fmap_compose.
    change ((fun it => Image.imageId (li_image it)) ∘ listItem env _)
      with Image.imageId.
    eapply sublist_NoDup; [|apply (fmap_sublist _ _ _ Hshown)].
    rewrite Hsorted.
    eapply sublist_NoDup; [exact Hnodup|]. by apply fmap_sublist.
  - subst limit. lia.
  - rewrite length_fmap. subst shown. rewrite length_take. lia.
  - rewrite length_fmap. apply sublist_length in Hshown.
    rewrite Hsorted in Hshown. lia.
  - apply sublist_length in Hfound.
    rewrite length_fmap, length_map_to_list in Hfound. lia.
Qed.

Lemma listing_is_scoped_and_bounded_witness :
  let e := Example.env Example.april true "" in
  let req := Example.readRequest "" (Some "app:acme") None in
  ∃ items p,
    Routes.dispatch Routes.GetList e Example.world2 req
    = (Json 200 true (Listed items p), Example.world2)
    ∧ pg_total p ≤ 2.
Proof.
  intros e req.
  destruct (listing_is_scoped_and_bounded e Example.world2 req)
    as (tenant & items & p & Hlist & _ & _ & _ & _ & _ & _ & Htotal).
  - exact world2_keyed.
  - reflexivity.
  - exists items, p. split; [exact Hlist|]. exact Htotal.
Defined.

(** X23.  The category list of an application holds exactly the
    non-empty categories of its own live assets, each once: no category
    that only another application uses, or that only soft-deleted assets
    carry, appears in it. *)
Theorem categories_are_the_callers_own (env : Env) (w : World)
    (req : Request) (ra : ReqApplication) :
  application req = Some ra →
  ∃ categories,
    getCategories env w req = inr categories
    ∧ NoDup categories
    ∧ ∀ category,
        category ∈ categories ↔
        category ≠ ""
        ∧ ∃ id image,
            images w !! id = Some image
            ∧ Image.application image = ra_id ra
            ∧ Image.isDeleted image = false
            ∧ Image.category image = category.
Proof.
  intros Hra. unfold getCategories. rewrite Hra. eexists.
  split; [reflexivity|]. split.
  - eapply sublist_NoDup; [apply NoDup_remove_dups|apply sublist_filter].
  - intros category.
    rewrite list_elem_of_filter, elem_of_remove_dups, list_elem_of_fmap.
    split.
    + intros (Hne & image & -> & Hin). split; [done|].
      apply list_elem_of_filter in Hin as [[Howner Hlive] Hin].
      apply list_elem_of_fmap in Hin as ([id image'] & -> & Hin).
      apply elem_of_map_to_list in Hin. by exists id, image'.
    + intros (Hne & id & image & Hlook & Howner & Hlive & <-).
      split; [done|]. exists image. split; [done|].
      apply list_elem_of_filter. split; [done|].
      apply list_elem_of_fmap. exists (id, image). split; [done|].
      by apply elem_of_map_to_list.
Qed.

Lemma categories_are_the_callers_own_witness :
  ∃ categories,
    getCategories (Example.env Example.april true "") Example.world2
      (Example.authenticated Example.acme
         (Example.readRequest "" (Some "app:acme") None))
    = inr categories
    ∧ NoDup categories.
Proof.
  destruct (categories_are_the_callers_own
              (Example.env Example.april true "") Example.world2
              (Example.authenticated Example.acme
                 (Example.readRequest "" (Some "app:acme") None))
              (Auth.describe Example.acme) eq_refl)
    as (categories & Hcats & Hnodup & _).
  exists categories. split; [exact Hcats|exact Hnodup].
Defined.

End Listing.

(** * The variant manifest *)

Section Variants.
Import ImageController.

Lemma manifest_keys (a b c d e : Image.Variant) (name : string) :
  is_Some ((<["original" := e]>
              (<["large" := d]>
                 (<["medium" := c]>
                    (<["small" := b]> (<["thumbnail" := a]> ∅))))
            : gmap string Image.Variant) !! name)
  ↔ name ∈ IMAGE_SIZES.*1.
Proof.
  rewrite !lookup_insert_is_Some, lookup_empty, <- not_eq_None_Some.
  cbn. rewrite !elem_of_cons, elem_of_nil.
  split; [|intros [->|[->|[->|[->|[->|[]]]]]]; intuition congruence].
  intuition congruence.
Qed.

(** X24.  The variant manifest of a write is all or nothing.  What the
    three writers store as [variants] is either empty (the generation
    failed somewhere and was abandoned) or complete: it has exactly the
    five entries thumbnail, small, medium, large and original; the
    original entry points at the uploaded file and has no size,
    dimensions or format; every other entry is a WebP rendition with its
    size and dimensions, stored under [variants/<imageId>/<name>.webp]
    on S3. *)
Theorem manifest_is_complete_or_empty (env : Env) (f : File)
    (imageId : string) :
  let variants := buildVariants env f imageId in
  variants = ∅
  ∨ ((∀ name, is_Some (variants !! name) ↔ name ∈ IMAGE_SIZES.*1)
     ∧ (∃ original,
          variants !! "original" = Some original
          ∧ Image.v_size original = None
          ∧ Image.v_width original = None
          ∧ Image.v_height original = None
          ∧ Image.v_format original = None
          ∧ if usesS3 env
            then Image.v_s3Key original = s3_key <$> f_s3 f
            else Image.v_path original = f_path f)
     ∧ ∀ name variant,
         variants !! name = Some variant →
         name ≠ "original" →
         Image.v_format variant = Some "webp"
         ∧ is_Some (Image.v_size variant)
         ∧ is_Some (Image.v_width variant)
         ∧ is_Some (Image.v_height variant)
         ∧ if usesS3 env
           then Image.v_s3Key variant
                = Some ("variants/" +:+ imageId +:+ "/" +:+ name +:+ ".webp")
                ∧ is_Some (Image.v_url variant)
           else is_Some (Image.v_path variant)).
Proof.
  cbv zeta. unfold buildVariants.
  destruct (usesS3 env).
  - destruct (f_s3 f) as [s3|]; [|by left]. cbn [mbind option_bind].
    unfold generateS3ImageVariants.
    destruct (s3_getObject env (s3_key s3)); [|by left].
    cbn [foldl IMAGE_SIZES]. cbn [mbind option_bind String.eqb Ascii.eqb
                                    Bool.eqb].
    destruct (sharp_toBuffer env _ (box (Some (150, 150))).1 _) as [?|];
      cbn [mbind option_bind]; [|by left].
    destruct (s3_upload env (_ +:+ _ +:+ _ +:+ "thumbnail" +:+ _)) as [?|];
      cbn [mbind option_bind]; [|by left].
    destruct (sharp_toBuffer env _ (box (Some (300, 300))).1 _) as [?|];
      cbn [mbind option_bind]; [|by left].
    destruct (s3_upload env (_ +:+ _ +:+ _ +:+ "small" +:+ _)) as [?|];
      cbn [mbind option_bind]; [|by left].
    destruct (sharp_toBuffer env _ (box (Some (600, 600))).1 _) as [?|];
      cbn [mbind option_bind]; [|by left].
    destruct (s3_upload env (_ +:+ _ +:+ _ +:+ "medium" +:+ _)) as [?|];
      cbn [mbind option_bind]; [|by left].
    destruct (sharp_toBuffer env _ (box (Some (1200, 1200))).1 _) as [?|];
      cbn [mbind option_bind]; [|by left].
    destruct (s3_upload env (_ +:+ _ +:+ _ +:+ "large" +:+ _)) as [?|];
      cbn [mbind option_bind]; [|by left].
    right. cbn [default from_option id]. split_and!.
    + apply manifest_keys.
    + eexists. split; [apply lookup_insert_eq|]. by cbn.
    + intros name variant Hlook Hname.
      rewrite !lookup_insert_Some, lookup_empty in Hlook.
      destruct Hlook as [[<- <-]|[_ [[<- <-]|[_ [[<- <-]|[_ [[<- <-]|[_
                          [[<- <-]|[_ ?]]]]]]]]]]; try done; cbn;
        by split_and!.
  - destruct (f_path f) as [p|]; [|by left]. cbn [mbind option_bind].
    unfold generateImageVariants.
    destruct (fs_mkdir env _); [|by left].
    cbn [foldl IMAGE_SIZES]. cbn [mbind option_bind String.eqb Ascii.eqb
                                    Bool.eqb].
    destruct (sharp_toFile env _ (box (Some (150, 150))).1 _ _) as [?|];
      cbn [mbind option_bind]; [|by left].
    destruct (sharp_toFile env _ (box (Some (300, 300))).1 _ _) as [?|];
      cbn [mbind option_bind]; [|by left].
    destruct (sharp_toFile env _ (box (Some (600, 600))).1 _ _) as [?|];
      cbn [mbind option_bind]; [|by left].
    destruct (sharp_toFile env _ (box (Some (1200, 1200))).1 _ _) as [?|];
      cbn [mbind option_bind]; [|by left].
    right. cbn [default from_option id]. split_and!.
    + apply manifest_keys.
    + eexists. split; [apply lookup_insert_eq|]. by cbn.
    + intros name variant Hlook Hname.
      rewrite !lookup_insert_Some, lookup_empty in Hlook.
      destruct Hlook as [[<- <-]|[_ [[<- <-]|[_ [[<- <-]|[_ [[<- <-]|[_
                          [[<- <-]|[_ ?]]]]]]]]]]; try done; cbn;
        by split_and!.
Qed.

End Variants.

(** * File names *)

Section Filenames.
Import Upload.

Lemma dropUnderscores_split l : ∃ pre, l = (pre ++ dropUnderscores l)%list.
Proof.
  induction l as [|c l [pre IH]]; [by exists []|]. cbn.
  destruct (Ascii.eqb c "_"); [|by exists []].
  exists (c :: pre). cbn. by f_equal.
Qed.

Lemma dropUnderscores_head l : head (dropUnderscores l) ≠ Some "_"%char.
Proof.
  induction l as [|c l IH]; cbn; [done|].
  destruct (Ascii.eqb_spec c "_"); [done|]. cbn. congruence.
Qed.

Lemma trimUnderscores_factor l :
  ∃ pre post, l = (pre ++ trimUnderscores l ++ post)%list
              ∧ dropUnderscores l = (trimUnderscores l ++ post)%list.
Proof.
  unfold trimUnderscores.
  destruct (dropUnderscores_split l) as [pre Hl].
  destruct (dropUnderscores_split (rev (dropUnderscores l))) as [pre' Hm].
  exists pre, (rev pre').
  assert (dropUnderscores l
          = (rev (dropUnderscores (rev (dropUnderscores l))) ++ rev pre')%list)
    as Heq by (by rewrite <- rev_app_distr, <- Hm, rev_involutive).
  split; [|done]. by rewrite <- Heq.
Qed.

Lemma trimUnderscores_ends l :
  head (trimUnderscores l) ≠ Some "_"%char
  ∧ last (trimUnderscores l) ≠ Some "_"%char.
Proof.
  split.
  - destruct (trimUnderscores_factor l) as (pre & post & _ & Hm).
    pose proof (dropUnderscores_head l) as Hhead. rewrite Hm in Hhead.
    by destruct (trimUnderscores l).
  - unfold trimUnderscores.
    pose proof (dropUnderscores_head (rev (dropUnderscores l))) as Hhead.
    destruct (dropUnderscores (rev (dropUnderscores l))) as [|c x]; [done|].
    cbn [rev]. rewrite last_snoc. cbn in Hhead. congruence.
Qed.

Lemma doubled_cons c l :
  doubled (c :: l)
  ↔ (c = "_"%char ∧ head l = Some "_"%char) ∨ doubled l.
Proof.
  split.
  - intros ([|c' l1] & l2 & H); cbn in H; injection H as -> ->.
    + by left.
    + right. by exists l1, l2.
  - intros [[-> Hhead]|(l1 & l2 & ->)].
    + destruct l as [|c' l]; [done|]. injection Hhead as ->.
      by exists [], l.
    + by exists (c :: l1), l2.
Qed.

Lemma doubled_nil : ¬ doubled [].
Proof. by intros ([|? ?] & ? & ?). Qed.

Lemma doubled_factor pre l post :
  doubled l → doubled (pre ++ l ++ post).
Proof.
  intros (l1 & l2 & ->). exists (pre ++ l1)%list, (l2 ++ post)%list.
  by rewrite <- !app_assoc.
Qed.

Lemma collapseUnderscores_clean l : ¬ doubled (collapseUnderscores l).
Proof.
  induction l as [|c rest IH]; cbn; [apply doubled_nil|].
  destruct (Ascii.eqb_spec c "_") as [->|Hc].
  - destruct rest as [|c' r].
    { rewrite doubled_cons. intros [[_ ?]|?]; [done|by apply doubled_nil]. }
    destruct (Ascii.eqb_spec c' "_") as [->|Hc']; [exact IH|].
    rewrite doubled_cons. intros [[_ Hhead]|H]; [|by apply IH].
    cbn in Hhead. apply Ascii.eqb_neq in Hc'. rewrite Hc' in Hhead.
    apply Ascii.eqb_neq in Hc'. cbn in Hhead. congruence.
  - rewrite doubled_cons. intros [[? _]|H]; [done|by apply IH].
Qed.

Lemma collapseUnderscores_sublist l : collapseUnderscores l `sublist_of` l.
Proof.
  induction l as [|c rest IH]; cbn; [done|].
  destruct (Ascii.eqb c "_").
  - destruct rest as [|c' r]; [done|].
    destruct (Ascii.eqb c' "_"); [by apply sublist_cons|by apply sublist_skip].
  - by apply sublist_skip.
Qed.

Lemma replaceUnsafe_kept l :
  Forall (fun c => keptChar c = true ∨ c = "_"%char) (replaceUnsafe l).
Proof.
  unfold replaceUnsafe. apply Forall_fmap, Forall_forall. intros c _. cbn.
  destruct (keptChar c) eqn:Hc; auto.
Qed.

(** X25.  A sanitised file name is harmless.  Whatever the name of the
    uploaded file, [sanitizeFilename] gives at most 100 characters, each
    a letter, a digit, a dot, a hyphen or an underscore, so no path
    separator survives; the outcome does not start with an underscore and
    holds no two underscores in a row; and if the name had at most 100
    characters the outcome does not end with an underscore either (a
    longer name may be cut right after one). *)
Theorem sanitized_name_is_harmless (filename : string) :
  let name := list_ascii_of_string (sanitizeFilename filename) in
  (length name ≤ 100)%nat
  ∧ Forall (fun c => keptChar c = true ∨ c = "_"%char) name
  ∧ ("/"%char ∉ name)
  ∧ ("\"%char ∉ name)
  ∧ head name ≠ Some "_"%char
  ∧ ¬ doubled name
  ∧ ((String.length filename ≤ 100)%nat → last name ≠ Some "_"%char).
Proof.
  cbv zeta. unfold sanitizeFilename.
  rewrite list_ascii_of_string_of_list_ascii.
  set (l := list_ascii_of_string filename).
  set (c := collapseUnderscores (replaceUnsafe l)).
  destruct (trimUnderscores_factor c) as (pre & post & Hc & _).
  destruct (trimUnderscores_ends c) as [Hhead Hlast].
  set (t := trimUnderscores c) in *.
  assert (Forall (fun c => keptChar c = true ∨ c = "_"%char) t) as Hkept.
  { assert (Forall (fun c => keptChar c = true ∨ c = "_"%char) c) as Hall.
    { apply Forall_forall. intros x Hx.
      eapply elem_of_sublist in Hx; [|apply collapseUnderscores_sublist].
      revert x Hx. apply Forall_forall, replaceUnsafe_kept. }
    rewrite Hc in Hall.
    by apply Forall_app in Hall as [_ [Hall _]%Forall_app]. }
  assert (Forall (fun c => keptChar c = true ∨ c = "_"%char) (take 100 t))
    as Hkept' by (by apply Forall_take).
  split_and!.
  - rewrite length_take. lia.
  - done.
  - intros Hin. eapply Forall_forall in Hin; [|exact Hkept'].
    by destruct Hin.
  - intros Hin. eapply Forall_forall in Hin; [|exact Hkept'].
    by destruct Hin.
  - by destruct t.
  - intros Hdoubled. apply (collapseUnderscores_clean (replaceUnsafe l)).
    fold c. rewrite Hc. apply doubled_factor.
    rewrite <- (take_drop 100 t), <- (app_nil_l (take 100 t ++ _)).
    by apply doubled_factor.
  - intros Hshort. rewrite take_ge; [done|].
    assert (length l = String.length filename) as Hlen.
    { subst l. clear. induction filename; cbn; congruence. }
    pose proof (sublist_length _ _ (collapseUnderscores_sublist
                                      (replaceUnsafe l))) as Hsub.
    fold c in Hsub. unfold replaceUnsafe in Hsub.
    rewrite length_fmap in Hsub. rewrite Hc, !length_app in Hsub. lia.
Qed.

End Filenames.

(** * The upload middleware *)

Section Middleware.
Import Upload.

Lemma append_cons (c : ascii) (a b : string) :
  String c a +:+ b = String c (a +:+ b).
Proof. reflexivity. Qed.

Lemma prefix_spec (a s : string) :
  String.prefix a s = true ↔ ∃ post, s = a +:+ post.
Proof.
  revert s. induction a as [|c a IH]; intros [|c' s]; cbn.
  - split; [by exists ""|done].
  - split; [by exists (String c' s)|done].
  - split; [done|by intros [? ?]].
  - destruct (Ascii.ascii_dec c c') as [->|Hc].
    + rewrite IH. split; intros [post H]; exists post;
        rewrite append_cons in *; congruence.
    + split; [done|]. intros [post H]. rewrite append_cons in H.
      congruence.
Qed.

Lemma includes_spec (needle s : string) :
  includes needle s = true ↔ ∃ pre post, s = pre +:+ needle +:+ post.
Proof.
  induction s as [|c s IH]; cbn [includes]; rewrite orb_true_iff, prefix_spec.
  - split.
    + intros [[post H]|?]; [|done]. by exists "", post.
    + intros ([|? ?] & post & H); [|done]. left. by exists post.
  - rewrite IH. split.
    + intros [[post H]|(pre & post & ->)]; [by exists "", post|].
      by exists (String c pre), post.
    + intros ([|c' pre] & post & H); [left; by exists post|].
      right. rewrite append_cons in H. injection H as -> ->.
      by exists pre, post.
Qed.

Lemma includes_char (c : ascii) (s : string) :
  includes (String c "") s = true ↔ c ∈ list_ascii_of_string s.
Proof.
  rewrite includes_spec. split.
  - intros (pre & post & ->). clear.
    induction pre as [|c' pre IH]; rewrite append_cons; cbn.
    + apply elem_of_cons. by left.
    + apply elem_of_cons. by right.
  - induction s as [|c' s IH]; cbn; [by intros ?%elem_of_nil|].
    intros [->|Hin]%elem_of_cons; [by exists "", s|].
    destruct (IH Hin) as (pre & post & ->). by exists (String c' pre), post.
Qed.

(** X26.  What [fileFilter] lets through.  A file is accepted exactly
    when the lower-cased extension of its name is one of .jpg, .jpeg,
    .png, .webp, its declared MIME type is one of the four image types
    (the values the Image schema accepts), and its name holds no [..],
    no slash and no backslash anywhere. *)
Theorem file_filter_accepts_plain_image_names
    (extname toLowerCase : string → string) (file : File) :
  fileFilter extname toLowerCase file = None
  ↔ toLowerCase (extname (originalname file)) ∈ allowedExt
    ∧ f_mimetype file ∈ Image.mimetypeEnum
    ∧ (∀ pre post, originalname file ≠ pre +:+ ".." +:+ post)
    ∧ ("/"%char ∉ list_ascii_of_string (originalname file))
    ∧ ("\"%char ∉ list_ascii_of_string (originalname file)).
Proof.
  unfold fileFilter.
  rewrite <- !includes_char.
  assert ((∀ pre post, originalname file ≠ pre +:+ ".." +:+ post)
          ↔ includes ".." (originalname file) ≠ true) as ->.
  { rewrite includes_spec. split.
    - intros H (pre & post & Heq). by apply (H pre post).
    - intros H pre post Heq. apply H. by exists pre, post. }
  change ALLOWED_MIME_TYPES with Image.mimetypeEnum.
  destruct (bool_decide_reflect
              (toLowerCase (extname (originalname file)) ∈ allowedExt));
    cbn [negb]; [|split; [done|tauto]].
  destruct (bool_decide_reflect (f_mimetype file ∈ Image.mimetypeEnum));
    cbn [negb]; [|split; [done|tauto]].
  destruct (includes ".." _), (includes "/" _), (includes "\" _); cbn;
    split; try done; intuition congruence.
Qed.

(** X27.  What [uploadMiddleware] hands on.  Every refusal of the
    middleware is a 400 with an error envelope.  A request it lets
    through carries the parsed file and the metadata [sharp] read from
    it: the declared MIME type is one the Image schema accepts, the
    detected format is jpeg, png or webp, and the rest of the request is
    unchanged.  With S3 storage the file has been uploaded under the
    generated unique name and carries the result, so that the storage
    fields the upload handler reads from it are present; with local
    storage the file is as multer left it. *)
Theorem upload_middleware_hands_on_a_checked_file
    (extname : string → string) (basename : string → string → string)
    (toLowerCase : string → string)
    (sharp_metadata : File → string + option Image.Metadata)
    (hasBuffer : File → bool)
    (uploadToS3 : File → string → option S3Info)
    (multerText : string → string → string)
    (env : Env) (uuid : string) (multer : MulterResult) (req : Request) :
  match uploadMiddleware extname basename toLowerCase sharp_metadata
          hasBuffer uploadToS3 multerText env uuid multer req with
  | inl r => statusOf r = 400 ∧ refused r
  | inr req' =>
      ∃ f0 f md fmt,
        multer = Parsed (Some f0)
        ∧ file req' = Some f
        ∧ fileMetadata req' = Some md
        ∧ sharp_metadata f0 = inr (Some md)
        ∧ Image.format md = Some fmt
        ∧ fmt ∈ validFormats
        ∧ f_mimetype f ∈ Image.mimetypeEnum
        ∧ (hasBuffer f0 = true ∨ Image.truthy (f_path f0) = true)
        ∧ originalname f = originalname f0
        ∧ f_mimetype f = f_mimetype f0
        ∧ f_size f = f_size f0
        ∧ f_path f = f_path f0
        ∧ authorization req' = authorization req
        ∧ imageIdParam req' = imageIdParam req
        ∧ query req' = query req
        ∧ body req' = body req
        ∧ application req' = application req
        ∧ if usesS3 env then
            let name :=
              generateUniqueFilename extname basename toLowerCase uuid
                (originalname f0) in
            ∃ s3, uploadToS3 f0 name = Some s3
                  ∧ f_s3 f = Some s3
                  ∧ f_filename f = Some name
                  ∧ ImageController.storageFields env f
                    = Some (Some (s3_key s3), Some (s3_location s3),
                            s3_key s3)
          else f = f0
  end.
Proof.
  unfold uploadMiddleware.
  destruct multer as [code message|message|[f0|]]; try done.
  unfold validateFileType.
  change ALLOWED_MIME_TYPES with Image.mimetypeEnum.
  destruct (bool_decide_reflect (f_mimetype f0 ∈ Image.mimetypeEnum))
    as [Hmime|]; cbn [negb]; [|done].
  destruct (negb (hasBuffer f0) && negb (Image.truthy (f_path f0)))
    eqn:Hdata; [done|].
  assert (hasBuffer f0 = true ∨ Image.truthy (f_path f0) = true) as Hinput.
  { destruct (hasBuffer f0), (Image.truthy (f_path f0)); auto. }
  destruct (sharp_metadata f0) as [message|[md|]] eqn:Hsharp; try done.
  destruct (Image.truthy (Image.format md)) eqn:Hformat; cbn [negb]; [|done].
  apply truthy_spec in Hformat as (fmt & Hfmt & _). rewrite Hfmt.
  change (default "" (Some fmt)) with fmt.
  destruct (bool_decide_reflect (fmt ∈ validFormats)) as [Hvalid|];
    cbn [negb]; [|done].
  destruct (usesS3 env) eqn:Hs3.
  - destruct (uploadToS3 f0 _) as [s3|] eqn:Hupload; [|done].
    eexists f0, _, md, fmt. cbn. split_and!; try done.
    exists s3. split_and!; try done.
    unfold ImageController.storageFields. by rewrite Hs3.
  - exists f0, f0, md, fmt. cbn. by split_and!.
Qed.

End Middleware.

(** * Tags *)

Section Tags.

Lemma trim_start_split s :
  ∃ pre, list_ascii_of_string s
         = (pre ++ list_ascii_of_string (trim_start s))%list.
Proof.
  induction s as [|c s [pre IH]]; [by exists []|]. cbn.
  destruct (is_space c); [|by exists []].
  exists (c :: pre). cbn. by f_equal.
Qed.

Lemma trim_start_head s c :
  head (list_ascii_of_string (trim_start s)) = Some c → is_space c = false.
Proof.
  induction s as [|c' s IH]; cbn; [done|].
  destruct (is_space c') eqn:Hc'; [done|]. cbn. congruence.
Qed.

Lemma trim_factor s :
  ∃ pre post,
    list_ascii_of_string s
    = (pre ++ list_ascii_of_string (trim s) ++ post)%list
    ∧ list_ascii_of_string (trim_start s)
      = (list_ascii_of_string (trim s) ++ post)%list.
Proof.
  unfold trim, string_rev.
  rewrite !list_ascii_of_string_of_list_ascii.
  destruct (trim_start_split s) as [pre Hs].
  destruct (trim_start_split
              (string_of_list_ascii
                 (rev (list_ascii_of_string (trim_start s)))))
    as [pre' Hm].
  rewrite list_ascii_of_string_of_list_ascii in Hm.
  exists pre, (rev pre').
  assert (list_ascii_of_string (trim_start s)
          = (rev (list_ascii_of_string
                    (trim_start
                       (string_of_list_ascii
                          (rev (list_ascii_of_string (trim_start s))))))
             ++ rev pre')%list) as Heq
    by (by rewrite <- rev_app_distr, <- Hm, rev_involutive).
  split; [|done]. by rewrite <- Heq.
Qed.

Lemma trim_ends s c :
  head (list_ascii_of_string (trim s)) = Some c
  ∨ last (list_ascii_of_string (trim s)) = Some c →
  is_space c = false.
Proof.
  intros [Hhead|Hlast].
  - destruct (trim_factor s) as (pre & post & _ & Hm).
    apply (trim_start_head s). rewrite Hm.
    by destruct (list_ascii_of_string (trim s)).
  - unfold trim, string_rev in Hlast.
    rewrite !list_ascii_of_string_of_list_ascii in Hlast.
    match type of Hlast with
    | last (rev (list_ascii_of_string (trim_start ?x))) = _ =>
        pose proof (trim_start_head x c) as Hhead;
        destruct (list_ascii_of_string (trim_start x)) as [|c' l]; [done|]
    end.
    cbn [rev] in Hlast. rewrite last_snoc in Hlast. apply Hhead.
    cbn. congruence.
Qed.

Lemma split_on_pieces sep s :
  Forall (fun piece => sep ∉ list_ascii_of_string piece) (split_on sep s).
Proof.
  induction s as [|c s IH]; cbn.
  - repeat constructor. by intros ?%elem_of_nil.
  - destruct (Ascii.eqb_spec c sep) as [->|Hc].
    + constructor; [by intros ?%elem_of_nil|done].
    + destruct (split_on sep s) as [|piece pieces].
      * repeat constructor. cbn. intros [?|?%elem_of_nil]%elem_of_cons; done.
      * apply Forall_cons in IH as [Hpiece Hpieces].
        constructor; [|done]. cbn.
        intros [?|?]%elem_of_cons; done.
Qed.

(** X28.  The tags that come out of a comma-separated string are clean:
    [parseTags] yields no empty tag, no tag holds a comma, and no tag
    starts or ends with white space. *)
Theorem parsed_tags_are_clean (s : string) :
  Forall (fun tag =>
            tag ≠ ""
            ∧ (","%char ∉ list_ascii_of_string tag)
            ∧ (∀ c, head (list_ascii_of_string tag) = Some c
                    ∨ last (list_ascii_of_string tag) = Some c →
                    is_space c = false))
         (parseTags s).
Proof.
  unfold parseTags. apply Forall_forall. intros tag Hin.
  apply list_elem_of_filter in Hin as [Hne Hin].
  apply list_elem_of_fmap in Hin as (piece & -> & Hin).
  split_and!; [done| |apply trim_ends].
  pose proof (split_on_pieces "," s) as Hpieces.
  eapply Forall_forall in Hpieces; [|exact Hin].
  destruct (trim_factor piece) as (pre & post & Hpiece & _).
  intros Hcomma. apply Hpieces. rewrite Hpiece.
  apply elem_of_app. right. apply elem_of_app. by left.
Qed.

End Tags.

(** * The answer of an upload *)

Section Answer.
Import ImageController.

(** X29.  The answer of an upload follows the visibility of the new
    asset.  The asset starts from the schema defaults (no versions, no
    access counted, not deleted, category "uncategorized" unless the body
    names one) and is public exactly when it is product-like; a public
    asset is answered with the bare URL and a set of token-free URLs, a
    private one with a URL that carries the access token of the answer
    and no token-free URL at all. *)
Theorem upload_answer_follows_visibility (env : Env) (w : World)
    (req : Request) :
  statusOf (uploadImage env w req).1 = 201 →
  ∃ d,
    let image := u_image d in
    let base := "/api/images/" +:+ Image.imageId image in
    (uploadImage env w req).1 = Json 201 true (Uploaded d)
    ∧ (Image.isPublic image = true ↔ productCondition image)
    ∧ (if Image.isPublic image
       then u_accessUrl d = base ∧ is_Some (u_publicUrls d)
       else u_accessUrl d = base +:+ "?token=" +:+ u_accessToken d
            ∧ u_publicUrls d = None)
    ∧ Image.category image = orElse (b_category (body req)) "uncategorized"
    ∧ Image.versions image = []
    ∧ Image.accessCount image = 0
    ∧ Image.isDeleted image = false
    ∧ Image.createdAt image = now env.
Proof.
  intros Hstatus. apply uploadImage_201 in Hstatus.
  destruct (uploadImage env w req) as [r w'] eqn:Hup.
  assert (∃ d, r = Json 201 true (Uploaded d)) as [d ->].
  { apply uploadImage_inv in Hup
      as [[_ ?]|(? & ? & ? & ? & d & _ & _ & _ & _ & _ & _ & _ & -> & _)];
      [done|by exists d]. }
  pose proof (created_visibility env w req d w' Hup) as Hvisible.
  exists d. cbv zeta. split; [done|]. split; [done|].
  unfold uploadImage in Hup.
  destruct (file req) as [f|]; [|done].
  destruct (application req) as [ra|]; [|done].
  destruct (Application.findById _ _) as [app|]; [|done].
  destruct (Application.canUpload _ _ app) as [v app'].
  destruct (negb _); [done|].
  destruct (newImage env req f ra _ _) as [i|] eqn:Hnew; [|done].
  cbn [mbind option_bind] in Hup.
  destruct (Image.save _ _ _ _) as [[image imgs]|] eqn:Hsave; [|done].
  injection Hup as <- _. cbn [u_image u_accessUrl u_publicUrls u_accessToken].
  apply save_inv in Hsave as (_ & -> & _).
  unfold newImage in Hnew.
  destruct (fileMetadata req) as [md|]; [|done]. cbn in Hnew.
  destruct (match b_tags (body req) with Some _ => _ | None => _ end)
    as [tags|]; [|done]. cbn in Hnew.
  destruct (storageFields env f) as [[[s3Key url] path]|]; [|done].
  cbn in Hnew. injection Hnew as <-.
  split.
  - by destruct (Image.isPublic _).
  - unfold Image.preSave. by destruct (Image.productLike _).
Qed.

Lemma upload_answer_follows_visibility_witness :
  let e := Example.env Example.march false "p2" in
  let req :=
    Example.authenticated Example.acme
      (Example.uploadRequest "app:acme" (Some "product")) in
  ∃ d, (uploadImage e Example.world1 req).1 = Json 201 true (Uploaded d)
       ∧ Image.category (u_image d) = "product".
Proof.
  intros e req.
  destruct (upload_answer_follows_visibility e Example.world1 req)
    as (d & Hanswer & _ & _ & Hcategory & _).
  - reflexivity.
  - exists d. split; [exact Hanswer|exact Hcategory].
Defined.

End Answer.
